(** * sircles read database: a shallow embedding of [readdb/readdb.go]

    The read side of sircles projects an ordered log of domain events on
    a temporal graph kept in SQL tables.  Every vertex and edge row
    carries [start_tl] and [end_tl]; a row whose [end_tl] is NULL is
    open.  This file embeds the temporal store, the generic readers and
    writers, the named queries and the role part of the event applier,
    and then states and proves properties of them.

    Conventions of the embedding:
    - [util.ID] (a UUID) is a natural number, [util.TimeLineNumber]
      (an [int64] of nanoseconds) and Go's [int] are integers with the
      wrap-around of 64 bits written out where the code computes;
    - a table is the list of its rows in insertion order and a SELECT
      without ORDER BY returns rows in that order;
    - SQL conditions are three-valued: a comparison with NULL is
      unknown and WHERE keeps the rows whose condition is true;
    - a Go function returning [(T, error)] is a computation in the
      monad [M]: it threads the [DBService], and ends in [Ok], [Err]
      or [Panic]; the store itself never fails; a recursive function
      takes fuel, and [OutOfFuel] is the end of a run that needs more;
    - [json.Marshal] followed by [json.Unmarshal] is the identity on
      the role event payloads. *)

From Stdlib Require Import ZArith Lia Bool String Ascii.
From stdpp Require Import base option list gmap strings sorting.

Open Scope Z_scope.

(** ** Machine integers *)

Definition wrap (w z : Z) : Z := (z + 2 ^ (w - 1)) mod 2 ^ w - 2 ^ (w - 1).
Definition int32 : Z → Z := wrap 32.
Definition int64 : Z → Z := wrap 64.
Definition uint64 (z : Z) : Z := z mod 2 ^ 64.

(** [util.ID] and [util.TimeLineNumber]. *)
Abbreviation ID := N (only parsing).
Abbreviation TimeLineNumber := Z (only parsing).

(** [MaxFetchSize], readdb.go:28. *)
Definition MaxFetchSize : Z := 25.

(** ** SQL conditions

    [sqlbool] is SQL's three-valued truth: [None] is UNKNOWN.  The
    combinators are the squirrel builders the code uses. *)

Definition sqlbool := option bool.

Definition holds (b : sqlbool) : bool :=
  match b with Some true => true | _ => false end.

Definition sqAnd (a b : sqlbool) : sqlbool :=
  match a, b with
  | Some false, _ | _, Some false => Some false
  | Some true, Some true => Some true
  | _, _ => None
  end.

Definition sqOr (a b : sqlbool) : sqlbool :=
  match a, b with
  | Some true, _ | _, Some true => Some true
  | Some false, Some false => Some false
  | _, _ => None
  end.

(** [sq.Eq{col: nil}]: [col IS NULL]. *)
Definition sqIsNull {A} (col : option A) : sqlbool :=
  Some (match col with None => true | Some _ => false end).

(** [sq.LtOrEq], [sq.GtOrEq], [sq.Lt], [sq.Gt] and [sq.Eq] on a
    nullable integer column. *)
Definition sqLtOrEq (col : option Z) (v : Z) : sqlbool := (λ c, bool_decide (c ≤ v)) <$> col.
Definition sqGtOrEq (col : option Z) (v : Z) : sqlbool := (λ c, bool_decide (v ≤ c)) <$> col.
Definition sqLt (col : option Z) (v : Z) : sqlbool := (λ c, bool_decide (c < v)) <$> col.
Definition sqEq `{EqDecision A} (col : option A) (v : A) : sqlbool := (λ c, bool_decide (c = v)) <$> col.

(** [sq.Eq{col: ids}] with a slice: [col IN (ids)]; squirrel renders
    the empty slice as [(1=0)]. *)
Definition sqIn `{EqDecision A} (col : option A) (vs : list A) : sqlbool :=
  (λ c, bool_decide (c ∈ vs)) <$> col.

(** ** Rows

    Every vertex table has the columns [id, start_tl, end_tl] followed
    by the columns of its class ([vertexColumns], readdb.go:79); every
    edge table has [start_tl, end_tl, x, y] ([edgeColumns],
    readdb.go:148), and [rolemember] three more. *)

Record Vertex (A : Type) := mkVertex {
  v_id : ID;
  v_start_tl : TimeLineNumber;
  v_end_tl : option TimeLineNumber;
  v_attrs : A
}.
Arguments mkVertex {A} _ _ _ _.
Arguments v_id {A} _.
Arguments v_start_tl {A} _.
Arguments v_end_tl {A} _.
Arguments v_attrs {A} _.

Record Edge (B : Type) := mkEdge {
  e_start_tl : TimeLineNumber;
  e_end_tl : option TimeLineNumber;
  e_x : ID;
  e_y : ID;
  e_attrs : B
}.
Arguments mkEdge {B} _ _ _ _ _.
Arguments e_start_tl {B} _.
Arguments e_end_tl {B} _.
Arguments e_x {B} _.
Arguments e_y {B} _.
Arguments e_attrs {B} _.

(** The two temporal columns, common to vertex and edge rows. *)
Class Temporal (R : Type) := {
  start_tl : R → TimeLineNumber;
  end_tl : R → option TimeLineNumber;
  set_end_tl : TimeLineNumber → R → R
}.

#[export] Instance Vertex_temporal {A} : Temporal (Vertex A) := {|
  start_tl := v_start_tl;
  end_tl := v_end_tl;
  set_end_tl e r := mkVertex (v_id r) (v_start_tl r) (Some e) (v_attrs r)
|}.

#[export] Instance Edge_temporal {B} : Temporal (Edge B) := {|
  start_tl := e_start_tl;
  end_tl := e_end_tl;
  set_end_tl e r := mkEdge (e_start_tl r) (Some e) (e_x r) (e_y r) (e_attrs r)
|}.

(** Modelled from the spec: the package [models] is not part of the
    sources; the role types are those of section 3.2 and the core role
    types those of the glossary (LeadLink, RepLink, Secretary,
    Facilitator). *)
Inductive RoleType :=
  | RoleTypeNormal | RoleTypeCircle | RoleTypeLeadLink
  | RoleTypeRepLink | RoleTypeSecretary | RoleTypeFacilitator.

#[export] Instance RoleType_eq_dec : EqDecision RoleType.
Proof. solve_decision. Defined.

(** Modelled from the spec: [models.RoleType.IsCoreRoleType], absent
    from the sources; glossary, "Core role". *)
Definition IsCoreRoleType (t : RoleType) : bool :=
  match t with
  | RoleTypeLeadLink | RoleTypeRepLink | RoleTypeSecretary | RoleTypeFacilitator => true
  | RoleTypeNormal | RoleTypeCircle => false
  end.

(** [roleColumns], readdb.go:85. *)
Record RoleAttrs := mkRole {
  RoleType_ : RoleType;
  Depth : Z;
  Name : string;
  Purpose : string
}.

(** [memberColumns], readdb.go:124. *)
Record MemberAttrs := mkMember {
  IsAdmin : bool;
  UserName : string;
  FullName : string;
  Email : string
}.

(** [tensionColumns], readdb.go:161. *)
Record TensionAttrs := mkTension {
  Title : string;
  Description : string;
  Closed : bool;
  CloseReason : string
}.

(** [rolememberColumns], readdb.go:155. *)
Record RoleMemberAttrs := mkRoleMember {
  Focus : option string;
  NoCoreMember : bool;
  ElectionExpiration : option Z
}.

Abbreviation Role := (Vertex RoleAttrs) (only parsing).
Abbreviation Member := (Vertex MemberAttrs) (only parsing).
Abbreviation Tension := (Vertex TensionAttrs) (only parsing).

(** ** Timeline predicates, readdb.go:188-201 *)

Section TimeLineCond.
Context {R : Type} `{Temporal R}.

(** The general branch of [timeLineCond]. *)
Definition timeLineCondGeneral (tl : TimeLineNumber) (r : R) : sqlbool :=
  sqAnd (sqLtOrEq (Some (start_tl r)) tl)
        (sqOr (sqGtOrEq (end_tl r) tl) (sqIsNull (end_tl r))).

(** [DBService.timeLineCond]; [cur] is [s.curTl.Number()]. *)
Definition timeLineCond (cur tl : TimeLineNumber) (r : R) : sqlbool :=
  if decide (tl = cur) then sqIsNull (end_tl r)
  else timeLineCondGeneral tl r.

(** [DBService.lastTimeLineCond]. *)
Definition lastTimeLineCond (cur tl : TimeLineNumber) (r : R) : sqlbool :=
  if decide (tl = cur) then sqIsNull (end_tl r)
  else sqAnd (sqIsNull (end_tl r)) (sqLtOrEq (Some (start_tl r)) tl).

(** Section 3.4 of the specification: a row is live at [t] iff
    [start_tl ≤ t ∧ (end_tl = open ∨ end_tl ≥ t)]. *)
Definition live_at (t : TimeLineNumber) (r : R) : Prop :=
  start_tl r ≤ t ∧ match end_tl r with None => True | Some e => t ≤ e end.

#[export] Instance live_at_dec t r : Decision (live_at t r).
Proof. unfold live_at. destruct (end_tl r); apply _. Defined.

(** Section 3.4: the temporal invariants of a row with respect to the
    current timeline. *)
Definition temporal_ok (cur : TimeLineNumber) (r : R) : Prop :=
  start_tl r ≤ cur ∧ ∀ e, end_tl r = Some e → e < cur.
End TimeLineCond.

(** ** The graph schema, readdb.go:210-251 *)

Inductive edgeDirection := edgeDirectionOut | edgeDirectionIn.

(** [vertexClass] is a string type in Go; these are its constants.  The
    last two of the list below name result shapes, not tables. *)
Inductive vertexClass :=
  | vertexClassRole
  | vertexClassDomain
  | vertexClassAccountability
  | vertexClassRoleAdditionalContent
  | vertexClassMember
  | vertexClassMemberAvatar
  | vertexClassTension
  | vertexClassRoleMemberEdge
  | vertexClassMemberRoleEdge.

#[export] Instance vertexClass_eq_dec : EqDecision vertexClass.
Proof. solve_decision. Defined.

(** [edgeClass] is a struct [{Name, X, Y}]; these are its seven values. *)
Inductive edgeClass :=
  | edgeClassRoleRole
  | edgeClassRoleDomain
  | edgeClassRoleAccountability
  | edgeClassRoleMember
  | edgeClassCircleDirectMember
  | edgeClassMemberTension
  | edgeClassRoleTension.

#[export] Instance edgeClass_eq_dec : EqDecision edgeClass.
Proof. solve_decision. Defined.

Definition ecX (ec : edgeClass) : vertexClass :=
  match ec with
  | edgeClassRoleRole => vertexClassRole
  | edgeClassRoleDomain => vertexClassDomain
  | edgeClassRoleAccountability => vertexClassAccountability
  | edgeClassRoleMember => vertexClassMember
  | edgeClassCircleDirectMember => vertexClassMember
  | edgeClassMemberTension => vertexClassTension
  | edgeClassRoleTension => vertexClassTension
  end.

Definition ecY (ec : edgeClass) : vertexClass :=
  match ec with
  | edgeClassMemberTension => vertexClassMember
  | _ => vertexClassRole
  end.

Definition edgeClasses : list edgeClass :=
  [edgeClassRoleRole; edgeClassRoleDomain; edgeClassRoleAccountability;
   edgeClassRoleMember; edgeClassCircleDirectMember; edgeClassMemberTension;
   edgeClassRoleTension].

(** The class columns of a vertex table and of an edge table. *)
Definition attrsOf (vc : vertexClass) : Type :=
  match vc with
  | vertexClassRole => RoleAttrs
  | vertexClassMember => MemberAttrs
  | vertexClassTension => TensionAttrs
  | vertexClassDomain | vertexClassAccountability
  | vertexClassRoleAdditionalContent | vertexClassMemberAvatar => string
  | vertexClassRoleMemberEdge | vertexClassMemberRoleEdge => Empty_set
  end.

Definition eattrsOf (ec : edgeClass) : Type :=
  match ec with
  | edgeClassRoleMember => RoleMemberAttrs
  | _ => unit
  end.

(** ** Role events (section 3.5)

    Modelled from the spec: the package [models] is not part of the
    sources.  A [CircleChangesApplied] payload maps child roles to
    change records and records cross-parent moves. *)

Inductive ChangeType := ChangeTypeNew | ChangeTypeUpdated | ChangeTypeDeleted.

#[export] Instance ChangeType_eq_dec : EqDecision ChangeType.
Proof. solve_decision. Defined.

Record RoleParentChange := mkRoleParentChange {
  PreviousParent : ID;
  NewParent : ID
}.

Record RoleChange := mkRoleChange {
  ChangeType_ : ChangeType;
  Moved : option RoleParentChange;
  RolesMovedToParent : list ID;
  RolesMovedFromParent : list ID
}.

Record RoleEventCircleChangesApplied := mkCircleChangesApplied {
  ChangedRoles : gmap ID RoleChange;
  RolesToCircle : gmap ID ID;
  RolesFromCircle : gmap ID ID;
  IssuerID : ID
}.

Inductive RoleEventType := RoleEventTypeCircleChangesApplied.

#[export] Instance RoleEventType_eq_dec : EqDecision RoleEventType.
Proof. solve_decision. Defined.

(** A row of the table [roleevent]: [timeline, id, roleid, eventtype,
    data] (readdb.go:171). *)
Record RoleEvent := mkRoleEvent {
  re_TimeLineID : TimeLineNumber;
  re_ID : ID;
  re_RoleID : ID;
  re_EventType : RoleEventType;
  re_Data : RoleEventCircleChangesApplied
}.

(** Modelled from the spec: [models.NewRoleEventCircleChangesApplied],
    absent from the sources; a digest with no changed role yet
    (section 3.5). *)
Definition NewRoleEventCircleChangesApplied
    (tl : TimeLineNumber) (id roleID issuerID : ID) : RoleEvent :=
  mkRoleEvent tl id roleID RoleEventTypeCircleChangesApplied
    (mkCircleChangesApplied ∅ ∅ ∅ issuerID).

(** ** The store *)

(** A row of the table [timeline] (readdb.go:2621). *)
Record TimeLineRow := mkTimeLineRow {
  tlr_timestamp : TimeLineNumber;
  tlr_groupid : ID;
  tlr_aggregatetype : string;
  tlr_aggregateid : string
}.

Record DB := mkDB {
  tb_role : list Role;
  tb_domain : list (Vertex string);
  tb_accountability : list (Vertex string);
  tb_roleadditionalcontent : list (Vertex string);
  tb_member : list Member;
  tb_memberavatar : list (Vertex string);
  tb_tension : list Tension;
  tb_rolerole : list (Edge unit);
  tb_roledomain : list (Edge unit);
  tb_roleaccountability : list (Edge unit);
  tb_rolemember : list (Edge RoleMemberAttrs);
  tb_circledirectmember : list (Edge unit);
  tb_membertension : list (Edge unit);
  tb_roletension : list (Edge unit);
  tb_timeline : list TimeLineRow;
  tb_roleevent : list RoleEvent
}.

Definition emptyDB : DB := mkDB [] [] [] [] [] [] [] [] [] [] [] [] [] [] [] [].

(** The table of a vertex class, when the class has one. *)
Definition tableOf (vc : vertexClass) : option (DB → list (Vertex (attrsOf vc))) :=
  match vc with
  | vertexClassRole => Some tb_role
  | vertexClassDomain => Some tb_domain
  | vertexClassAccountability => Some tb_accountability
  | vertexClassRoleAdditionalContent => Some tb_roleadditionalcontent
  | vertexClassMember => Some tb_member
  | vertexClassMemberAvatar => Some tb_memberavatar
  | vertexClassTension => Some tb_tension
  | vertexClassRoleMemberEdge | vertexClassMemberRoleEdge => None
  end.

Definition etableOf (ec : edgeClass) : DB → list (Edge (eattrsOf ec)) :=
  match ec with
  | edgeClassRoleRole => tb_rolerole
  | edgeClassRoleDomain => tb_roledomain
  | edgeClassRoleAccountability => tb_roleaccountability
  | edgeClassRoleMember => tb_rolemember
  | edgeClassCircleDirectMember => tb_circledirectmember
  | edgeClassMemberTension => tb_membertension
  | edgeClassRoleTension => tb_roletension
  end.

(** Replacing the rows of one table. *)
Definition setTable (vc : vertexClass) :
    option (list (Vertex (attrsOf vc)) → DB → DB) :=
  match vc with
  | vertexClassRole => Some (λ t d,
      mkDB t (tb_domain d) (tb_accountability d) (tb_roleadditionalcontent d)
        (tb_member d) (tb_memberavatar d) (tb_tension d) (tb_rolerole d)
        (tb_roledomain d) (tb_roleaccountability d) (tb_rolemember d)
        (tb_circledirectmember d) (tb_membertension d) (tb_roletension d)
        (tb_timeline d) (tb_roleevent d))
  | vertexClassDomain => Some (λ t d,
      mkDB (tb_role d) t (tb_accountability d) (tb_roleadditionalcontent d)
        (tb_member d) (tb_memberavatar d) (tb_tension d) (tb_rolerole d)
        (tb_roledomain d) (tb_roleaccountability d) (tb_rolemember d)
        (tb_circledirectmember d) (tb_membertension d) (tb_roletension d)
        (tb_timeline d) (tb_roleevent d))
  | vertexClassAccountability => Some (λ t d,
      mkDB (tb_role d) (tb_domain d) t (tb_roleadditionalcontent d)
        (tb_member d) (tb_memberavatar d) (tb_tension d) (tb_rolerole d)
        (tb_roledomain d) (tb_roleaccountability d) (tb_rolemember d)
        (tb_circledirectmember d) (tb_membertension d) (tb_roletension d)
        (tb_timeline d) (tb_roleevent d))
  | vertexClassRoleAdditionalContent => Some (λ t d,
      mkDB (tb_role d) (tb_domain d) (tb_accountability d) t
        (tb_member d) (tb_memberavatar d) (tb_tension d) (tb_rolerole d)
        (tb_roledomain d) (tb_roleaccountability d) (tb_rolemember d)
        (tb_circledirectmember d) (tb_membertension d) (tb_roletension d)
        (tb_timeline d) (tb_roleevent d))
  | vertexClassMember => Some (λ t d,
      mkDB (tb_role d) (tb_domain d) (tb_accountability d) (tb_roleadditionalcontent d)
        t (tb_memberavatar d) (tb_tension d) (tb_rolerole d)
        (tb_roledomain d) (tb_roleaccountability d) (tb_rolemember d)
        (tb_circledirectmember d) (tb_membertension d) (tb_roletension d)
        (tb_timeline d) (tb_roleevent d))
  | vertexClassMemberAvatar => Some (λ t d,
      mkDB (tb_role d) (tb_domain d) (tb_accountability d) (tb_roleadditionalcontent d)
        (tb_member d) t (tb_tension d) (tb_rolerole d)
        (tb_roledomain d) (tb_roleaccountability d) (tb_rolemember d)
        (tb_circledirectmember d) (tb_membertension d) (tb_roletension d)
        (tb_timeline d) (tb_roleevent d))
  | vertexClassTension => Some (λ t d,
      mkDB (tb_role d) (tb_domain d) (tb_accountability d) (tb_roleadditionalcontent d)
        (tb_member d) (tb_memberavatar d) t (tb_rolerole d)
        (tb_roledomain d) (tb_roleaccountability d) (tb_rolemember d)
        (tb_circledirectmember d) (tb_membertension d) (tb_roletension d)
        (tb_timeline d) (tb_roleevent d))
  | vertexClassRoleMemberEdge | vertexClassMemberRoleEdge => None
  end.

Definition setETable (ec : edgeClass) : list (Edge (eattrsOf ec)) → DB → DB :=
  match ec with
  | edgeClassRoleRole => λ t d,
      mkDB (tb_role d) (tb_domain d) (tb_accountability d) (tb_roleadditionalcontent d)
        (tb_member d) (tb_memberavatar d) (tb_tension d) t
        (tb_roledomain d) (tb_roleaccountability d) (tb_rolemember d)
        (tb_circledirectmember d) (tb_membertension d) (tb_roletension d)
        (tb_timeline d) (tb_roleevent d)
  | edgeClassRoleDomain => λ t d,
      mkDB (tb_role d) (tb_domain d) (tb_accountability d) (tb_roleadditionalcontent d)
        (tb_member d) (tb_memberavatar d) (tb_tension d) (tb_rolerole d)
        t (tb_roleaccountability d) (tb_rolemember d)
        (tb_circledirectmember d) (tb_membertension d) (tb_roletension d)
        (tb_timeline d) (tb_roleevent d)
  | edgeClassRoleAccountability => λ t d,
      mkDB (tb_role d) (tb_domain d) (tb_accountability d) (tb_roleadditionalcontent d)
        (tb_member d) (tb_memberavatar d) (tb_tension d) (tb_rolerole d)
        (tb_roledomain d) t (tb_rolemember d)
        (tb_circledirectmember d) (tb_membertension d) (tb_roletension d)
        (tb_timeline d) (tb_roleevent d)
  | edgeClassRoleMember => λ t d,
      mkDB (tb_role d) (tb_domain d) (tb_accountability d) (tb_roleadditionalcontent d)
        (tb_member d) (tb_memberavatar d) (tb_tension d) (tb_rolerole d)
        (tb_roledomain d) (tb_roleaccountability d) t
        (tb_circledirectmember d) (tb_membertension d) (tb_roletension d)
        (tb_timeline d) (tb_roleevent d)
  | edgeClassCircleDirectMember => λ t d,
      mkDB (tb_role d) (tb_domain d) (tb_accountability d) (tb_roleadditionalcontent d)
        (tb_member d) (tb_memberavatar d) (tb_tension d) (tb_rolerole d)
        (tb_roledomain d) (tb_roleaccountability d) (tb_rolemember d)
        t (tb_membertension d) (tb_roletension d)
        (tb_timeline d) (tb_roleevent d)
  | edgeClassMemberTension => λ t d,
      mkDB (tb_role d) (tb_domain d) (tb_accountability d) (tb_roleadditionalcontent d)
        (tb_member d) (tb_memberavatar d) (tb_tension d) (tb_rolerole d)
        (tb_roledomain d) (tb_roleaccountability d) (tb_rolemember d)
        (tb_circledirectmember d) t (tb_roletension d)
        (tb_timeline d) (tb_roleevent d)
  | edgeClassRoleTension => λ t d,
      mkDB (tb_role d) (tb_domain d) (tb_accountability d) (tb_roleadditionalcontent d)
        (tb_member d) (tb_memberavatar d) (tb_tension d) (tb_rolerole d)
        (tb_roledomain d) (tb_roleaccountability d) (tb_rolemember d)
        (tb_circledirectmember d) (tb_membertension d) t
        (tb_timeline d) (tb_roleevent d)
  end.

(** The writers of the tables [role] and [rolerole]. *)
Definition setRoleTable (t : list Role) (d : DB) : DB :=
  mkDB t (tb_domain d) (tb_accountability d) (tb_roleadditionalcontent d)
    (tb_member d) (tb_memberavatar d) (tb_tension d) (tb_rolerole d)
    (tb_roledomain d) (tb_roleaccountability d) (tb_rolemember d)
    (tb_circledirectmember d) (tb_membertension d) (tb_roletension d)
    (tb_timeline d) (tb_roleevent d).

Definition setRoleRoleTable (t : list (Edge unit)) (d : DB) : DB :=
  mkDB (tb_role d) (tb_domain d) (tb_accountability d) (tb_roleadditionalcontent d)
    (tb_member d) (tb_memberavatar d) (tb_tension d) t
    (tb_roledomain d) (tb_roleaccountability d) (tb_rolemember d)
    (tb_circledirectmember d) (tb_membertension d) (tb_roletension d)
    (tb_timeline d) (tb_roleevent d).

Definition setTimeline (t : list TimeLineRow) (d : DB) : DB :=
  mkDB (tb_role d) (tb_domain d) (tb_accountability d) (tb_roleadditionalcontent d)
    (tb_member d) (tb_memberavatar d) (tb_tension d) (tb_rolerole d)
    (tb_roledomain d) (tb_roleaccountability d) (tb_rolemember d)
    (tb_circledirectmember d) (tb_membertension d) (tb_roletension d)
    t (tb_roleevent d).

Definition setRoleEvents (t : list RoleEvent) (d : DB) : DB :=
  mkDB (tb_role d) (tb_domain d) (tb_accountability d) (tb_roleadditionalcontent d)
    (tb_member d) (tb_memberavatar d) (tb_tension d) (tb_rolerole d)
    (tb_roledomain d) (tb_roleaccountability d) (tb_rolemember d)
    (tb_circledirectmember d) (tb_membertension d) (tb_roletension d)
    (tb_timeline d) t.

(** ** The service and its monad

    [DBService], readdb.go:1311.  [stmts] counts the statements sent to
    the store through [tx.Query], [tx.QueryRow] and [tx.Exec]. *)
Record DBService := mkDBService {
  tx : DB;
  forcedAdminMemberUserName : string;
  curTl : TimeLineNumber;
  stmts : nat
}.

Inductive result (A : Type) :=
  | Ok (a : A)
  | Err (msg : string)
  | Panic (msg : string)
  | OutOfFuel.
Arguments Ok {A} _.
Arguments Err {A} _.
Arguments Panic {A} _.
Arguments OutOfFuel {A}.

Definition M (A : Type) : Type := DBService → result A * DBService.

Definition ret {A} (a : A) : M A := λ s, (Ok a, s).
Definition raise {A} (msg : string) : M A := λ s, (Err msg, s).
Definition panic {A} (msg : string) : M A := λ s, (Panic msg, s).

Definition bind {A B} (m : M A) (k : A → M B) : M B := λ s,
  match m s with
  | (Ok a, s') => k a s'
  | (Err e, s') => (Err e, s')
  | (Panic p, s') => (Panic p, s')
  | (OutOfFuel, s') => (OutOfFuel, s')
  end.

Notation "'let*' x := m 'in' k" := (bind m (λ x, k))
  (at level 10, x pattern, m at level 100, k at level 200,
   format "'[v' 'let*'  x  :=  m  'in'  '/' k ']'").

(** The service after one more statement. *)
Definition tick (s : DBService) : DBService :=
  mkDBService (tx s) (forcedAdminMemberUserName s) (curTl s) (S (stmts s)).

Definition withTx (d : DB) (s : DBService) : DBService :=
  mkDBService d (forcedAdminMemberUserName s) (curTl s) (stmts s).

(** One statement that reads the store. *)
Definition query {A} (q : DBService → A) : M A := λ s, (Ok (q s), tick s).

(** One statement that writes the store. *)
Definition exec (u : DBService → DB) : M unit := λ s, (Ok tt, tick (withTx (u s) s)).

(** A computation that never ends in a panic. *)
Definition no_panic {A} (m : M A) : Prop := ∀ s p, (m s).1 ≠ Panic p.

(** The messages of the panics and errors the properties name. *)
Definition wrongTlSequence : string := "wrong tl sequence".
Definition unknownVertexClass : string := "unknown vertex class".
Definition nilDereference : string := "invalid memory address or nil pointer dereference".
Definition sliceOutOfRange : string := "slice bounds out of range".

(** ** Generic readers *)

(** ORDER BY on string columns, compared by code point. *)
Fixpoint keysLe {A} (keys : list (A → string)) (a b : A) : bool :=
  match keys with
  | [] => true
  | k :: keys =>
    match String.compare (k a) (k b) with
    | Lt => true
    | Gt => false
    | Eq => keysLe keys a b
    end
  end.

Definition orderBy {A} (keys : list (A → string)) (rows : list A) : list A :=
  match keys with
  | [] => rows
  | _ => merge_sort (λ a b, Is_true (keysLe keys a b)) rows
  end.

(** LIMIT; a limit of 0 is "no limit" in squirrel's callers here. *)
Definition applyLimit {A} (limit : Z) (rows : list A) : list A :=
  if decide (limit = 0) then rows else take (Z.to_nat limit) rows.

Definition whereCond {A} (condition : option (A → sqlbool)) (r : A) : bool :=
  match condition with
  | None => true
  | Some c => holds (c r)
  end.

(** [DBService.vertices], readdb.go:255-326. *)
Definition vertices (tl : TimeLineNumber) (vc : vertexClass) (limit : Z)
    (condition : option (Vertex (attrsOf vc) → sqlbool))
    (orderBys : list (Vertex (attrsOf vc) → string)) :
    M (list (Vertex (attrsOf vc))) :=
  if decide (tl ≤ 0) then panic wrongTlSequence
  else match tableOf vc with
  | None => raise unknownVertexClass
  | Some table =>
    query (λ s,
      applyLimit limit
        (orderBy orderBys
          (filter (λ r, holds (timeLineCond (curTl s) tl r) && whereCond condition r)
                  (table (tx s)))))
  end.

(** The neighbour side of an edge class in a direction: with
    [edgeDirectionOut] the sources are at [x] and the neighbours at
    [y]. *)
Definition neighbour (ec : edgeClass) (direction : edgeDirection) : vertexClass :=
  match direction with
  | edgeDirectionOut => ecY ec
  | edgeDirectionIn => ecX ec
  end.

Definition startEdgePoint {B} (direction : edgeDirection) (e : Edge B) : ID :=
  match direction with
  | edgeDirectionOut => e_x e
  | edgeDirectionIn => e_y e
  end.

Definition endEdgePoint {B} (direction : edgeDirection) (e : Edge B) : ID :=
  match direction with
  | edgeDirectionOut => e_y e
  | edgeDirectionIn => e_x e
  end.

(** The rows of [vertex JOIN edge ON vertex.id = edge.<point>] that
    satisfy [keep], vertex rows in the outer loop. *)
Definition joinRows {A B} (vt : list (Vertex A)) (et : list (Edge B))
    (point : Edge B → ID) (keep : Vertex A → Edge B → bool) :
    list (Vertex A * Edge B) :=
  v ← vt; e ← et;
  if bool_decide (v_id v = point e) && keep v e then [(v, e)] else [].

(** The [scan...Groups] functions (readdb.go:783 and the like):
    [groups[group] = append(groups[group], r)] for each row. *)
Definition scanGroups {A} (rows : list (ID * A)) : gmap ID (list A) :=
  foldl (λ groups gr, <[gr.1 := default [] (groups !! gr.1) ++ [gr.2]]> groups) ∅ rows.

(** The error, if any, of scanning the rows of a [connectedVertices]
    query into the requested output class: the default branch of the switch at
    readdb.go:412, the edge columns of [rolemember] and a neighbour
    class that is not the one scanned for. *)
Definition outputScans (ec : edgeClass) (vc out : vertexClass) : option string :=
  match out with
  | vertexClassRoleAdditionalContent | vertexClassMemberRoleEdge =>
    Some unknownVertexClass
  | vertexClassRoleMemberEdge =>
    if decide (ec = edgeClassRoleMember) then None else Some "failed to execute query"%string
  | _ => if decide (out = vc) then None else Some "failed to scan rows"%string
  end.

(** [DBService.connectedVertices], readdb.go:328-442.  An element of a
    group is the neighbour row together with the edge row it was joined
    with; [orderBys] is accepted and, as in the source, never used. *)
Definition connectedVertices (tl : TimeLineNumber) (vertexID : list ID)
    (ec : edgeClass) (direction : edgeDirection)
    (outputVertexClass : option vertexClass)
    (condition : option (Vertex (attrsOf (neighbour ec direction)) → sqlbool))
    (orderBys : list string) :
    M (gmap ID (list (Vertex (attrsOf (neighbour ec direction)) * Edge (eattrsOf ec)))) :=
  if decide (tl ≤ 0) then panic wrongTlSequence
  else match tableOf (neighbour ec direction) with
  | None => panic "unknown edgeClass"
  | Some table =>
    let out := default (neighbour ec direction) outputVertexClass in
    let* rows := query (λ s,
      joinRows (table (tx s)) (etableOf ec (tx s)) (endEdgePoint direction)
        (λ v e, bool_decide (startEdgePoint direction e ∈ vertexID)
                && holds (timeLineCond (curTl s) tl v)
                && holds (timeLineCond (curTl s) tl e)
                && whereCond condition v)) in
    match outputScans ec (neighbour ec direction) out with
    | None => ret (scanGroups ((λ ve, (startEdgePoint direction ve.2, ve)) <$> rows))
    | Some e => raise e
    end
  end.

(** The classes of the first switch of [verticesFiltered]. *)
Definition filteredClass (vc : vertexClass) : bool :=
  match vc with
  | vertexClassRole | vertexClassDomain | vertexClassAccountability
  | vertexClassMember | vertexClassTension => true
  | _ => false
  end.

(** [DBService.verticesFiltered], readdb.go:444-518.  The query selects
    one column more than the plain [scan...] functions read, so a
    non-empty answer fails to scan. *)
Definition verticesFiltered (tl : TimeLineNumber) (vc : vertexClass)
    (ec : edgeClass) (direction : edgeDirection) (endEdgeID : list ID)
    (condition : option (Vertex (attrsOf vc) → sqlbool)) :
    M (list (Vertex (attrsOf vc))) :=
  if decide (tl ≤ 0) then panic wrongTlSequence
  else match (if filteredClass vc then tableOf vc else None) with
  | None => raise unknownVertexClass
  | Some table =>
    let* rows := query (λ s,
      joinRows (table (tx s)) (etableOf ec (tx s)) (startEdgePoint direction)
        (λ v e, bool_decide (endEdgePoint direction e ∈ endEdgeID)
                && holds (timeLineCond (curTl s) tl v)
                && holds (timeLineCond (curTl s) tl e)
                && whereCond condition v)) in
    match rows with
    | [] => ret []
    | _ => raise "failed to scan rows"
    end
  end.

(** One endpoint of one edge class in [CheckBrokenEdges]: the two
    counting queries of readdb.go:544-582. *)
Definition checkEndpoint (tl : TimeLineNumber) (ec : edgeClass)
    (vc : vertexClass) (point : Edge (eattrsOf ec) → ID) : M unit :=
  let* edgeCount := query (λ s,
    length (filter (λ e, holds (timeLineCond (curTl s) tl e)) (etableOf ec (tx s)))) in
  match tableOf vc with
  | None => raise "failed to execute query"
  | Some table =>
    let* count := query (λ s,
      length (joinRows (table (tx s)) (etableOf ec (tx s)) point
        (λ v e, holds (timeLineCond (curTl s) tl e)
                && holds (timeLineCond (curTl s) tl v)))) in
    if decide (count = edgeCount) then ret tt
    else raise "There're broken edges"
  end.

Fixpoint checkEdgeClasses (tl : TimeLineNumber) (ecs : list edgeClass) : M unit :=
  match ecs with
  | [] => ret tt
  | ec :: ecs =>
    let* _ := checkEndpoint tl ec (ecX ec) e_x in
    let* _ := checkEndpoint tl ec (ecY ec) e_y in
    checkEdgeClasses tl ecs
  end.

(** [DBService.CheckBrokenEdges], readdb.go:520-590. *)
Definition CheckBrokenEdges (tl : TimeLineNumber) : M unit :=
  if decide (tl ≤ 0) then panic wrongTlSequence
  else checkEdgeClasses tl edgeClasses.

(** ** Generic writers *)

(** [DBService.insertVertex], readdb.go:593-613: the row
    [(id, tl, NULL, columns of the class)]. *)
Definition insertVertex (tl : TimeLineNumber) (vc : vertexClass) (id : ID)
    (vertex : attrsOf vc) : M unit :=
  match tableOf vc, setTable vc with
  | Some table, Some set =>
    exec (λ s, set (table (tx s) ++ [mkVertex id tl None vertex]) (tx s))
  | _, _ => raise unknownVertexClass
  end.

(** The rows of an UPDATE that sets [end_tl] where [sel] holds. *)
Definition closeRows `{Temporal R} (endtl : TimeLineNumber) (sel : R → bool)
    (rows : list R) : list R :=
  (λ r, if sel r then set_end_tl endtl r else r) <$> rows.

(** [DBService.closeVertex], readdb.go:618-632. *)
Definition closeVertex (endtl : TimeLineNumber) (vc : vertexClass) (id : ID) : M unit :=
  match tableOf vc, setTable vc with
  | Some table, Some set =>
    exec (λ s,
      set (closeRows endtl
             (λ r, bool_decide (v_id r = id) && holds (lastTimeLineCond (curTl s) endtl r))
             (table (tx s)))
          (tx s))
  | _, _ => raise "failed to execute query"
  end.

(** [DBService.newVertex], readdb.go:635-641. *)
Definition newVertex (tl : TimeLineNumber) (id : ID) (vc : vertexClass)
    (vertex : attrsOf vc) : M unit :=
  insertVertex tl vc id vertex.

(** [DBService.updateVertex], readdb.go:643-651. *)
Definition updateVertex (tl : TimeLineNumber) (vc : vertexClass) (id : ID)
    (vertex : attrsOf vc) : M unit :=
  let* _ := closeVertex (int64 (tl - 1)) vc id in
  insertVertex tl vc id vertex.

(** [DBService.deleteVertex], readdb.go:657-685; the cascade on edges
    is commented out in the source. *)
Definition deleteVertex (tl : TimeLineNumber) (vc : vertexClass) (id : ID) : M unit :=
  let endtl := int64 (tl - 1) in
  closeVertex endtl vc id.

(** [DBService.closeEdge], readdb.go:689-703. *)
Definition closeEdge (endtl : TimeLineNumber) (ec : edgeClass) (x y : ID) : M unit :=
  exec (λ s,
    setETable ec
      (closeRows endtl
         (λ e, bool_decide (e_x e = x) && bool_decide (e_y e = y)
               && holds (lastTimeLineCond (curTl s) endtl e))
         (etableOf ec (tx s)))
      (tx s)).

(** [DBService.deleteEdge], readdb.go:707-709. *)
Definition deleteEdge (tl : TimeLineNumber) (ec : edgeClass) (x y : ID) : M unit :=
  closeEdge (int64 (tl - 1)) ec x y.

(** [DBService.addEdge], readdb.go:711-734: the row
    [(tl, NULL, x, y, values...)]. *)
Definition addEdge (tl : TimeLineNumber) (ec : edgeClass) (x y : ID)
    (values : eattrsOf ec) : M unit :=
  exec (λ s, setETable ec (etableOf ec (tx s) ++ [mkEdge tl None x y values]) (tx s)).

(** ** Named queries *)

(** [DBService.RootRoleInternal], readdb.go:1447-1461. *)
Definition RootRoleInternal (tl : TimeLineNumber) : M (option Role) :=
  let* roles := vertices tl vertexClassRole 0
                  (Some (λ r, sqEq (Some (Depth (v_attrs r))) 0)) [] in
  if decide (length roles = 0%nat) then ret None
  else if decide (1 < length roles)%nat
  then raise "too many root roles. This shouldn't happen!"
  else ret (head roles).

(** [DBService.RootRole], readdb.go:1463-1465. *)
Definition RootRole (tl : TimeLineNumber) : M (option Role) := RootRoleInternal tl.

(** [DBService.RoleInternal], readdb.go:1467-1481. *)
Definition RoleInternal (tl : TimeLineNumber) (id : ID) : M (option Role) :=
  let* roles := vertices tl vertexClassRole 0 (Some (λ r, sqEq (Some (v_id r)) id)) [] in
  ret (head roles).

(** The neighbour rows of the groups, without the edge rows. *)
Definition neighbours {A B} (groups : gmap ID (list (A * B))) : gmap ID (list A) :=
  fmap (M:=gmap ID) (fmap (M:=list) fst) groups.

(** [DBService.ChildRolesInternal], readdb.go:1509-1516. *)
Definition ChildRolesInternal (tl : TimeLineNumber) (rolesIDs : list ID)
    (orderBys : list string) : M (gmap ID (list Role)) :=
  let* vs := connectedVertices tl rolesIDs edgeClassRoleRole edgeDirectionOut
               None None orderBys in
  ret (neighbours (A:=Role) (B:=Edge unit) vs).

(** [DBService.ChildRoles], readdb.go:1518-1524. *)
Definition ChildRoles (tl : TimeLineNumber) (rolesIDs : list ID) :
    M (gmap ID (list Role)) :=
  ChildRolesInternal tl rolesIDs ["role.name"%string].

(** [rg[k] = v[0]] for every group, as in [RoleParentInternal]. *)
Definition firstOfGroups {A} (groups : gmap ID (list A)) : gmap ID A :=
  omap head groups.

(** [DBService.RoleParentInternal], readdb.go:2051-2065. *)
Definition RoleParentInternal (tl : TimeLineNumber) (rolesIDs : list ID) :
    M (gmap ID Role) :=
  let* vs := connectedVertices tl rolesIDs edgeClassRoleRole edgeDirectionIn
               None None [] in
  ret (firstOfGroups (neighbours (A:=Role) (B:=Edge unit) vs)).

(** [models.RoleMemberEdge]: the member joined with the edge columns. *)
Record RoleMemberEdge := mkRoleMemberEdge {
  rme_Member : Member;
  rme_Focus : option string;
  rme_NoCoreMember : bool;
  rme_ElectionExpiration : option Z
}.

(** [DBService.RoleMemberEdgesInternal], readdb.go:2267-2274. *)
Definition RoleMemberEdgesInternal (tl : TimeLineNumber) (rolesIDs : list ID)
    (orderBys : list string) : M (gmap ID (list RoleMemberEdge)) :=
  let* vs := connectedVertices tl rolesIDs edgeClassRoleMember edgeDirectionIn
               (Some vertexClassRoleMemberEdge) None [] in
  ret (fmap (M:=gmap ID)
         (fmap (M:=list) (λ ve : Member * Edge RoleMemberAttrs,
            mkRoleMemberEdge ve.1 (Focus (e_attrs ve.2))
              (NoCoreMember (e_attrs ve.2))
              (ElectionExpiration (e_attrs ve.2)))) vs).

(** [DBService.MemberInternal], readdb.go:1614-1624. *)
Definition MemberInternal (tl : TimeLineNumber) (id : ID) : M (option Member) :=
  let* members := vertices tl vertexClassMember 0
                    (Some (λ r, sqEq (Some (v_id r)) id)) [] in
  ret (head members).

(** [DBService.MemberTensionsInternal], readdb.go:1947-1953. *)
Definition MemberTensionsInternal (tl : TimeLineNumber) (membersIDs : list ID) :
    M (gmap ID (list Tension)) :=
  let* vs := connectedVertices tl membersIDs edgeClassMemberTension edgeDirectionIn
               None None [] in
  ret (neighbours (A:=Tension) (B:=Edge unit) vs).

(** The request context: what [ctx.Value("userid")] and
    [uuid.FromString] make of it. *)
Inductive Context :=
  | ctxNoUserID
  | ctxMalformedUserID
  | ctxUserID (userid : ID).

Definition setIsAdmin (m : Member) : Member :=
  mkVertex (v_id m) (v_start_tl m) (v_end_tl m)
    (mkMember true (UserName (v_attrs m)) (FullName (v_attrs m)) (Email (v_attrs m))).

(** [DBService.CallingMemberInternal], readdb.go:2442-2468. *)
Definition CallingMemberInternal (ctx : Context) (curTl_ : TimeLineNumber) : M Member :=
  match ctx with
  | ctxNoUserID => raise "empty userid"
  | ctxMalformedUserID => raise "uuid: incorrect UUID"
  | ctxUserID userid =>
    let* member := MemberInternal curTl_ userid in
    match member with
    | None => raise "unexistent member"
    | Some member => λ s,
      if decide (forcedAdminMemberUserName s = UserName (v_attrs member))
      then (Ok (setIsAdmin member), s)
      else (Ok member, s)
    end
  end.

(** The loop of [MemberTensions], readdb.go:1962-1967: [true] when
    control leaves the loop (by [break] or because the slice is
    exhausted), [false] when the loop returns [nil, nil]. *)
Definition memberItself (memberID : ID) (membersIDs : list ID) : bool :=
  match membersIDs with
  | [] => true
  | id :: rest => if decide (memberID = id) then true else false
  end.

(** [DBService.MemberTensions], readdb.go:1955-1975; [None] is the nil
    map. *)
Definition MemberTensions (ctx : Context) (tl : TimeLineNumber)
    (membersIDs : list ID) : M (option (gmap ID (list Tension))) :=
  let* member := CallingMemberInternal ctx tl in
  if memberItself (v_id member) membersIDs then
    let* tensionsGroups := MemberTensionsInternal tl membersIDs in
    ret (Some tensionsGroups)
  else ret None.

(** [DBService.memberIsLeadLink], readdb.go:2481-2510. *)
Definition memberIsLeadLink (curTl_ : TimeLineNumber) (memberID roleID : ID) : M bool :=
  let* childsGroups := ChildRolesInternal curTl_ [roleID] [] in
  let childs := default [] (childsGroups !! roleID) in
  match head (filter (λ child : Role, RoleType_ (v_attrs child) = RoleTypeLeadLink) childs) with
  | None => ret false
  | Some leadLinkRole =>
    let* roleMemberEdgesGroups := RoleMemberEdgesInternal curTl_ [v_id leadLinkRole] [] in
    let roleMemberEdges := default [] (roleMemberEdgesGroups !! v_id leadLinkRole) in
    match roleMemberEdges with
    | [] => ret false
    | edge :: _ => ret (bool_decide (v_id (rme_Member edge) = memberID))
    end
  end.

(** [models.MemberCirclePermissions]. *)
Record MemberCirclePermissions_ := mkPermissions {
  AssignChildCircleLeadLink : bool;
  AssignCircleCoreRoles : bool;
  AssignChildRoleMembers : bool;
  AssignCircleDirectMembers : bool;
  ManageChildRoles : bool;
  ManageRoleAdditionalContent : bool;
  AssignRootCircleLeadLink : bool;
  ManageRootCircle : bool
}.

(** [DBService.MemberCirclePermissions], readdb.go:2513-2585; [None]
    is the nil pointer returned for a role that is not a circle. *)
Definition MemberCirclePermissions (ctx : Context) (tl : TimeLineNumber)
    (roleID : ID) : M (option MemberCirclePermissions_) :=
  let* callingMember := CallingMemberInternal ctx tl in
  let* role := RoleInternal tl roleID in
  match role with
  | None => raise "role doesn't exist"
  | Some role =>
    if decide (RoleType_ (v_attrs role) ≠ RoleTypeCircle) then ret None
    else
      let* proleGroups := RoleParentInternal tl [roleID] in
      let prole := proleGroups !! v_id role in
      let* isLeadLink := memberIsLeadLink tl (v_id callingMember) roleID in
      let grant := IsAdmin (v_attrs callingMember) || isLeadLink in
      let root := match prole with None => grant | Some _ => false end in
      ret (Some (mkPermissions grant grant grant grant grant grant root root))
  end.

(** ** The role event feed *)

(** [DBService.RoleEventsByTypeInternal], readdb.go:1526-1549. *)
Definition RoleEventsByTypeInternal (roleID : ID) (tl : TimeLineNumber)
    (eventType : RoleEventType) : M (list RoleEvent) :=
  query (λ s,
    filter (λ e, re_RoleID e = roleID ∧ re_TimeLineID e = tl ∧ re_EventType e = eventType)
           (tb_roleevent (tx s))).

(** ORDER BY timeline DESC. *)
Definition timelineDesc (a b : RoleEvent) : Prop := re_TimeLineID b ≤ re_TimeLineID a.

#[export] Instance timelineDesc_dec : RelDecision timelineDesc.
Proof. intros a b. unfold timelineDesc. apply _. Defined.

(** [DBService.RoleEventsInternal], readdb.go:1555-1594. *)
Definition RoleEventsInternal (roleID : ID) (first : Z)
    (start after : TimeLineNumber) : M (list RoleEvent) :=
  let condition : option (RoleEvent → sqlbool) :=
    if decide (start ≠ 0) then Some (λ e, sqLtOrEq (Some (re_TimeLineID e)) start)
    else None in
  let condition :=
    if decide (after ≠ 0) then Some (λ e, sqLt (Some (re_TimeLineID e)) after)
    else condition in
  query (λ s,
    (if decide (first ≠ 0) then take (Z.to_nat (uint64 first)) else id)
      (merge_sort timelineDesc
        (filter (λ e, bool_decide (re_RoleID e = roleID) && whereCond condition e)
                (tb_roleevent (tx s))))).

(** [roleEvents[:size]]: slicing panics when [size] is out of range. *)
Definition sliceTo {A} (l : list A) (size : Z) : M (list A) :=
  if decide (0 ≤ size ≤ Z.of_nat (length l)) then ret (take (Z.to_nat size) l)
  else panic sliceOutOfRange.

(** [DBService.RoleEvents], readdb.go:1595-1611. *)
Definition RoleEvents (roleID : ID) (first : Z) (start after : TimeLineNumber) :
    M (list RoleEvent * bool) :=
  let first := if decide (first = 0) then MaxFetchSize else first in
  let* roleEvents := RoleEventsInternal roleID (int64 (first + 1)) start after in
  let size := if decide (first < Z.of_nat (length roleEvents)) then first
              else Z.of_nat (length roleEvents) in
  let* page := sliceTo roleEvents size in
  ret (page, bool_decide (first < Z.of_nat (length roleEvents))).

(** ** Vocabulary of the properties *)

(** The role rows with [depth = 0] that are live at [tl] (section 3.4). *)
Definition rootRolesLiveAt (s : DBService) (tl : TimeLineNumber) : list Role :=
  filter (λ r : Role, live_at tl r ∧ Depth (v_attrs r) = 0) (tb_role (tx s)).

(** No row of the class of [vc] with this [id] satisfies the
    last-timeline predicate of [endtl]. *)
Definition noOpenVertex (s : DBService) (endtl : TimeLineNumber)
    (vc : vertexClass) (id : ID) : Prop :=
  match tableOf vc with
  | None => False
  | Some table =>
    ∀ r, r ∈ table (tx s) → v_id r = id →
         holds (lastTimeLineCond (curTl s) endtl r) = false
  end.

(** No edge row of [ec] from [x] to [y] satisfies the last-timeline
    predicate of [endtl]. *)
Definition noOpenEdge (s : DBService) (endtl : TimeLineNumber)
    (ec : edgeClass) (x y : ID) : Prop :=
  ∀ e, e ∈ etableOf ec (tx s) → e_x e = x → e_y e = y →
       holds (lastTimeLineCond (curTl s) endtl e) = false.

(** The effective page size of the paginated queries: [first], or
    [MaxFetchSize] when [first] is 0. *)
Definition pageSize (first : Z) : Z :=
  if decide (first = 0) then MaxFetchSize else first.

(** The events of a role within the requested bound: strictly before
    [after] when [after] is set, else up to and including [start] when
    [start] is set, else all of them. *)
Definition roleEventsInBound (s : DBService) (roleID : ID)
    (start after : TimeLineNumber) : list RoleEvent :=
  filter (λ e, re_RoleID e = roleID
               ∧ (after ≠ 0 → re_TimeLineID e < after)
               ∧ (after = 0 → start ≠ 0 → re_TimeLineID e ≤ start))
         (tb_roleevent (tx s)).

(** ** Views of the store

    What the named queries read, as functions of the service: the rows
    a query selects do not depend on the statement counter. *)

(** The rows [vertices] selects with the condition [id = ...]. *)
Definition vertexAt {A} (table : list (Vertex A)) (cur tl : TimeLineNumber)
    (id : ID) : option (Vertex A) :=
  head (filter (λ r, holds (timeLineCond cur tl r) && holds (sqEq (Some (v_id r)) id)) table).

Definition roleAt (s : DBService) (tl : TimeLineNumber) (id : ID) : option Role :=
  vertexAt (tb_role (tx s)) (curTl s) tl id.

Definition memberAt (s : DBService) (tl : TimeLineNumber) (id : ID) : option Member :=
  vertexAt (tb_member (tx s)) (curTl s) tl id.

(** The rows [connectedVertices] joins for one source [id]. *)
Definition connectedAt (s : DBService) (tl : TimeLineNumber) (id : ID)
    (ec : edgeClass) (direction : edgeDirection)
    (table : DB → list (Vertex (attrsOf (neighbour ec direction)))) :
    list (Vertex (attrsOf (neighbour ec direction)) * Edge (eattrsOf ec)) :=
  joinRows (table (tx s)) (etableOf ec (tx s)) (endEdgePoint direction)
    (λ v e, bool_decide (startEdgePoint direction e ∈ [id])
            && holds (timeLineCond (curTl s) tl v)
            && holds (timeLineCond (curTl s) tl e)
            && true).

(** The child roles of [id] at [tl], in the order of the join. *)
Definition childRolesAt (s : DBService) (tl : TimeLineNumber) (id : ID) : list Role :=
  (connectedAt s tl id edgeClassRoleRole edgeDirectionOut tb_role).*1.

(** The parent roles of [id] at [tl], in the order of the join. *)
Definition parentRolesAt (s : DBService) (tl : TimeLineNumber) (id : ID) : list Role :=
  (connectedAt s tl id edgeClassRoleRole edgeDirectionIn tb_role).*1.

(** The members assigned to the role [id] at [tl], in the order of the
    join. *)
Definition roleMembersAt (s : DBService) (tl : TimeLineNumber) (id : ID) : list Member :=
  (connectedAt s tl id edgeClassRoleMember edgeDirectionIn tb_member).*1.

Definition isLeadLink (r : Role) : Prop := RoleType_ (v_attrs r) = RoleTypeLeadLink.

#[export] Instance isLeadLink_dec r : Decision (isLeadLink r).
Proof. unfold isLeadLink. apply _. Defined.

(** What [memberIsLeadLink] computes: the first lead link child of the
    circle has a first assigned member, and this one is [memberID]. *)
Definition firstLeadLinkFiller (s : DBService) (tl : TimeLineNumber)
    (memberID roleID : ID) : bool :=
  match head (filter isLeadLink (childRolesAt s tl roleID)) with
  | None => false
  | Some leadLinkRole =>
    match roleMembersAt s tl (v_id leadLinkRole) with
    | [] => false
    | m :: _ => bool_decide (v_id m = memberID)
    end
  end.

(** Section 4.6 of the specification: the unique child of the role
    with role type LeadLink has exactly one filler and that filler
    equals the member. *)
Definition fillsLeadLink (s : DBService) (tl : TimeLineNumber)
    (memberID roleID : ID) : Prop :=
  ∃ leadLinkRole m,
    filter isLeadLink (childRolesAt s tl roleID) = [leadLinkRole]
    ∧ roleMembersAt s tl (v_id leadLinkRole) = [m]
    ∧ v_id m = memberID.

(** The calling member of a request of the user [userid], with the
    forced administrator applied. *)
Definition callingMemberAt (s : DBService) (tl : TimeLineNumber)
    (userid : ID) : option Member :=
  (λ m : Member,
     if decide (forcedAdminMemberUserName s = UserName (v_attrs m))
     then setIsAdmin m else m) <$> memberAt s tl userid.

(** The permissions of a member who manages the circle, or not, and on
    a circle that is the root, or not. *)
Definition permissionsOf (grant root : bool) : MemberCirclePermissions_ :=
  mkPermissions grant grant grant grant grant grant (root && grant) (root && grant).

(** ** Example stores *)

(** Two members, and one tension raised by the second. *)
Definition twoMembersStore : DBService :=
  mkDBService
    (mkDB [] [] [] []
       [mkVertex 1%N 1 None (mkMember false "alice" "Alice" "alice@example.org");
        mkVertex 2%N 1 None (mkMember false "bob" "Bob" "bob@example.org")]
       []
       [mkVertex 10%N 1 None (mkTension "noise" "too loud" false "")]
       [] [] [] [] []
       [mkEdge 1 None 10%N 2%N tt]
       []
       [mkTimeLineRow 1 100%N "rolestree" "1"] [])
    "" 1 0.

(** A root circle 1 with the lead link role 2, to which the members 10
    and 11 are both assigned, in this order. *)
Definition twoFillersStore : DBService :=
  mkDBService
    (mkDB
       [mkVertex 1%N 1 None (mkRole RoleTypeCircle 0 "General" "");
        mkVertex 2%N 1 None (mkRole RoleTypeLeadLink 1 "Lead Link" "")]
       [] [] []
       [mkVertex 10%N 1 None (mkMember false "alice" "Alice" "alice@example.org");
        mkVertex 11%N 1 None (mkMember false "bob" "Bob" "bob@example.org")]
       [] []
       [mkEdge 1 None 1%N 2%N tt]
       [] []
       [mkEdge 1 None 10%N 2%N (mkRoleMember None false None);
        mkEdge 1 None 11%N 2%N (mkRoleMember None false None)]
       [] [] []
       [mkTimeLineRow 1 100%N "rolestree" "1"] [])
    "" 1 0.

(** Whether the role [id] has no parent at [tl]. *)
Definition isRootAt (s : DBService) (tl : TimeLineNumber) (id : ID) : bool :=
  match head (parentRolesAt s tl id) with
  | None => true
  | Some _ => false
  end.

(** ** Member search, readdb.go:1735-1772

    [Members] builds part of its condition as SQL text.  The store
    reads a string literal up to the first quote that is not doubled
    and matches LIKE patterns with the wildcards [%] and [_]. *)

(** SQL's LIKE. *)
Fixpoint likeMatch (pattern : string) : string → bool :=
  match pattern with
  | EmptyString => λ value, match value with EmptyString => true | _ => false end
  | String c pattern' =>
    if Ascii.eqb c "%" then
      fix any (value : string) : bool :=
        likeMatch pattern' value
        || match value with EmptyString => false | String _ value' => any value' end
    else if Ascii.eqb c "_" then
      λ value, match value with EmptyString => false | String _ value' => likeMatch pattern' value' end
    else
      λ value, match value with
               | EmptyString => false
               | String d value' => Ascii.eqb c d && likeMatch pattern' value'
               end
  end.

(** SQL's [lower], on ASCII letters. *)
Definition lowerAscii (c : ascii) : ascii :=
  let n := N_of_ascii c in
  if (65 <=? n)%N && (n <=? 90)%N then ascii_of_N (n + 32) else c.

Fixpoint lower (s : string) : string :=
  match s with
  | EmptyString => EmptyString
  | String c s' => String (lowerAscii c) (lower s')
  end.

(** The string literal that starts after an opening quote: its value
    and the text that follows its closing quote; a doubled quote stands
    for one quote. *)
Fixpoint sqlLiteral (text : string) : option (string * string) :=
  match text with
  | EmptyString => None
  | String c rest =>
    if Ascii.eqb c "'" then
      match rest with
      | String c' rest' =>
        if Ascii.eqb c' "'" then
          match sqlLiteral rest' with
          | Some (lit, after) => Some (String "'" lit, after)
          | None => None
          end
        else Some (EmptyString, rest)
      | EmptyString => Some (EmptyString, rest)
      end
    else
      match sqlLiteral rest with
      | Some (lit, after) => Some (String c lit, after)
      | None => None
      end
  end.

Fixpoint stripPrefix (prefix text : string) : option string :=
  match prefix, text with
  | EmptyString, _ => Some text
  | String c prefix', String d text' =>
    if Ascii.eqb c d then stripPrefix prefix' text' else None
  | String _ _, EmptyString => None
  end.

Fixpoint isPrefix (prefix text : string) : bool :=
  match prefix, text with
  | EmptyString, _ => true
  | String c prefix', String d text' => Ascii.eqb c d && isPrefix prefix' text'
  | String _ _, EmptyString => false
  end.

(** [contains text s]: [s] occurs in [text]. *)
Fixpoint contains (text s : string) : bool :=
  isPrefix s text
  || match text with
     | EmptyString => false
     | String _ text' => contains text' s
     end.

(** The conditions [MembersInternal] builds: [sq.Gt] with a bound
    argument, raw SQL text ([GenericSqlizer], readdb.go:71-75), and
    [sq.Or] and [sq.And] of two. *)
Inductive Sqlizer :=
  | sqGtArg (column : string) (arg : string)
  | GenericSqlizer (text : string)
  | sqOr2 (a b : Sqlizer)
  | sqAnd2 (a b : Sqlizer).

(** [ToSql]: the statement text and the bound arguments. *)
Fixpoint ToSql (c : Sqlizer) : string * list string :=
  match c with
  | sqGtArg column arg => (column +:+ " > ?", [arg])
  | GenericSqlizer text => (text, [])
  | sqOr2 a b =>
    ("(" +:+ (ToSql a).1 +:+ " OR " +:+ (ToSql b).1 +:+ ")", (ToSql a).2 ++ (ToSql b).2)
  | sqAnd2 a b =>
    ("(" +:+ (ToSql a).1 +:+ " AND " +:+ (ToSql b).1 +:+ ")", (ToSql a).2 ++ (ToSql b).2)
  end.

(** The text of the two LIKE conditions,
    [fmt.Sprintf(`lower(member.fullname) LIKE lower('%%%s%%')`, searchString)]
    and the same on [member.UserName]. *)
Definition likeText (column searchString : string) : string :=
  "lower(" +:+ column +:+ ") LIKE lower('%" +:+ searchString +:+ "%')".

(** How the store reads the text [lower(column) LIKE lower('...')]:
    the pattern is the literal up to its closing quote, and nothing but
    the closing parenthesis may follow. *)
Definition readLike (column text : string) : option string :=
  match stripPrefix ("lower(" +:+ column +:+ ") LIKE lower('") text with
  | Some rest =>
    match sqlLiteral rest with
    | Some (pattern, after) =>
      if String.eqb after ")" then Some pattern else None
    | None => None
    end
  | None => None
  end.

Definition memberColumn (column : string) : option (Member → string) :=
  if String.eqb column "member.fullname" then Some (λ m, FullName (v_attrs m))
  else if String.eqb column "member.UserName" then Some (λ m, UserName (v_attrs m))
  else None.

(** The meaning of a condition on member rows, when its text is one
    the store can read in the way above. *)
Fixpoint sqlizerSem (c : Sqlizer) : option (Member → sqlbool) :=
  match c with
  | sqGtArg column arg =>
    (λ col (m : Member), Some (String.ltb arg (col m))) <$> memberColumn column
  | GenericSqlizer text =>
    match readLike "member.fullname" text, readLike "member.UserName" text with
    | Some pattern, _ =>
      Some (λ m, Some (likeMatch (lower pattern) (lower (FullName (v_attrs m)))))
    | None, Some pattern =>
      Some (λ m, Some (likeMatch (lower pattern) (lower (UserName (v_attrs m)))))
    | None, None => None
    end
  | sqOr2 a b =>
    match sqlizerSem a, sqlizerSem b with
    | Some pa, Some pb => Some (λ m, sqOr (pa m) (pb m))
    | _, _ => None
    end
  | sqAnd2 a b =>
    match sqlizerSem a, sqlizerSem b with
    | Some pa, Some pb => Some (λ m, sqAnd (pa m) (pb m))
    | _, _ => None
    end
  end.

(** The condition of [MembersInternal], readdb.go:1736-1747. *)
Definition membersCondition (searchString : string) (after : option string) :
    option Sqlizer :=
  let condition := (λ a, sqGtArg "member.fullname" a) <$> after in
  if String.eqb searchString "" then condition
  else
    let likeCondition :=
      sqOr2 (GenericSqlizer (likeText "member.fullname" searchString))
            (GenericSqlizer (likeText "member.UserName" searchString)) in
    match condition with
    | None => Some likeCondition
    | Some condition => Some (sqAnd2 condition likeCondition)
    end.

(** A statement whose text the store cannot read. *)
Definition rejectedQuery {A} (tl : TimeLineNumber) : M A :=
  if decide (tl ≤ 0) then panic wrongTlSequence
  else let* _ := query (λ _, tt) in raise "failed to execute query".

(** [DBService.MembersInternal], readdb.go:1735-1756. *)
Definition MembersInternal (tl : TimeLineNumber) (searchString : string)
    (first : Z) (after : option string) : M (list Member) :=
  match membersCondition searchString after with
  | None =>
    vertices tl vertexClassMember (uint64 first) None [λ m : Member, FullName (v_attrs m)]
  | Some condition =>
    match sqlizerSem condition with
    | Some sem =>
      vertices tl vertexClassMember (uint64 first) (Some sem)
        [λ m : Member, FullName (v_attrs m)]
    | None => rejectedQuery tl
    end
  end.

(** [DBService.Members], readdb.go:1758-1772. *)
Definition Members (tl : TimeLineNumber) (searchString : string) (first : Z)
    (after : option string) : M (list Member * bool) :=
  let first := if decide (first = 0) then MaxFetchSize else first in
  let* members := MembersInternal tl searchString (int64 (first + 1)) after in
  let size := if decide (first < Z.of_nat (length members)) then first
              else Z.of_nat (length members) in
  let* page := sliceTo members size in
  ret (page, bool_decide (first < Z.of_nat (length members))).

(** One member, Abc. *)
Definition abcStore : DBService :=
  mkDBService
    (mkDB [] [] [] []
       [mkVertex 1%N 1 None (mkMember false "abc" "Abc" "abc@example.org")]
       [] [] [] [] [] [] [] [] []
       [mkTimeLineRow 1 100%N "member" "1"] [])
    "" 1 0.

(** No quote character occurs in the string. *)
Fixpoint noQuote (s : string) : bool :=
  match s with
  | EmptyString => true
  | String c s' => negb (Ascii.eqb c "'") && noQuote s'
  end.

(** ** Events

    Modelled from the spec: the packages [eventstore] and [commands]
    are not part of the sources; the fields are those [ApplyEvent]
    reads.  Of the event types of section 4.5.1 the role events and the
    two command events are embedded; events of the other types do not
    touch the tables [role], [rolerole] and [roleevent]. *)

Inductive CommandType :=
  | CommandTypeCircleCreateChildRole
  | CommandTypeCircleUpdateChildRole
  | CommandTypeCircleDeleteChildRole
  | CommandTypeOther.

(** A command: its type, its issuer and the [RoleID] of its data, the
    circle on which a child role is created, updated or deleted. *)
Record Command := mkCommand {
  CommandType_ : CommandType;
  cmd_IssuerID : ID;
  cmd_RoleID : ID
}.

Inductive EventData :=
  | EventCommandExecuted (command : Command)
  | EventCommandExecutionFinished
  | EventRoleCreated (RoleID : ID) (roleType : RoleType) (name purpose : string)
      (ParentRoleID : option ID)
  | EventRoleDeleted (RoleID : ID)
  | EventRoleUpdated (RoleID : ID) (roleType : RoleType) (name purpose : string)
  | EventRoleChangedParent (RoleID : ID) (ParentRoleID : option ID).

Record Event := mkEvent {
  ev_ID : ID;
  ev_GroupID : option ID;
  ev_Timestamp : TimeLineNumber;
  ev_AggregateType : string;
  ev_AggregateID : string;
  ev_Data : EventData
}.

(** ** Timelines *)

(** [DBService.TimeLineForGroupID], readdb.go:1381-1393. *)
Definition TimeLineForGroupID (groupID : ID) : M (option TimeLineNumber) :=
  query (λ s,
    tlr_timestamp <$> head (filter (λ r, tlr_groupid r = groupID) (tb_timeline (tx s)))).

(** [DBService.curTimeLineFromDB], readdb.go:1340-1353: the greatest
    timestamp, the zero timeline when there is none. *)
Definition curTimeLineFromDB : M TimeLineNumber :=
  query (λ s, foldr Z.max 0 (tlr_timestamp <$> tb_timeline (tx s))).

Definition setCurTl (tl : TimeLineNumber) : M unit := λ s,
  (Ok tt, mkDBService (tx s) (forcedAdminMemberUserName s) tl (stmts s)).

(** ** Role events of a circle *)

(** [DBService.insertRoleEvent], readdb.go:1287-1309: delete the row
    with the id of the event, then insert the event. *)
Definition insertRoleEvent (roleEvent : RoleEvent) : M unit :=
  let* _ := exec (λ s,
    setRoleEvents (filter (λ e, re_ID e ≠ re_ID roleEvent) (tb_roleevent (tx s))) (tx s)) in
  exec (λ s, setRoleEvents (tb_roleevent (tx s) ++ [roleEvent]) (tx s)).

(** [DBService.getCircleChangesAppliedRoleEvent], readdb.go:3328-3340. *)
Definition getCircleChangesAppliedRoleEvent (timeLine : TimeLineNumber)
    (roleID : ID) : M (option RoleEvent) :=
  let* roleEvents := RoleEventsByTypeInternal roleID timeLine
                       RoleEventTypeCircleChangesApplied in
  if decide (1 < length roleEvents)%nat then
    panic "only max 1 event of kind RoleEventTypeCircleChangesApplied can exist for a role at a specific timeline"
  else ret (head roleEvents).

Definition withChangedRoles (changedRoles : gmap ID RoleChange)
    (d : RoleEventCircleChangesApplied) : RoleEventCircleChangesApplied :=
  mkCircleChangesApplied changedRoles (RolesToCircle d) (RolesFromCircle d) (IssuerID d).

Definition withData (d : RoleEventCircleChangesApplied) (e : RoleEvent) : RoleEvent :=
  mkRoleEvent (re_TimeLineID e) (re_ID e) (re_RoleID e) (re_EventType e) d.

Definition withChangeType (t : ChangeType) (c : RoleChange) : RoleChange :=
  mkRoleChange t (Moved c) (RolesMovedToParent c) (RolesMovedFromParent c).

Definition withMoved (m : RoleParentChange) (c : RoleChange) : RoleChange :=
  mkRoleChange (ChangeType_ c) (Some m) (RolesMovedToParent c) (RolesMovedFromParent c).

Definition roleChangeOf (t : ChangeType) : RoleChange := mkRoleChange t None [] [].

(** ** The event applier: graph mutations *)

Definition withDepth (depth : Z) (a : RoleAttrs) : RoleAttrs :=
  mkRole (RoleType_ a) depth (Name a) (Purpose a).

(** A loop over a slice whose body may fail. *)
Fixpoint forEach {A} (l : list A) (body : A → M unit) : M unit :=
  match l with
  | [] => ret tt
  | a :: l => let* _ := body a in forEach l body
  end.

(** [DBService.updateChildsDepth], readdb.go:3414-3432. *)
Fixpoint updateChildsDepth (fuel : nat) (tl : TimeLineNumber) (pdepth : Z)
    (roleID : ID) : M unit :=
  match fuel with
  | O => λ s, (OutOfFuel, s)
  | S fuel =>
    let* childsGroups := ChildRoles tl [roleID] in
    let childs := default [] (childsGroups !! roleID) in
    let depth := int32 (pdepth + 1) in
    forEach childs (λ child : Role,
      let* _ := updateVertex tl vertexClassRole (v_id child)
                  (withDepth depth (v_attrs child)) in
      updateChildsDepth fuel tl depth (v_id child))
  end.

(** [DBService.changeRoleParent], readdb.go:3368-3411. *)
Definition changeRoleParent (fuel : nat) (nextTl : TimeLineNumber) (roleID : ID)
    (newParentID : option ID) : M unit :=
  let curTl_ := int64 (nextTl - 1) in
  let* curParentGroups := RoleParentInternal curTl_ [roleID] in
  let* _ := match curParentGroups !! roleID with
            | Some curParent => deleteEdge nextTl edgeClassRoleRole (v_id curParent) roleID
            | None => ret tt
            end in
  let* _ := match newParentID with
            | Some newParentID => addEdge nextTl edgeClassRoleRole newParentID roleID tt
            | None => ret tt
            end in
  let* role := RoleInternal nextTl roleID in
  match role with
  | None => raise "role doesn't exist"
  | Some role =>
    let* depth := match newParentID with
                  | Some newParentID =>
                    let* newParent := RoleInternal nextTl newParentID in
                    match newParent with
                    | Some newParent => ret (int32 (Depth (v_attrs newParent) + 1))
                    | None => panic nilDereference
                    end
                  | None => ret 0
                  end in
    let* _ := updateVertex nextTl vertexClassRole roleID (withDepth depth (v_attrs role)) in
    updateChildsDepth fuel nextTl depth (v_id role)
  end.

(** The first switch of [ApplyEvent], readdb.go:2646-2997. *)
Definition applyMutation (fuel : nat) (tl : TimeLineNumber) (data : EventData) : M unit :=
  match data with
  | EventCommandExecuted _ => ret tt
  | EventCommandExecutionFinished => ret tt
  | EventRoleCreated RoleID roleType name purpose ParentRoleID =>
    let* depth := match ParentRoleID with
                  | Some parentID =>
                    let* prole := RoleInternal tl parentID in
                    match prole with
                    | None => raise "role doesn't exist"
                    | Some prole => ret (int32 (Depth (v_attrs prole) + 1))
                    end
                  | None => ret 0
                  end in
    let* _ := newVertex tl RoleID vertexClassRole (mkRole roleType depth name purpose) in
    match ParentRoleID with
    | Some parentID => addEdge tl edgeClassRoleRole parentID RoleID tt
    | None => ret tt
    end
  | EventRoleDeleted RoleID =>
    let* proleGroups := RoleParentInternal tl [RoleID] in
    let prole := proleGroups !! RoleID in
    let* _ := deleteVertex tl vertexClassRole RoleID in
    match prole with
    | Some prole => deleteEdge tl edgeClassRoleRole (v_id prole) RoleID
    | None => ret tt
    end
  | EventRoleUpdated RoleID roleType name purpose =>
    let* crole := RoleInternal tl RoleID in
    match crole with
    | None => raise "role doesn't exist"
    | Some crole =>
      updateVertex tl vertexClassRole RoleID
        (mkRole roleType (Depth (v_attrs crole)) name purpose)
    end
  | EventRoleChangedParent RoleID ParentRoleID =>
    changeRoleParent fuel tl RoleID ParentRoleID
  end.

(** ** The event applier: digests *)

(** The digest of the parent circle on a created child, readdb.go:3040-3063. *)
Definition digestRoleCreated (tl : TimeLineNumber) (RoleID parentID : ID) : M unit :=
  let* prole := RoleInternal tl parentID in
  match prole with
  | None => raise "role doesn't exist"
  | Some prole =>
    let* roleEvent := getCircleChangesAppliedRoleEvent tl (v_id prole) in
    match roleEvent with
    | None => panic nilDereference
    | Some roleEvent =>
      let eventData := re_Data roleEvent in
      match ChangedRoles eventData !! RoleID with
      | Some _ => panic "roleevent: role already defined in eventdata"
      | None =>
        insertRoleEvent
          (withData (withChangedRoles
                       (<[RoleID := roleChangeOf ChangeTypeNew]> (ChangedRoles eventData))
                       eventData) roleEvent)
      end
    end
  end.

(** The digest of the parent circle on a deleted child, readdb.go:3066-3104. *)
Definition digestRoleDeleted (tl : TimeLineNumber) (RoleID : ID) : M unit :=
  let* proleGroups := RoleParentInternal (int64 (tl - 1)) [RoleID] in
  match proleGroups !! RoleID with
  | None => panic nilDereference
  | Some prole =>
    let* roleEvent := getCircleChangesAppliedRoleEvent tl (v_id prole) in
    match roleEvent with
    | None => ret tt
    | Some roleEvent =>
      let eventData := re_Data roleEvent in
      let changedRoles :=
        match ChangedRoles eventData !! RoleID with
        | Some changedRole =>
          if decide (ChangeType_ changedRole = ChangeTypeNew)
          then delete RoleID (ChangedRoles eventData)
          else <[RoleID := withChangeType ChangeTypeDeleted changedRole]>
                 (ChangedRoles eventData)
        | None =>
          <[RoleID := withChangeType ChangeTypeDeleted (roleChangeOf ChangeTypeDeleted)]>
            (ChangedRoles eventData)
        end in
      insertRoleEvent (withData (withChangedRoles changedRoles eventData) roleEvent)
    end
  end.

(** The digest of the parent circle on an updated child, readdb.go:3106-3135. *)
Definition digestRoleUpdated (tl : TimeLineNumber) (RoleID : ID) : M unit :=
  let* proleGroups := RoleParentInternal tl [RoleID] in
  match proleGroups !! RoleID with
  | None => ret tt
  | Some prole =>
    let* roleEvent := getCircleChangesAppliedRoleEvent tl (v_id prole) in
    match roleEvent with
    | None => ret tt
    | Some roleEvent =>
      let eventData := re_Data roleEvent in
      let changedRole := default (roleChangeOf ChangeTypeUpdated)
                           (ChangedRoles eventData !! RoleID) in
      insertRoleEvent
        (withData (withChangedRoles (<[RoleID := changedRole]> (ChangedRoles eventData))
                     eventData) roleEvent)
    end
  end.

(** One of the two halves of the digest of a moved role,
    readdb.go:3200-3226 and 3232-3258: [moves] records the move on the
    digest, [other] is the circle on the other side and [append] adds
    the moved role to the change record of that circle. *)
Definition digestMove (tl : TimeLineNumber) (circle RoleID other : ID)
    (moved : RoleParentChange)
    (moves : RoleEventCircleChangesApplied → RoleEventCircleChangesApplied)
    (append : RoleChange → RoleChange) : M unit :=
  let* roleEvent := getCircleChangesAppliedRoleEvent tl circle in
  match roleEvent with
  | None => ret tt
  | Some roleEvent =>
    let eventData := moves (re_Data roleEvent) in
    let changedRole := default (roleChangeOf ChangeTypeUpdated)
                         (ChangedRoles eventData !! RoleID) in
    let changedRoles := <[RoleID := withMoved moved changedRole]> (ChangedRoles eventData) in
    let changedRole := default (roleChangeOf ChangeTypeUpdated) (changedRoles !! other) in
    let changedRoles := <[other := append changedRole]> changedRoles in
    insertRoleEvent (withData (withChangedRoles changedRoles eventData) roleEvent)
  end.

(** The digests of the two parents of a moved role, readdb.go:3181-3259. *)
Definition digestRoleChangedParent (tl : TimeLineNumber) (RoleID : ID)
    (ParentRoleID : option ID) : M unit :=
  match ParentRoleID with
  | None => panic nilDereference
  | Some parentID =>
    let* prole := RoleInternal tl parentID in
    match prole with
    | None => raise "role doesn't exist"
    | Some prole =>
      let* prevProleGroups := RoleParentInternal (int64 (tl - 1)) [RoleID] in
      match prevProleGroups !! RoleID with
      | None => raise "parent of role doesn't exist"
      | Some prevProle =>
        let moved := mkRoleParentChange (v_id prevProle) (v_id prole) in
        let* _ := digestMove tl (v_id prole) RoleID (v_id prevProle) moved
                    (λ d, mkCircleChangesApplied (ChangedRoles d)
                            (<[RoleID := v_id prevProle]> (RolesToCircle d))
                            (RolesFromCircle d) (IssuerID d))
                    (λ c, mkRoleChange (ChangeType_ c) (Moved c)
                            (RolesMovedToParent c ++ [RoleID]) (RolesMovedFromParent c)) in
        digestMove tl (v_id prevProle) RoleID (v_id prole) moved
          (λ d, mkCircleChangesApplied (ChangedRoles d) (RolesToCircle d)
                  (<[RoleID := v_id prole]> (RolesFromCircle d)) (IssuerID d))
          (λ c, mkRoleChange (ChangeType_ c) (Moved c)
                  (RolesMovedToParent c) (RolesMovedFromParent c ++ [RoleID]))
      end
    end
  end.

(** The second switch of [ApplyEvent], readdb.go:2999-3323. *)
Definition applyDigest (tl : TimeLineNumber) (event : Event) : M unit :=
  match ev_Data event with
  | EventCommandExecuted command =>
    match CommandType_ command with
    | CommandTypeCircleCreateChildRole | CommandTypeCircleUpdateChildRole
    | CommandTypeCircleDeleteChildRole =>
      insertRoleEvent
        (NewRoleEventCircleChangesApplied tl (ev_ID event) (cmd_RoleID command)
           (cmd_IssuerID command))
    | CommandTypeOther => ret tt
    end
  | EventCommandExecutionFinished => ret tt
  | EventRoleCreated RoleID roleType _ _ ParentRoleID =>
    if IsCoreRoleType roleType then ret tt
    else match ParentRoleID with
         | Some parentID => digestRoleCreated tl RoleID parentID
         | None => ret tt
         end
  | EventRoleDeleted RoleID => digestRoleDeleted tl RoleID
  | EventRoleUpdated RoleID _ _ _ => digestRoleUpdated tl RoleID
  | EventRoleChangedParent RoleID ParentRoleID =>
    digestRoleChangedParent tl RoleID ParentRoleID
  end.

(** [DBService.ApplyEvent], readdb.go:2599-3326. *)
Definition ApplyEvent (fuel : nat) (event : Event) : M unit :=
  match ev_GroupID event with
  | None => ret tt
  | Some groupID =>
    let* tl := TimeLineForGroupID groupID in
    let* tl := match tl with
               | Some tl => ret tl
               | None =>
                 let* _ := exec (λ s,
                   setTimeline
                     (tb_timeline (tx s) ++
                        [mkTimeLineRow (ev_Timestamp event) groupID
                           (ev_AggregateType event) (ev_AggregateID event)])
                     (tx s)) in
                 let* tl := TimeLineForGroupID groupID in
                 match tl with
                 | Some tl => ret tl
                 | None => panic nilDereference
                 end
               end in
    let* cur := curTimeLineFromDB in
    let* _ := setCurTl cur in
    let* _ := applyMutation fuel tl (ev_Data event) in
    applyDigest tl event
  end.

(** [DBService.ApplyEvents], readdb.go:2587-2597. *)
Definition ApplyEvents (fuel : nat) (events : list Event) : M unit :=
  let* _ := forEach events (ApplyEvent fuel) in
  λ s, CheckBrokenEdges (curTl s) s.

(** The service on an empty store, [NewDBService], readdb.go:1322-1334. *)
Definition newDBService : DBService := mkDBService emptyDB "" 0 0.

(** ** Example event logs *)

Definition ev (id : ID) (group : ID) (ts : TimeLineNumber) (data : EventData) : Event :=
  mkEvent id (Some group) ts "rolestree" "1" data.

Definition createChildRoleOn (circle : ID) : EventData :=
  EventCommandExecuted (mkCommand CommandTypeCircleCreateChildRole 50%N circle).

(** The root circle 1 is created at timeline 1; at timeline 2 one
    command on the circle 1 creates the child role 2 and deletes it
    again. *)
Definition createThenDelete : list Event :=
  [ev 1001 101 1 (EventRoleCreated 1 RoleTypeCircle "General" "" None);
   ev 1002 102 2 (createChildRoleOn 1);
   ev 1003 102 2 (EventRoleCreated 2 RoleTypeNormal "Scribe" "" (Some 1%N));
   ev 1004 102 2 (EventRoleDeleted 2)]%N.

(** The same log without its last event. *)
Definition createOnly : list Event := take 3 createThenDelete.

(** The root circle 1, its child circle 2 and the role 3 in the circle
    2 are created at the timelines 1, 2 and 3; at timeline 4 the circle
    2 is deleted while the role 3 is still in it; at timeline 5 a
    circle with the id 2 is created again in the circle 1. *)
Definition deleteParentOfLiveChild : list Event :=
  [ev 1001 101 1 (EventRoleCreated 1 RoleTypeCircle "General" "" None);
   ev 1002 102 2 (createChildRoleOn 1);
   ev 1003 102 2 (EventRoleCreated 2 RoleTypeCircle "Sales" "" (Some 1%N));
   ev 1004 103 3 (createChildRoleOn 2);
   ev 1005 103 3 (EventRoleCreated 3 RoleTypeNormal "Seller" "" (Some 2%N));
   ev 1006 104 4 (EventRoleDeleted 2);
   ev 1007 105 5 (createChildRoleOn 1);
   ev 1008 105 5 (EventRoleCreated 2 RoleTypeCircle "Sales" "" (Some 1%N))]%N.

(** The service after a run, whatever its outcome. *)
Definition stateAfter {A} (m : M A) (s : DBService) : DBService := (m s).2.

(** The role rows [vertices] selects at [tl]. *)
Definition rolesAt (s : DBService) (tl : TimeLineNumber) : list Role :=
  filter (λ r, holds (timeLineCond (curTl s) tl r)) (tb_role (tx s)).

(** Universal property 4 of section 8, for one role row: its depth is
    0 iff it has no parent at [tl], and otherwise it is the depth of
    its parent plus one. *)
Definition depthOk (s : DBService) (tl : TimeLineNumber) (r : Role) : Prop :=
  match head (parentRolesAt s tl (v_id r)) with
  | None => Depth (v_attrs r) = 0
  | Some parent =>
    Depth (v_attrs r) = Depth (v_attrs parent) + 1 ∧ Depth (v_attrs r) ≠ 0
  end.

(** Universal property 4 of section 8 at the timeline [tl]. *)
Definition depthInvariantAt (s : DBService) (tl : TimeLineNumber) : Prop :=
  ∀ r, r ∈ rolesAt s tl → depthOk s tl r.

(** The digest of a circle at a timeline, when there is one. *)
Definition digestAt (s : DBService) (tl : TimeLineNumber) (circle : ID) :
    option RoleEventCircleChangesApplied :=
  re_Data <$> head (filter (λ e, re_RoleID e = circle ∧ re_TimeLineID e = tl
                                 ∧ re_EventType e = RoleEventTypeCircleChangesApplied)
                           (tb_roleevent (tx s))).

(** Two digests of the circle 7, at the timelines 3 and 5, and one of
    the circle 8. *)
Definition threeEventsStore : DBService :=
  mkDBService
    (setRoleEvents
       [NewRoleEventCircleChangesApplied 3 31%N 7%N 50%N;
        NewRoleEventCircleChangesApplied 5 51%N 7%N 50%N;
        NewRoleEventCircleChangesApplied 5 52%N 8%N 50%N]
       emptyDB)
    "" 5 0.

(** ** The role tree at the current timeline *)

Definition isOpen `{Temporal R} (r : R) : Prop := end_tl r = None.

#[export] Instance isOpen_dec `{Temporal R} (r : R) : Decision (isOpen r).
Proof. unfold isOpen. destruct (end_tl r); [right|left]; done. Defined.

(** The open rows of [role] and of [rolerole]. *)
Definition openRoles (s : DBService) : list Role := filter isOpen (tb_role (tx s)).
Definition openEdges (s : DBService) : list (Edge unit) := filter isOpen (tb_rolerole (tx s)).

(** [c] is a child of [p]: an open edge leads from [p] to [c]. *)
Definition childOf (s : DBService) (p c : ID) : Prop :=
  ∃ e, e ∈ openEdges s ∧ e_x e = p ∧ e_y e = c.

(** The invariants of the role tree (sections 3.4, 4.4 and 8): one open
    row for a role id, at most one open edge into a role, both
    endpoints of an open edge open, the depth of a child one more than
    the depth of its parent, depth 0 for a role without parent, and no
    negative depth. *)
Record RoleTreeOk (s : DBService) : Prop := mkRoleTreeOk {
  rt_ids : NoDup (v_id <$> openRoles s);
  rt_parent : NoDup (e_y <$> openEdges s);
  rt_edges : ∀ e, e ∈ openEdges s →
    (∃ rp, rp ∈ openRoles s ∧ v_id rp = e_x e) ∧ (∃ rc, rc ∈ openRoles s ∧ v_id rc = e_y e);
  rt_depth : ∀ e rp rc, e ∈ openEdges s → rp ∈ openRoles s → rc ∈ openRoles s →
    v_id rp = e_x e → v_id rc = e_y e → Depth (v_attrs rc) = Depth (v_attrs rp) + 1;
  rt_root : ∀ r, r ∈ openRoles s → (∀ e, e ∈ openEdges s → e_y e ≠ v_id r) →
    Depth (v_attrs r) = 0;
  rt_nonneg : ∀ r, r ∈ openRoles s → 0 ≤ Depth (v_attrs r)
}.

(** The rows were written before the timeline [tl], and closed before
    [tl - 1]: [tl] is a new timeline. *)
Definition writtenBefore (tl : TimeLineNumber) (s : DBService) : Prop :=
  Forall (temporal_ok (tl - 1)) (tb_role (tx s))
  ∧ Forall (temporal_ok (tl - 1)) (tb_rolerole (tx s)).

(** ** The walk of [updateChildsDepth]

    While the depths below a moved role are rewritten at the timeline
    [T], an open role row is old when it was written before [T] and new
    when it was written at [T].  [Etab] is the table [rolerole], which
    the walk does not write, [δ] the difference between the new and the
    old depth of the moved role, and [reach] holds of the roles that
    can be reached from it. *)
Section Traversal.
Variables (T δ : Z) (Etab : list (Edge unit)) (reach : ID → Prop).

Definition isOld (r : Role) : Prop := v_start_tl r < T.
Definition isNew (r : Role) : Prop := v_start_tl r = T.

Definition oldCount (s : DBService) : nat := length (filter isOld (openRoles s)).

(** An open edge with the open rows of its two endpoints. *)
Definition edgeRows (s : DBService) (e : Edge unit) (rp rc : Role) : Prop :=
  e ∈ filter isOpen Etab ∧ rp ∈ openRoles s ∧ rc ∈ openRoles s
  ∧ v_id rp = e_x e ∧ v_id rc = e_y e.

Definition childE (p c : ID) : Prop :=
  ∃ e, e ∈ filter isOpen Etab ∧ e_x e = p ∧ e_y e = c.

(** The state of the store during the walk: below an old row the
    depths are those of before, below a new row they are the new ones,
    or the child is still old and its depth is behind by [δ]. *)
Record Good (s : DBService) : Prop := mkGood {
  g_cur : curTl s = T;
  g_edges : tb_rolerole (tx s) = Etab;
  g_ids : NoDup (v_id <$> openRoles s);
  g_start : ∀ r, r ∈ openRoles s → v_start_tl r ≤ T;
  g_old : ∀ e rp rc, edgeRows s e rp rc → isOld rp →
    Depth (v_attrs rc) = Depth (v_attrs rp) + 1 ∧ (isOld rc ∨ ¬ reach (e_x e));
  g_new : ∀ e rp rc, edgeRows s e rp rc → isNew rp →
    (isNew rc ∧ Depth (v_attrs rc) = Depth (v_attrs rp) + 1)
    ∨ (isOld rc ∧ Depth (v_attrs rc) + δ = Depth (v_attrs rp) + 1);
  g_reach : ∀ r, r ∈ openRoles s → isNew r → reach (v_id r);
  g_parent : ∀ r, r ∈ openRoles s → isNew r →
    ∃ e, e ∈ filter isOpen Etab ∧ e_y e = v_id r;
  g_range : ∀ r, r ∈ openRoles s → isOld r →
    - 2 ^ 31 ≤ Depth (v_attrs r) + δ < 2 ^ 31;
  g_nonneg : ∀ r, r ∈ openRoles s → 0 ≤ Depth (v_attrs r)
}.

(** An edge from a new row to a row that is still old. *)
Definition pendingEdge (s : DBService) (p c : ID) : Prop :=
  ∃ e rp rc, edgeRows s e rp rc ∧ e_x e = p ∧ e_y e = c ∧ isNew rp ∧ isOld rc.

(** What a part of the walk may change: new rows stay, old rows are
    not invented, the role ids are the same, fewer rows are old, and a
    row is made new only below [via] or below a row that was old. *)
Record Frame (via : ID → Prop) (s s' : DBService) : Prop := mkFrame {
  f_new : ∀ r, r ∈ openRoles s → isNew r → r ∈ openRoles s';
  f_old : ∀ r, r ∈ openRoles s' → isOld r → r ∈ openRoles s;
  f_ids : ∀ r, r ∈ openRoles s → ∃ r', r' ∈ openRoles s' ∧ v_id r' = v_id r;
  f_ids' : ∀ r', r' ∈ openRoles s' → ∃ r, r ∈ openRoles s ∧ v_id r = v_id r';
  f_count : (oldCount s' ≤ oldCount s)%nat;
  f_made : ∀ r', r' ∈ openRoles s' → isNew r' →
    r' ∈ openRoles s
    ∨ ∃ e, e ∈ filter isOpen Etab ∧ e_y e = v_id r'
           ∧ (via (e_x e) ∨ ∃ rp, rp ∈ openRoles s ∧ v_id rp = e_x e ∧ isOld rp)
}.

(** The pending edges of [s'] were pending in [s] and are not in [X]. *)
Definition PendingSub (X : ID → ID → Prop) (s s' : DBService) : Prop :=
  ∀ p c, pendingEdge s' p c → pendingEdge s p c ∧ ¬ X p c.

(** The body of the loop of [updateChildsDepth] over the child roles. *)
Definition updateChild (fuel : nat) (depth : Z) (child : Role) : M unit :=
  let* _ := updateVertex T vertexClassRole (v_id child)
              (withDepth depth (v_attrs child)) in
  updateChildsDepth fuel T depth (v_id child).
End Traversal.

(** ** Events that fit the role tree

    [readdb] applies the events it is given and does not check them
    against the store.  An event fits the role tree when it is one the
    command side emits on a well-formed tree: a [RoleCreated] with a
    new role id, below an open role or as a root, or a
    [RoleChangedParent] that is the first write of its timeline to the
    role tables and moves an open role below an open role outside of
    its own subtree. *)
Definition eventFits (T : TimeLineNumber) (s : DBService) (data : EventData) : Prop :=
  match data with
  | EventCommandExecuted _ => True
  | EventCommandExecutionFinished => True
  | EventRoleCreated X _ _ _ parent =>
    (∀ r, r ∈ openRoles s → v_id r ≠ X)
    ∧ (∀ P, parent = Some P → ∃ rP, rP ∈ openRoles s ∧ v_id rP = P)
  | EventRoleChangedParent A (Some B) =>
    1 < T ∧ writtenBefore T s
    ∧ (∃ rA, rA ∈ openRoles s ∧ v_id rA = A)
    ∧ (∃ rB, rB ∈ openRoles s ∧ v_id rB = B)
    ∧ ¬ rtc (childOf s) A B
  | _ => False
  end.

(** The open edges of the role tree after an event that fits. *)
Definition edgesAfter (T : TimeLineNumber) (data : EventData)
    (edges : list (Edge unit)) : list (Edge unit) :=
  match data with
  | EventRoleCreated X _ _ _ (Some P) => edges ++ [mkEdge T None P X tt]
  | EventRoleChangedParent A (Some B) =>
    filter (λ e, e_y e ≠ A) edges ++ [mkEdge T None B A tt]
  | _ => edges
  end.

(** A root circle 1 with the circles 2 and 3, and the role 4 in the
    circle 2; the rows were written at the timeline 1 and the current
    timeline is 2. *)
Definition treeStore : DBService :=
  mkDBService
    (setRoleRoleTable
       [mkEdge 1 None 1%N 2%N tt; mkEdge 1 None 1%N 3%N tt; mkEdge 1 None 2%N 4%N tt]
       (setRoleTable
          [mkVertex 1%N 1 None (mkRole RoleTypeCircle 0 "General" "");
           mkVertex 2%N 1 None (mkRole RoleTypeCircle 1 "Sales" "");
           mkVertex 3%N 1 None (mkRole RoleTypeCircle 1 "Production" "");
           mkVertex 4%N 1 None (mkRole RoleTypeNormal 2 "Seller" "")]
          emptyDB))
    "" 2 0.

(** ** Vocabulary of the further properties *)

(** What [scanRole] and the like read of a row, the end timeline
    apart. *)
Definition rowKey {A} (r : Vertex A) : ID * TimeLineNumber * A :=
  (v_id r, v_start_tl r, v_attrs r).

Definition edgeKey {B} (e : Edge B) : TimeLineNumber * ID * ID * B :=
  (e_start_tl e, e_x e, e_y e, e_attrs e).

(** The rows of a vertex class, none for a class without table. *)
Definition vtable (vc : vertexClass) : DB → list (Vertex (attrsOf vc)) :=
  default (λ _, []) (tableOf vc).

(** The ids of the rows of a class that [timeLineCond] selects at
    [tl]. *)
Definition liveIds (s : DBService) (tl : TimeLineNumber) (vc : vertexClass) : list ID :=
  v_id <$> filter (λ r, holds (timeLineCond (curTl s) tl r)) (vtable vc (tx s)).

(** An edge selected at [tl] one of whose endpoints is not. *)
Definition brokenEdge (s : DBService) (tl : TimeLineNumber) (ec : edgeClass)
    (e : Edge (eattrsOf ec)) : Prop :=
  holds (timeLineCond (curTl s) tl e)
  ∧ (e_x e ∉ liveIds s tl (ecX ec) ∨ e_y e ∉ liveIds s tl (ecY ec)).

(** At most one row of an id is selected at [tl], in every class. *)
Definition uniqueLiveIds (s : DBService) (tl : TimeLineNumber) : Prop :=
  ∀ vc, NoDup (liveIds s tl vc).

(** ** Roles and members by id *)

(** [DBService.RolesInternal], readdb.go:1487-1499: without ids there
    is no condition. *)
Definition RolesInternal (tl : TimeLineNumber) (rolesIDs : list ID) : M (list Role) :=
  let condition : option (Role → sqlbool) :=
    if decide (0 < length rolesIDs)%nat
    then Some (λ r, sqIn (Some (v_id r)) rolesIDs) else None in
  vertices tl vertexClassRole 0 condition [λ r, Name (v_attrs r)].

(** [DBService.Roles], readdb.go:1501-1507. *)
Definition Roles (tl : TimeLineNumber) (rolesIDs : list ID) : M (list Role) :=
  RolesInternal tl rolesIDs.

(** [DBService.MembersByIDsInternal], readdb.go:1713-1725. *)
Definition MembersByIDsInternal (tl : TimeLineNumber) (membersIDs : list ID) :
    M (list Member) :=
  let condition : option (Member → sqlbool) :=
    if decide (0 < length membersIDs)%nat
    then Some (λ r, sqIn (Some (v_id r)) membersIDs) else None in
  vertices tl vertexClassMember 0 condition [λ r, FullName (v_attrs r)].

(** [DBService.MembersByIDs], readdb.go:1727-1733. *)
Definition MembersByIDs (tl : TimeLineNumber) (membersIDs : list ID) : M (list Member) :=
  MembersByIDsInternal tl membersIDs.

(** The rows of a table selected at [tl] whose id is one of [ids], all
    the selected rows when [ids] is empty. *)
Definition selectedByIds {A} (s : DBService) (tl : TimeLineNumber) (ids : list ID)
    (table : list (Vertex A)) : list (Vertex A) :=
  filter (λ r, holds (timeLineCond (curTl s) tl r) ∧ (ids = [] ∨ v_id r ∈ ids)) table.

(** ** Members of a role *)

(** [DBService.roleAddMember], readdb.go:3434-3439: the election
    expiration of the edge is [nil]. *)
Definition roleAddMember (tl : TimeLineNumber) (roleID memberID : ID)
    (focus : option string) (noCoreMember : bool) : M unit :=
  addEdge tl edgeClassRoleMember memberID roleID (mkRoleMember focus noCoreMember None).

(** [DBService.roleUpdateMember], readdb.go:3441-3449. *)
Definition roleUpdateMember (tl : TimeLineNumber) (roleID memberID : ID)
    (focus : option string) (noCoreMember : bool) : M unit :=
  let* _ := deleteEdge tl edgeClassRoleMember memberID roleID in
  addEdge tl edgeClassRoleMember memberID roleID (mkRoleMember focus noCoreMember None).

(** [DBService.roleRemoveMember], readdb.go:3451-3456. *)
Definition roleRemoveMember (tl : TimeLineNumber) (roleID memberID : ID) : M unit :=
  deleteEdge tl edgeClassRoleMember memberID roleID.

(** The edges of a group of [RoleMemberEdgesInternal] with the member
    [memberID], and the others. *)
Definition edgesOfMember (memberID : ID) (edges : list RoleMemberEdge) :
    list RoleMemberEdge :=
  filter (λ e, v_id (rme_Member e) = memberID) edges.

Definition edgesOfOthers (memberID : ID) (edges : list RoleMemberEdge) :
    list RoleMemberEdge :=
  filter (λ e, v_id (rme_Member e) ≠ memberID) edges.

(** What [scanRoleMemberEdge] reads of a joined row, readdb.go:1001-1009:
    the member and the three columns of the edge. *)
Definition roleMemberEdgeOf (ve : Member * Edge RoleMemberAttrs) : RoleMemberEdge :=
  mkRoleMemberEdge ve.1 (Focus (e_attrs ve.2)) (NoCoreMember (e_attrs ve.2))
    (ElectionExpiration (e_attrs ve.2)).

(** ** The list of timelines *)

(** [sq.Gt{col: v}]. *)
Definition sqGt (col : option Z) (v : Z) : sqlbool := (λ c, bool_decide (v < c)) <$> col.

(** [ORDER BY timestamp asc] when [after], [ORDER BY timestamp desc]
    otherwise. *)
Definition timestampOrder (after : bool) (a b : TimeLineNumber) : Prop :=
  if after then a ≤ b else b ≤ a.

#[export] Instance timestampOrder_dec after : RelDecision (timestampOrder after).
Proof. intros a b. unfold timestampOrder. destruct after; apply _. Defined.

(** [DBService.TimeLines], readdb.go:1384-1433.  [ts] is the instant
    in nanoseconds, as the timeline number [sn] is, and [aggregateID]
    the id in the text of the column [aggregateid]; [limit] is a Go
    [int]. *)
Definition TimeLines (ts : option TimeLineNumber) (sn : TimeLineNumber) (limit : Z)
    (after : bool) (aggregateType : string) (aggregateID : option string) :
    M (list TimeLineNumber * bool) :=
  let limit := if decide (limit ≤ 0) then MaxFetchSize else limit in
  let ts := default sn ts in
  let* tls := query (λ s,
    take (Z.to_nat (uint64 (int64 (limit + 1))))
      (merge_sort (timestampOrder after)
         (tlr_timestamp <$>
          filter (λ r,
                    holds (if after then sqGt (Some (tlr_timestamp r)) ts
                           else sqLt (Some (tlr_timestamp r)) ts)
                    && (if decide (aggregateType ≠ ""%string)
                        then holds (sqEq (Some (tlr_aggregatetype r)) aggregateType)
                        else true)
                    && match aggregateID with
                       | Some id => holds (sqEq (Some (tlr_aggregateid r)) id)
                       | None => true
                       end)
                 (tb_timeline (tx s))))) in
  let size := if decide (limit < Z.of_nat (length tls)) then limit
              else Z.of_nat (length tls) in
  let* page := sliceTo tls size in
  ret (page, bool_decide (limit < Z.of_nat (length tls))).

(** [t] lies beyond [ts] in the direction of the paging. *)
Definition beyond (after : bool) (ts t : TimeLineNumber) : Prop :=
  if after then ts < t else t < ts.

#[export] Instance beyond_dec after ts t : Decision (beyond after ts t).
Proof. unfold beyond. destruct after; apply _. Defined.

(** The row passes the filters on the aggregate. *)
Definition aggregateMatches (aggregateType : string) (aggregateID : option string)
    (r : TimeLineRow) : Prop :=
  (aggregateType = ""%string ∨ tlr_aggregatetype r = aggregateType)
  ∧ match aggregateID with
    | Some id => tlr_aggregateid r = id
    | None => True
    end.

#[export] Instance aggregateMatches_dec aggregateType aggregateID r :
  Decision (aggregateMatches aggregateType aggregateID r).
Proof. unfold aggregateMatches. destruct aggregateID; apply _. Defined.

(** The timestamps of the timelines of the aggregate. *)
Definition timeLinesOf (s : DBService) (aggregateType : string)
    (aggregateID : option string) : list TimeLineNumber :=
  tlr_timestamp <$> filter (aggregateMatches aggregateType aggregateID) (tb_timeline (tx s)).

(** The page size of [TimeLines]. *)
Definition timeLinesLimit (limit : Z) : Z :=
  if decide (limit ≤ 0) then MaxFetchSize else limit.

(** Four timelines of the roles tree, at the instants 10, 20, 30 and
    40, inserted out of order. *)
Definition fourTimeLinesStore : DBService :=
  mkDBService
    (setTimeline
       [mkTimeLineRow 30 103%N "rolestree" "1"; mkTimeLineRow 10 101%N "rolestree" "1";
        mkTimeLineRow 40 104%N "rolestree" "1"; mkTimeLineRow 20 102%N "rolestree" "1"]
       emptyDB)
    "" 40 0.

(** ** The ancestors of a role *)

(** The ids that the loop of [RoleParents] collects in [neededMap],
    readdb.go:2078-2087: the parents in [parents] whose own parent is
    not known.  The slice [needed] has them in the order of Go's map
    iteration; the query that takes it tests membership only. *)
Definition neededParents (parents : gmap ID Role) : list ID :=
  elements (list_to_set (C:=gset ID)
    (filter (λ id, parents !! id = None) (v_id <$> (map_to_list parents).*2))).

(** The first loop of [RoleParents], readdb.go:2076-2099: ask for the
    parents of the needed roles until none comes back. *)
Fixpoint collectParents (fuel : nat) (tl : TimeLineNumber) (parents : gmap ID Role) :
    M (gmap ID Role) :=
  match fuel with
  | O => λ s, (OutOfFuel, s)
  | S fuel =>
    let* roleParentGroups := RoleParentInternal tl (neededParents parents) in
    if decide (size roleParentGroups = 0%nat) then ret parents
    else collectParents fuel tl (roleParentGroups ∪ parents)
  end.

(** The inner loop of the second loop, readdb.go:2104-2111: follow
    [parents] from [curID]. *)
Fixpoint parentsChain (fuel : nat) (parents : gmap ID Role) (curID : ID) :
    M (list Role) :=
  match fuel with
  | O => λ s, (OutOfFuel, s)
  | S fuel =>
    match parents !! curID with
    | Some parent =>
      let* rest := parentsChain fuel parents (v_id parent) in
      ret (parent :: rest)
    | None => ret []
    end
  end.

(** The second loop, readdb.go:2101-2112. *)
Fixpoint parentsChains (fuel : nat) (parents : gmap ID Role) (rolesIDs : list ID)
    (roleParentsGroups : gmap ID (list Role)) : M (gmap ID (list Role)) :=
  match rolesIDs with
  | [] => ret roleParentsGroups
  | id :: rolesIDs =>
    let* chain := parentsChain fuel parents id in
    parentsChains fuel parents rolesIDs (<[id := chain]> roleParentsGroups)
  end.

(** [DBService.RoleParents], readdb.go:2066-2115. *)
Definition RoleParents (fuel : nat) (tl : TimeLineNumber) (rolesIDs : list ID) :
    M (gmap ID (list Role)) :=
  let* roleParentGroups := RoleParentInternal tl rolesIDs in
  let* parents := collectParents fuel tl roleParentGroups in
  parentsChains fuel parents rolesIDs ∅.

(** [p] is an open role from which an open edge leads to [c]. *)
Definition isParent (s : DBService) (p : Role) (c : ID) : Prop :=
  p ∈ openRoles s ∧ childOf s (v_id p) c.

(** The chain of the ancestors of a role, from its parent to a role
    without parent. *)
Inductive ancestorChain (s : DBService) : ID → list Role → Prop :=
  | chain_root id :
      (∀ p, ¬ isParent s p id) → ancestorChain s id []
  | chain_parent id p rest :
      isParent s p id → ancestorChain s (v_id p) rest →
      ancestorChain s id (p :: rest).

(** ** Writes of the table of timelines *)

(** A computation that writes no timeline and keeps the cached current
    timeline, whatever its result. *)
Definition keepsTimeline {A} (m : M A) : Prop :=
  ∀ s, tb_timeline (tx (m s).2) = tb_timeline (tx s) ∧ curTl (m s).2 = curTl s.

(** The row that [ApplyEvent] inserts for the first event of a group. *)
Definition timeLineRowOf (event : Event) (groupID : ID) : TimeLineRow :=
  mkTimeLineRow (ev_Timestamp event) groupID (ev_AggregateType event)
    (ev_AggregateID event).

(** A root circle and a member whose user name is empty, in a service
    without forced administrator. *)
Definition namelessMemberStore : DBService :=
  mkDBService
    (mkDB
       [mkVertex 1%N 1 None (mkRole RoleTypeCircle 0 "General" "")]
       [] [] []
       [mkVertex 10%N 1 None (mkMember false "" "Nobody" "nobody@example.org")]
       [] [] [] [] [] [] [] [] []
       [mkTimeLineRow 1 100%N "rolestree" "1"] [])
    "" 1 0.

(** [DBService.TimeLineAtTimeStamp], readdb.go:1435-1446: the first
    row of [timestamp >= ts ORDER BY timestamp asc LIMIT 1], [None]
    (the nil pointer) when there is no row. *)
Definition TimeLineAtTimeStamp (ts : TimeLineNumber) : M (option TimeLineNumber) :=
  query (λ s,
    head (merge_sort (timestampOrder true)
            (tlr_timestamp <$>
             filter (λ r, holds (sqGtOrEq (Some (tlr_timestamp r)) ts))
                    (tb_timeline (tx s))))).

(** * Properties *)

Section TimeLineCondFacts.
Context {R : Type} `{Temporal R}.

Lemma holds_timeLineCondGeneral (tl : Z) (r : R) :
  holds (timeLineCondGeneral tl r) = true ↔ live_at tl r.
Proof.
  unfold timeLineCondGeneral, live_at, sqLtOrEq, sqGtOrEq, sqIsNull.
  destruct (end_tl r) as [e|]; simpl; repeat case_bool_decide; simpl;
    intuition (try done; try lia).
Qed.

Lemma holds_timeLineCond_current (cur : Z) (r : R) :
  holds (timeLineCond cur cur r) = true ↔ end_tl r = None.
Proof.
  unfold timeLineCond. rewrite decide_True by done.
  unfold sqIsNull. destruct (end_tl r); simpl; split; done.
Qed.
End TimeLineCondFacts.

Lemma timeLineCond_fast_path_equiv_aux `{Temporal R} (cur : Z) (r : R) :
  temporal_ok cur r → holds (timeLineCond cur cur r) = true ↔ live_at cur r.
Proof.
  intros [Hs He]. rewrite holds_timeLineCond_current. unfold live_at.
  destruct (end_tl r) as [e|] eqn:Hr; [|by intuition].
  specialize (He e eq_refl). split; [done|lia].
Qed.

(** C1: under the temporal invariants the fast path of [timeLineCond]
    taken at the current timeline ([end_tl IS NULL]) selects a row
    exactly when the general predicate
    [start_tl <= tl AND (end_tl >= tl OR end_tl IS NULL)] evaluated at the
    current timeline selects it, that is exactly when the row is live at
    the current timeline. *)
Theorem timeLineCond_fast_path_equiv {R : Type} `{Temporal R} (cur : Z) (r : R) :
  temporal_ok cur r →
  (holds (timeLineCond cur cur r) = holds (timeLineCondGeneral cur r)) ∧
  (holds (timeLineCond cur cur r) = true ↔ live_at cur r).
Proof.
  intros Hok. pose proof (timeLineCond_fast_path_equiv_aux cur r Hok) as Heq.
  split; [|done].
  apply eq_true_iff_eq. by rewrite Heq, holds_timeLineCondGeneral.
Qed.

(** ** The monad *)

Lemma query_run {A} (q : DBService → A) s : query q s = (Ok (q s), tick s).
Proof. done. Qed.

Lemma bind_ok {A B} (m : M A) (k : A → M B) s a s' :
  m s = (Ok a, s') → bind m k s = k a s'.
Proof. unfold bind. by intros ->. Qed.

Lemma bind_err {A B} (m : M A) (k : A → M B) s e s' :
  m s = (Err e, s') → bind m k s = (Err e, s').
Proof. unfold bind. by intros ->. Qed.

Lemma bind_panic {A B} (m : M A) (k : A → M B) s p s' :
  m s = (Panic p, s') → bind m k s = (Panic p, s').
Proof. unfold bind. by intros ->. Qed.

Lemma no_panic_ret {A} (a : A) : no_panic (ret a).
Proof. by intros s p. Qed.

Lemma no_panic_raise {A} e : no_panic (raise (A:=A) e).
Proof. by intros s p. Qed.

Lemma no_panic_query {A} (q : DBService → A) : no_panic (query q).
Proof. by intros s p. Qed.

Lemma no_panic_bind {A B} (m : M A) (k : A → M B) :
  no_panic m → (∀ a, no_panic (k a)) → no_panic (bind m k).
Proof.
  intros Hm Hk s p. unfold bind. specialize (Hm s).
  destruct (m s) as [[a|e|q|] s']; simpl in *.
  - apply Hk.
  - done.
  - by specialize (Hm q).
  - done.
Qed.

Create HintDb nopanic.
#[local] Hint Resolve no_panic_ret no_panic_raise no_panic_query : nopanic.

(** ** The timeline guard of the generic readers *)

Lemma checkEndpoint_no_panic tl ec vc point : no_panic (checkEndpoint tl ec vc point).
Proof.
  unfold checkEndpoint. apply no_panic_bind; [auto with nopanic|]. intros n.
  destruct (tableOf vc); [|auto with nopanic].
  apply no_panic_bind; [auto with nopanic|]. intros c.
  case_decide; auto with nopanic.
Qed.

Lemma checkEdgeClasses_no_panic tl ecs : no_panic (checkEdgeClasses tl ecs).
Proof.
  induction ecs as [|ec ecs IH]; simpl; [auto with nopanic|].
  repeat (apply no_panic_bind; [apply checkEndpoint_no_panic|]; intros _).
  done.
Qed.

Lemma vertices_guard tl vc limit condition orderBys s :
  (vertices tl vc limit condition orderBys s = (Panic wrongTlSequence, s) ↔ tl ≤ 0) ∧
  ((vertices tl vc limit condition orderBys s).1 = Panic wrongTlSequence ↔ tl ≤ 0).
Proof.
  unfold vertices. case_decide as Htl.
  - by split.
  - destruct (tableOf vc); split; split; intros Hres; try lia; try (by inversion Hres).
Qed.

Lemma connectedVertices_guard tl vertexID ec direction out condition orderBys s :
  (connectedVertices tl vertexID ec direction out condition orderBys s
     = (Panic wrongTlSequence, s) ↔ tl ≤ 0) ∧
  ((connectedVertices tl vertexID ec direction out condition orderBys s).1
     = Panic wrongTlSequence ↔ tl ≤ 0).
Proof.
  unfold connectedVertices. case_decide as Htl.
  - by split.
  - destruct (tableOf (neighbour ec direction)).
    + unfold bind. rewrite query_run.
      destruct (outputScans _ _ _); split; split; intros Hres; try lia; try (by inversion Hres).
    + split; split; intros Hres; try lia; try (by inversion Hres).
Qed.

Lemma verticesFiltered_guard tl vc ec direction endEdgeID condition s :
  (verticesFiltered tl vc ec direction endEdgeID condition s
     = (Panic wrongTlSequence, s) ↔ tl ≤ 0) ∧
  ((verticesFiltered tl vc ec direction endEdgeID condition s).1
     = Panic wrongTlSequence ↔ tl ≤ 0).
Proof.
  unfold verticesFiltered. case_decide as Htl.
  - by split.
  - destruct (if filteredClass vc then tableOf vc else None).
    + unfold bind. rewrite query_run.
      destruct (joinRows _ _ _ _); split; split; intros Hres; try lia; try (by inversion Hres).
    + split; split; intros Hres; try lia; try (by inversion Hres).
Qed.

Lemma CheckBrokenEdges_guard tl s :
  (CheckBrokenEdges tl s = (Panic wrongTlSequence, s) ↔ tl ≤ 0) ∧
  ((CheckBrokenEdges tl s).1 = Panic wrongTlSequence ↔ tl ≤ 0).
Proof.
  unfold CheckBrokenEdges. case_decide as Htl.
  - by split.
  - pose proof (checkEdgeClasses_no_panic tl edgeClasses s wrongTlSequence) as Hnp.
    split; split; try lia.
    + intros Heq. by rewrite Heq in Hnp.
    + done.
Qed.

(** C8: each generic reader ([vertices], [connectedVertices],
    [verticesFiltered], [CheckBrokenEdges]) called with [tl <= 0] panics
    with "wrong tl sequence" and leaves the service as it was, so that
    no statement has been sent to the store; and it ends in that panic
    only then, so with [tl > 0] the branch is never taken. *)
Theorem readers_panic_iff_wrong_tl (tl : Z) (s : DBService) :
  (∀ vc limit condition orderBys,
     (vertices tl vc limit condition orderBys s = (Panic wrongTlSequence, s) ↔ tl ≤ 0) ∧
     ((vertices tl vc limit condition orderBys s).1 = Panic wrongTlSequence ↔ tl ≤ 0)) ∧
  (∀ vertexID ec direction out condition orderBys,
     (connectedVertices tl vertexID ec direction out condition orderBys s
        = (Panic wrongTlSequence, s) ↔ tl ≤ 0) ∧
     ((connectedVertices tl vertexID ec direction out condition orderBys s).1
        = Panic wrongTlSequence ↔ tl ≤ 0)) ∧
  (∀ vc ec direction endEdgeID condition,
     (verticesFiltered tl vc ec direction endEdgeID condition s
        = (Panic wrongTlSequence, s) ↔ tl ≤ 0) ∧
     ((verticesFiltered tl vc ec direction endEdgeID condition s).1
        = Panic wrongTlSequence ↔ tl ≤ 0)) ∧
  ((CheckBrokenEdges tl s = (Panic wrongTlSequence, s) ↔ tl ≤ 0) ∧
   ((CheckBrokenEdges tl s).1 = Panic wrongTlSequence ↔ tl ≤ 0)).
Proof.
  split; [intros; apply vertices_guard|].
  split; [intros; apply connectedVertices_guard|].
  split; [intros; apply verticesFiltered_guard|].
  apply CheckBrokenEdges_guard.
Qed.

(** ** Lists of rows *)

Lemma filter_ext_elem {A} (P Q : A → Prop) `{!∀ x, Decision (P x), !∀ x, Decision (Q x)}
    (l : list A) :
  (∀ x, x ∈ l → P x ↔ Q x) → filter P l = filter Q l.
Proof.
  induction l as [|a l IH]; intros HPQ; [done|].
  rewrite !filter_cons.
  rewrite IH by (intros x Hx; apply HPQ; by right).
  apply decide_ext, HPQ. by left.
Qed.

Lemma closeRows_none `{Temporal R} endtl (sel : R → bool) (rows : list R) :
  (∀ r, r ∈ rows → sel r = false) → closeRows endtl sel rows = rows.
Proof.
  intros Hsel. unfold closeRows.
  induction rows as [|r rows IH]; [done|]. simpl.
  rewrite (Hsel r) by (by left). f_equal.
  apply IH. intros r' Hr'. apply Hsel. by right.
Qed.

Lemma setTable_same vc table set d :
  tableOf vc = Some table → setTable vc = Some set → set (table d) d = d.
Proof. destruct vc, d; simpl; intros; by simplify_eq. Qed.

Lemma setETable_same ec d : setETable ec (etableOf ec d) d = d.
Proof. by destruct ec, d. Qed.

Lemma setTable_is_Some vc table :
  tableOf vc = Some table → ∃ set, setTable vc = Some set.
Proof. destruct vc; simpl; intros; simplify_eq; eauto. Qed.

Lemma withTx_same s : withTx (tx s) s = s.
Proof. by destruct s. Qed.

(** ** The root role *)

Lemma vertices_run tl vc limit condition orderBys table s :
  0 < tl → tableOf vc = Some table →
  vertices tl vc limit condition orderBys s =
    (Ok (applyLimit limit (orderBy orderBys
           (filter (λ r, holds (timeLineCond (curTl s) tl r) && whereCond condition r)
                   (table (tx s))))),
     tick s).
Proof.
  intros Htl Htab. unfold vertices.
  rewrite decide_False by lia. by rewrite Htab.
Qed.

Lemma holds_timeLineCond_live `{Temporal R} (cur tl : Z) (r : R) :
  temporal_ok cur r → holds (timeLineCond cur tl r) = true ↔ live_at tl r.
Proof.
  intros Hok. unfold timeLineCond. case_decide as Hcur.
  - subst tl. pose proof (timeLineCond_fast_path_equiv_aux cur r Hok) as Haux.
    unfold timeLineCond in Haux. by rewrite decide_True in Haux.
  - apply holds_timeLineCondGeneral.
Qed.

Lemma RootRoleInternal_rows tl s :
  0 < tl → Forall (temporal_ok (curTl s)) (tb_role (tx s)) →
  vertices tl vertexClassRole 0
    (Some (λ r : Role, sqEq (Some (Depth (v_attrs r))) 0)) [] s
  = (Ok (rootRolesLiveAt s tl), tick s).
Proof.
  intros Htl Hok. rewrite (vertices_run tl vertexClassRole _ _ _ tb_role) by done.
  unfold applyLimit, orderBy, rootRolesLiveAt. rewrite decide_True by done.
  do 2 f_equal. apply filter_ext_elem. intros r Hr.
  rewrite Forall_forall in Hok. specialize (Hok r Hr).
  rewrite andb_True, !Is_true_true, (holds_timeLineCond_live _ _ _ Hok).
  unfold whereCond, sqEq. simpl. case_bool_decide; intuition (done || congruence).
Qed.

(** C7: for a timeline [tl > 0] of a store whose role rows satisfy the
    temporal invariants, [RootRole] returns the role row with depth 0
    that is live at [tl] when there is exactly one, returns an error
    exactly when more than one such row is live, and returns the nil
    role without error when there is none. *)
Theorem RootRole_unique_or_absent (tl : Z) (s : DBService) :
  0 < tl →
  Forall (temporal_ok (curTl s)) (tb_role (tx s)) →
  (∀ r, rootRolesLiveAt s tl = [r] → RootRole tl s = (Ok (Some r), tick s)) ∧
  ((∃ e, (RootRole tl s).1 = Err e) ↔ (1 < length (rootRolesLiveAt s tl))%nat) ∧
  (rootRolesLiveAt s tl = [] → RootRole tl s = (Ok None, tick s)).
Proof.
  intros Htl Hok. unfold RootRole, RootRoleInternal.
  rewrite (bind_ok _ _ _ _ _ (RootRoleInternal_rows tl s Htl Hok)).
  destruct (rootRolesLiveAt s tl) as [|r [|r' rest]]; simpl.
  - split; [done|]. split; [|done]. split; [by intros [e ?]|lia].
  - split; [by intros ? [= <-]|]. split; [|done]. split; [by intros [e ?]|lia].
  - split; [done|]. split; [|done]. split; [intros _; lia|by eexists].
Qed.

(** ** Closing rows that are not there *)

Lemma closeVertex_absent s endtl vc id :
  noOpenVertex s endtl vc id → closeVertex endtl vc id s = (Ok tt, tick s).
Proof.
  unfold noOpenVertex, closeVertex. destruct (tableOf vc) as [table|] eqn:Htab; [|done].
  intros Hno. destruct (setTable_is_Some vc table Htab) as [set Hset]. rewrite Hset.
  unfold exec. do 2 f_equal. rewrite closeRows_none.
  - rewrite (setTable_same vc table set) by done. apply withTx_same.
  - intros r Hr. case_bool_decide; [|done]. simpl. by apply Hno.
Qed.

Lemma closeEdge_absent s endtl ec x y :
  noOpenEdge s endtl ec x y → closeEdge endtl ec x y s = (Ok tt, tick s).
Proof.
  unfold noOpenEdge, closeEdge. intros Hno.
  unfold exec. do 2 f_equal. rewrite closeRows_none.
  - rewrite setETable_same. apply withTx_same.
  - intros e He. do 2 (case_bool_decide; [|done]). simpl. by apply Hno.
Qed.

(** C9: when no row of the vertex class with the given id (no edge row
    with the given endpoints) satisfies the last-timeline predicate,
    [closeVertex] and [closeEdge], and [deleteVertex] and [deleteEdge]
    which call them with [tl - 1], return without error and leave the
    rows of all tables as they were: the service differs only by the
    one statement that was sent. *)
Theorem close_absent_is_noop (s : DBService) (endtl tl : Z)
    (vc : vertexClass) (id : N) (ec : edgeClass) (x y : N) :
  (noOpenVertex s endtl vc id → closeVertex endtl vc id s = (Ok tt, tick s)) ∧
  (noOpenEdge s endtl ec x y → closeEdge endtl ec x y s = (Ok tt, tick s)) ∧
  (noOpenVertex s (int64 (tl - 1)) vc id → deleteVertex tl vc id s = (Ok tt, tick s)) ∧
  (noOpenEdge s (int64 (tl - 1)) ec x y → deleteEdge tl ec x y s = (Ok tt, tick s)) ∧
  tx (tick s) = tx s.
Proof.
  split; [apply closeVertex_absent|].
  split; [apply closeEdge_absent|].
  split; [apply closeVertex_absent|].
  split; [apply closeEdge_absent|done].
Qed.

(** ** Machine integers in range *)

Ltac pow2 :=
  change (2 ^ (64 - 1)) with 9223372036854775808 in *;
  change (2 ^ (32 - 1)) with 2147483648 in *;
  change (2 ^ 63) with 9223372036854775808 in *;
  change (2 ^ 64) with 18446744073709551616 in *;
  change (2 ^ 31) with 2147483648 in *;
  change (2 ^ 32) with 4294967296 in *.

Lemma int64_small z : - 2 ^ 63 ≤ z < 2 ^ 63 → int64 z = z.
Proof.
  intros Hz. unfold int64, wrap. pow2.
  rewrite Z.mod_small by lia. lia.
Qed.

Lemma int32_small z : - 2 ^ 31 ≤ z < 2 ^ 31 → int32 z = z.
Proof.
  intros Hz. unfold int32, wrap. pow2.
  rewrite Z.mod_small by lia. lia.
Qed.

Lemma uint64_small z : 0 ≤ z < 2 ^ 64 → uint64 z = z.
Proof. intros Hz. unfold uint64. by rewrite Z.mod_small. Qed.

(** ** The role event feed *)

#[local] Instance timelineDesc_total : Total timelineDesc.
Proof. intros a b. unfold timelineDesc. lia. Qed.

Lemma RoleEventsInternal_run roleID first start after s :
  0 < first < 2 ^ 63 →
  RoleEventsInternal roleID first start after s =
    (Ok (take (Z.to_nat first)
           (merge_sort timelineDesc (roleEventsInBound s roleID start after))),
     tick s).
Proof.
  intros Hfirst. unfold RoleEventsInternal. rewrite query_run.
  rewrite decide_True by lia.
  rewrite uint64_small by (pow2; lia).
  do 4 f_equal. unfold roleEventsInBound.
  apply list_filter_iff. intros e.
  rewrite andb_True, bool_decide_spec.
  destruct (decide (after ≠ 0)) as [Ha|Ha]; [|destruct (decide (start ≠ 0)) as [Hs|Hs]];
    unfold whereCond, sqLt, sqLtOrEq; simpl;
    clear Hfirst; try case_bool_decide; simpl; intuition (done || lia).
Qed.

Lemma pageSize_range first :
  0 ≤ first < 2 ^ 63 - 1 → 0 < pageSize first < 2 ^ 63 - 1.
Proof. unfold pageSize, MaxFetchSize. pow2. case_decide; lia. Qed.


(** ** Grouped rows *)

Lemma scanGroups_snoc {A} (rows : list (N * A)) g r :
  scanGroups (rows ++ [(g, r)]) =
    <[g := default [] (scanGroups rows !! g) ++ [r]]> (scanGroups rows).
Proof. unfold scanGroups. by rewrite foldl_app. Qed.

Lemma scanGroups_lookup {A} (rows : list (N * A)) g :
  default [] (scanGroups rows !! g) = (filter (λ gr, gr.1 = g) rows).*2.
Proof.
  induction rows as [|[g' r] rows IH] using rev_ind; [done|].
  rewrite scanGroups_snoc, filter_app, fmap_app, filter_cons, filter_nil. simpl.
  destruct (decide (g' = g)) as [->|Hne].
  - by rewrite lookup_insert_eq, IH.
  - rewrite lookup_insert_ne by done. by rewrite IH, app_nil_r.
Qed.

Lemma scanGroups_lookup_None {A} (rows : list (N * A)) g :
  scanGroups rows !! g = None ↔ filter (λ gr, gr.1 = g) rows = [].
Proof.
  induction rows as [|[g' r] rows IH] using rev_ind; [done|].
  rewrite scanGroups_snoc, filter_app, filter_cons, filter_nil. simpl.
  destruct (decide (g' = g)) as [->|Hne].
  - rewrite lookup_insert_eq. split; [done|].
    intros Happ. apply app_eq_nil in Happ as [_ ?]. done.
  - rewrite lookup_insert_ne by done. by rewrite app_nil_r.
Qed.

Lemma elem_of_joinRows {A B} (vt : list (Vertex A)) (et : list (Edge B)) point keep v e :
  (v, e) ∈ joinRows vt et point keep ↔
  v ∈ vt ∧ e ∈ et ∧ v_id v = point e ∧ keep v e = true.
Proof.
  unfold joinRows. rewrite list_elem_of_bind. split.
  - intros (v' & Hin & Hv'). apply list_elem_of_bind in Hin as (e' & Hin & He').
    destruct (bool_decide (v_id v' = point e') && keep v' e') eqn:Hk;
      [|by apply elem_of_nil in Hin].
    apply list_elem_of_singleton in Hin. simplify_eq.
    apply andb_true_iff in Hk as [Hid%bool_decide_eq_true Hk]. done.
  - intros (Hv & He & Hid & Hk). exists v. split; [|done].
    apply list_elem_of_bind. exists e. split; [|done].
    rewrite Hk, bool_decide_true by done. simpl. by left.
Qed.

(** All the rows joined for the single source [id] are in its group. *)
Lemma connectedVertices_single tl id ec direction out table s :
  0 < tl →
  tableOf (neighbour ec direction) = Some table →
  outputScans ec (neighbour ec direction) (default (neighbour ec direction) out) = None →
  ∃ groups,
    connectedVertices tl [id] ec direction out None [] s = (Ok groups, tick s)
    ∧ default [] (groups !! id) = connectedAt s tl id ec direction table.
Proof.
  intros Htl Htab Hout. unfold connectedVertices.
  rewrite decide_False by lia. rewrite Htab. unfold bind. rewrite query_run, Hout.
  eexists. split; [done|].
  rewrite scanGroups_lookup. unfold connectedAt, whereCond.
  set (rows := joinRows _ _ _ _).
  assert (Hall : ∀ ve, ve ∈ rows → startEdgePoint direction ve.2 = id).
  { intros [v e] Hve. apply elem_of_joinRows in Hve as (_ & _ & _ & Hk).
    rewrite !andb_true_iff, bool_decide_eq_true in Hk.
    destruct Hk as [[[Hin _] _] _]. by apply list_elem_of_singleton in Hin. }
  clearbody rows. induction rows as [|ve rows IH]; [done|].
  rewrite fmap_cons, filter_cons. simpl.
  rewrite decide_True by (apply Hall; by left). simpl. f_equal.
  apply IH. intros ve' Hve'. apply Hall. by right.
Qed.

(** ** The named queries as views *)

Lemma vertexAt_run tl vc id table s :
  0 < tl → tableOf vc = Some table →
  vertices tl vc 0 (Some (λ r, sqEq (Some (v_id r)) id)) [] s =
    (Ok (filter (λ r, holds (timeLineCond (curTl s) tl r)
                      && holds (sqEq (Some (v_id r)) id)) (table (tx s))),
     tick s).
Proof.
  intros Htl Htab. rewrite (vertices_run tl vc _ _ _ table) by done.
  unfold applyLimit, orderBy. by rewrite decide_True.
Qed.

Lemma RoleInternal_run tl id s :
  0 < tl → RoleInternal tl id s = (Ok (roleAt s tl id), tick s).
Proof.
  intros Htl. unfold RoleInternal.
  by rewrite (bind_ok _ _ _ _ _ (vertexAt_run tl vertexClassRole id tb_role s Htl eq_refl)).
Qed.

Lemma MemberInternal_run tl id s :
  0 < tl → MemberInternal tl id s = (Ok (memberAt s tl id), tick s).
Proof.
  intros Htl. unfold MemberInternal.
  by rewrite (bind_ok _ _ _ _ _ (vertexAt_run tl vertexClassMember id tb_member s Htl eq_refl)).
Qed.

Lemma fmap_default_nil {A B} (f : A → B) (o : option (list A)) :
  default [] (fmap (M:=list) f <$> o) = f <$> default [] o.
Proof. by destruct o. Qed.

Lemma ChildRolesInternal_run tl id orderBys s :
  0 < tl →
  ∃ groups,
    ChildRolesInternal tl [id] orderBys s = (Ok groups, tick s)
    ∧ default [] (groups !! id) = childRolesAt s tl id.
Proof.
  intros Htl. unfold ChildRolesInternal.
  destruct (connectedVertices_single tl id edgeClassRoleRole edgeDirectionOut None
              tb_role s Htl eq_refl eq_refl) as (groups & Hrun & Hgroup).
  unfold connectedVertices in *. rewrite decide_False in * by lia. simpl in *.
  rewrite (bind_ok _ _ _ _ _ Hrun). eexists. split; [done|].
  unfold neighbours, childRolesAt. rewrite lookup_fmap, fmap_default_nil.
  by rewrite Hgroup.
Qed.

Lemma RoleParentInternal_run tl id s :
  0 < tl →
  ∃ groups,
    RoleParentInternal tl [id] s = (Ok groups, tick s)
    ∧ groups !! id = head (parentRolesAt s tl id).
Proof.
  intros Htl. unfold RoleParentInternal.
  destruct (connectedVertices_single tl id edgeClassRoleRole edgeDirectionIn None
              tb_role s Htl eq_refl eq_refl) as (groups & Hrun & Hgroup).
  unfold connectedVertices in *. rewrite decide_False in * by lia. simpl in *.
  rewrite (bind_ok _ _ _ _ _ Hrun). eexists. split; [done|].
  unfold firstOfGroups, neighbours, parentRolesAt.
  rewrite lookup_omap, lookup_fmap, <- Hgroup.
  by destruct (groups !! id) as [[|ve rows]|].
Qed.

Lemma RoleMemberEdgesInternal_run tl id orderBys s :
  0 < tl →
  ∃ groups,
    RoleMemberEdgesInternal tl [id] orderBys s = (Ok groups, tick s)
    ∧ rme_Member <$> default [] (groups !! id) = roleMembersAt s tl id.
Proof.
  intros Htl. unfold RoleMemberEdgesInternal.
  destruct (connectedVertices_single tl id edgeClassRoleMember edgeDirectionIn
              (Some vertexClassRoleMemberEdge) tb_member s Htl eq_refl eq_refl)
    as (groups & Hrun & Hgroup).
  unfold connectedVertices in *. rewrite decide_False in * by lia. simpl in *.
  rewrite (bind_ok _ _ _ _ _ Hrun). eexists. split; [done|].
  unfold roleMembersAt. rewrite lookup_fmap, fmap_default_nil, Hgroup.
  rewrite <- list_fmap_compose. done.
Qed.

Lemma memberIsLeadLink_run tl memberID roleID s :
  0 < tl →
  ∃ s', memberIsLeadLink tl memberID roleID s
          = (Ok (firstLeadLinkFiller s tl memberID roleID), s')
        ∧ tx s' = tx s ∧ curTl s' = curTl s.
Proof.
  intros Htl. unfold memberIsLeadLink, firstLeadLinkFiller.
  destruct (ChildRolesInternal_run tl roleID [] s Htl) as (groups & Hrun & Hgroup).
  rewrite (bind_ok _ _ _ _ _ Hrun), Hgroup.
  change (λ child : Role, RoleType_ (v_attrs child) = RoleTypeLeadLink) with isLeadLink.
  destruct (head (filter isLeadLink (childRolesAt s tl roleID))) as [leadLink|];
    [|by eexists].
  destruct (RoleMemberEdgesInternal_run tl (v_id leadLink) [] (tick s) Htl)
    as (egroups & Herun & Hegroup).
  rewrite (bind_ok _ _ _ _ _ Herun).
  change (roleMembersAt (tick s) tl (v_id leadLink))
    with (roleMembersAt s tl (v_id leadLink)) in Hegroup.
  rewrite <- Hegroup.
  destruct (default [] (egroups !! v_id leadLink)) as [|edge edges]; by eexists.
Qed.

Lemma CallingMemberInternal_run tl userid s :
  0 < tl →
  CallingMemberInternal (ctxUserID userid) tl s =
    match callingMemberAt s tl userid with
    | Some m => (Ok m, tick s)
    | None => (Err "unexistent member", tick s)
    end.
Proof.
  intros Htl. unfold CallingMemberInternal, callingMemberAt.
  rewrite (bind_ok _ _ _ _ _ (MemberInternal_run tl userid s Htl)).
  destruct (memberAt s tl userid) as [m|]; [|done]. simpl.
  by case_decide.
Qed.

(** ** Tensions of a member *)

Lemma memberItself_first m rest : memberItself m (m :: rest) = true.
Proof. unfold memberItself. by rewrite decide_True. Qed.

(** Only the first queried id is compared with the calling member: when
    it is the caller's, the tensions of every queried member are read. *)
Lemma MemberTensions_first_is_caller tl userid m rest s :
  0 < tl → callingMemberAt s tl userid = Some m →
  MemberTensions (ctxUserID userid) tl (v_id m :: rest) s =
    bind (MemberTensionsInternal tl (v_id m :: rest)) (λ g, ret (Some g)) (tick s).
Proof.
  intros Htl Hm. unfold MemberTensions.
  pose proof (CallingMemberInternal_run tl userid s Htl) as Hrun.
  rewrite Hm in Hrun. rewrite (bind_ok _ _ _ _ _ Hrun).
  by rewrite memberItself_first.
Qed.

(** C5: [MemberTensions] called by member 1 for the members 1 and 2
    does not return the nil map: it returns the tensions of member 2,
    who is not the caller.  The loop over the queried ids leaves at its
    first iteration, so only the first id is compared with the caller. *)
Theorem MemberTensions_returns_other_member :
  ∃ groups,
    (MemberTensions (ctxUserID 1%N) 1 [1%N; 2%N] twoMembersStore).1 = Ok (Some groups)
    ∧ groups !! 2%N = Some [mkVertex 10%N 1 None (mkTension "noise" "too loud" false "")].
Proof. eexists. split; [vm_compute; reflexivity|]. by vm_compute. Qed.

(** ** Circle permissions *)

Lemma vertexAt_id {A} (table : list (Vertex A)) cur tl id r :
  vertexAt table cur tl id = Some r → v_id r = id.
Proof.
  unfold vertexAt. intros Hhead. apply head_Some_elem_of in Hhead.
  apply list_elem_of_filter in Hhead as [Hp _].
  apply andb_True in Hp as [_ Hid]. unfold sqEq in Hid. simpl in Hid.
  by case_bool_decide.
Qed.

Lemma MemberCirclePermissions_run tl userid roleID cm role s :
  0 < tl →
  callingMemberAt s tl userid = Some cm →
  roleAt s tl roleID = Some role →
  (MemberCirclePermissions (ctxUserID userid) tl roleID s).1 =
    if decide (RoleType_ (v_attrs role) ≠ RoleTypeCircle) then Ok None
    else Ok (Some (permissionsOf
                     (IsAdmin (v_attrs cm) || firstLeadLinkFiller s tl (v_id cm) roleID)
                     (isRootAt s tl roleID))).
Proof.
  intros Htl Hcm Hrole. unfold MemberCirclePermissions.
  pose proof (CallingMemberInternal_run tl userid s Htl) as Hrun.
  rewrite Hcm in Hrun. rewrite (bind_ok _ _ _ _ _ Hrun).
  rewrite (bind_ok _ _ _ _ _ (RoleInternal_run tl roleID (tick s) Htl)).
  change (roleAt (tick s) tl roleID) with (roleAt s tl roleID). rewrite Hrole.
  case_decide as Hcircle; [done|].
  destruct (RoleParentInternal_run tl roleID (tick (tick s)) Htl) as (pg & Hprun & Hpg).
  rewrite (bind_ok _ _ _ _ _ Hprun).
  destruct (memberIsLeadLink_run tl (v_id cm) roleID (tick (tick (tick s))) Htl)
    as (s' & Hlrun & _ & _).
  rewrite (bind_ok _ _ _ _ _ Hlrun). simpl.
  rewrite (vertexAt_id _ _ _ _ _ Hrole), Hpg.
  change (parentRolesAt (tick (tick s)) tl roleID) with (parentRolesAt s tl roleID).
  change (firstLeadLinkFiller (tick (tick (tick s))) tl (v_id cm) roleID)
    with (firstLeadLinkFiller s tl (v_id cm) roleID).
  unfold permissionsOf, isRootAt.
  destruct (head (parentRolesAt s tl roleID)); simpl; [|done].
  by destruct (IsAdmin (v_attrs cm) || firstLeadLinkFiller s tl (v_id cm) roleID).
Qed.

Lemma fillsLeadLink_first s tl memberID roleID :
  fillsLeadLink s tl memberID roleID → firstLeadLinkFiller s tl memberID roleID = true.
Proof.
  intros (l & m & Hl & Hm & Hid). unfold firstLeadLinkFiller.
  rewrite Hl. simpl. rewrite Hm. by apply bool_decide_eq_true.
Qed.

Lemma first_fillsLeadLink s tl memberID roleID :
  (length (filter isLeadLink (childRolesAt s tl roleID)) ≤ 1)%nat →
  (∀ l, length (roleMembersAt s tl l) ≤ 1)%nat →
  firstLeadLinkFiller s tl memberID roleID = true → fillsLeadLink s tl memberID roleID.
Proof.
  intros Hone Hfillers. unfold firstLeadLinkFiller, fillsLeadLink.
  destruct (filter isLeadLink (childRolesAt s tl roleID)) as [|l [|l' ls]] eqn:Hl;
    simpl in *; [done| |lia].
  specialize (Hfillers (v_id l)).
  destruct (roleMembersAt s tl (v_id l)) as [|m [|m' ms]] eqn:Hm; simpl in *; [done| |lia].
  intros Hid%bool_decide_eq_true. by exists l, m.
Qed.



(** ** Member search *)

Lemma append_nil_l (b : string) : "" +:+ b = b.
Proof. reflexivity. Qed.

Lemma append_cons x (a b : string) : String x a +:+ b = String x (a +:+ b).
Proof. reflexivity. Qed.

Ltac append_norm := repeat (rewrite append_cons || rewrite append_nil_l).

Lemma append_assoc3 (a b c : string) : (a +:+ b) +:+ c = a +:+ b +:+ c.
Proof. induction a as [|x a IH]; append_norm; [done|]. by f_equal. Qed.

Lemma sqlLiteral_noQuote s c tail :
  noQuote s = true → Ascii.eqb c "'" = false →
  sqlLiteral (s +:+ String "'" (String c tail)) = Some (s, String c tail).
Proof.
  intros Hs Hc. induction s as [|d s IH].
  - rewrite append_nil_l. simpl. by rewrite Hc.
  - rewrite (append_cons d s). simpl in *.
    apply andb_true_iff in Hs as [Hd Hs]. apply negb_true_iff in Hd.
    rewrite Hd. by rewrite IH.
Qed.

Lemma noQuote_app s t : noQuote (s +:+ t) = noQuote s && noQuote t.
Proof.
  induction s as [|c s IH]; append_norm; simpl; [done|]. by rewrite IH, andb_assoc.
Qed.

Lemma sqlLiteral_pattern s :
  noQuote s = true → sqlLiteral (s +:+ "%')") = Some (s +:+ "%", ")").
Proof.
  intros Hs.
  assert (Heq : s +:+ "%')" = (s +:+ "%") +:+ String "'" (String ")" "")).
  { rewrite append_assoc3. reflexivity. }
  rewrite Heq. apply sqlLiteral_noQuote; [|done].
  by rewrite noQuote_app, Hs.
Qed.

Lemma readLike_noQuote_fullname s :
  noQuote s = true →
  readLike "member.fullname" (likeText "member.fullname" s) = Some ("%" +:+ s +:+ "%").
Proof.
  intros Hs. unfold readLike, likeText. append_norm. simpl.
  by rewrite sqlLiteral_pattern.
Qed.

Lemma readLike_noQuote_username s :
  noQuote s = true →
  readLike "member.UserName" (likeText "member.UserName" s) = Some ("%" +:+ s +:+ "%").
Proof.
  intros Hs. unfold readLike, likeText. append_norm. simpl.
  by rewrite sqlLiteral_pattern.
Qed.


(** ** A role created and deleted in one commit *)

(** C3: the log [createThenDelete] creates the role 2 in the circle 1
    and deletes it again at the same timeline 2.  After the creation
    the digest of the circle 1 at timeline 2 marks the role 2 as New.
    Applying the deletion then panics on a nil role: the digest pass
    looks for the parent of the role at timeline 1, where the edge
    written at timeline 2 is not visible, so the entry is never
    removed.  The graph pass of the deletion had closed neither the role
    row nor the edge, which were written at timeline 2 as well: the role
    2 is still returned at timeline 2. *)
Theorem RoleDeleted_in_commit_of_creation_panics :
  (forEach createThenDelete (ApplyEvent 1) newDBService).1 = Panic nilDereference
  ∧ (forEach createOnly (ApplyEvent 1) newDBService).1 = Ok tt
  ∧ (ChangedRoles <$> digestAt (stateAfter (forEach createOnly (ApplyEvent 1)) newDBService)
                        2 1%N) = Some {[2%N := roleChangeOf ChangeTypeNew]}
  ∧ (RoleParentInternal (int64 (2 - 1)) [2%N]
       (stateAfter (forEach createOnly (ApplyEvent 1)) newDBService)).1 = Ok ∅
  ∧ (ChangedRoles <$> digestAt (stateAfter (forEach createThenDelete (ApplyEvent 1))
                                  newDBService) 2 1%N)
      = Some {[2%N := roleChangeOf ChangeTypeNew]}
  ∧ roleAt (stateAfter (forEach createThenDelete (ApplyEvent 1)) newDBService) 2 2%N
      = Some (mkVertex 2%N 2 None (mkRole RoleTypeNormal 1 "Scribe" "")).
Proof. repeat split; by vm_compute. Qed.

(** ** The depth of roles *)


(** ** Instances of the properties on example stores *)

Lemma timeLineCond_fast_path_equiv_witness :
  temporal_ok 5 (mkVertex 1%N 3 None tt)
  ∧ (holds (timeLineCond 5 5 (mkVertex 1%N 3 None tt))
       = holds (timeLineCondGeneral 5 (mkVertex 1%N 3 None tt)))
  ∧ (holds (timeLineCond 5 5 (mkVertex 1%N 3 None tt)) = true
     ↔ live_at 5 (mkVertex 1%N 3 None tt)).
Proof.
  assert (Hok : temporal_ok 5 (mkVertex 1%N 3 None tt)).
  { split; [simpl; lia|]. intros e He. discriminate He. }
  split; [exact Hok|].
  exact (timeLineCond_fast_path_equiv 5 (mkVertex 1%N 3 None tt) Hok).
Defined.


Lemma RootRole_unique_or_absent_witness :
  0 < 1
  ∧ Forall (temporal_ok (curTl twoFillersStore)) (tb_role (tx twoFillersStore))
  ∧ RootRole 1 twoFillersStore =
      (Ok (Some (mkVertex 1%N 1 None (mkRole RoleTypeCircle 0 "General" ""))),
       tick twoFillersStore).
Proof.
  assert (Htl : 0 < 1) by done.
  assert (Hok : Forall (temporal_ok (curTl twoFillersStore)) (tb_role (tx twoFillersStore))).
  { repeat constructor; simpl; try lia; intros e He; discriminate He. }
  split; [exact Htl|]. split; [exact Hok|].
  destruct (RootRole_unique_or_absent 1 twoFillersStore Htl Hok) as [Hone _].
  apply Hone. reflexivity.
Defined.


Lemma close_absent_is_noop_witness :
  noOpenVertex twoFillersStore 0 vertexClassRole 9%N
  ∧ closeVertex 0 vertexClassRole 9%N twoFillersStore = (Ok tt, tick twoFillersStore)
  ∧ noOpenEdge twoFillersStore 0 edgeClassRoleRole 1%N 2%N
  ∧ closeEdge 0 edgeClassRoleRole 1%N 2%N twoFillersStore = (Ok tt, tick twoFillersStore).
Proof.
  assert (Hv : noOpenVertex twoFillersStore 0 vertexClassRole 9%N).
  { intros r Hr Hid. simpl in Hr.
    apply list_elem_of_In in Hr. simpl in Hr.
    destruct Hr as [<-|[<-|[]]]; discriminate Hid. }
  assert (He : noOpenEdge twoFillersStore 0 edgeClassRoleRole 1%N 2%N).
  { intros e Hin _ _. simpl in Hin.
    apply list_elem_of_In in Hin. simpl in Hin.
    destruct Hin as [<-|[]]. reflexivity. }
  destruct (close_absent_is_noop twoFillersStore 0 1 vertexClassRole 9%N
              edgeClassRoleRole 1%N 2%N) as (Hcv & Hce & _).
  split; [exact Hv|]. split; [exact (Hcv Hv)|]. split; [exact He|exact (Hce He)].
Defined.

(** ** Open rows *)

Lemma holds_timeLineCond_open `{Temporal R} (cur : Z) (r : R) :
  Is_true (holds (timeLineCond cur cur r)) ↔ isOpen r.
Proof. rewrite Is_true_true. apply holds_timeLineCond_current. Qed.

(** At the timeline before a new one the live rows are the open rows. *)
Lemma holds_timeLineCond_before `{Temporal R} (tl : Z) (r : R) :
  temporal_ok (tl - 1) r →
  Is_true (holds (timeLineCond tl (tl - 1) r)) ↔ isOpen r.
Proof.
  intros [Hs He]. rewrite Is_true_true. unfold timeLineCond.
  rewrite decide_False by lia. rewrite holds_timeLineCondGeneral.
  unfold live_at, isOpen. destruct (end_tl r) as [e|]; [|by intuition].
  specialize (He e eq_refl). split; [lia|done].
Qed.

Lemma holds_lastTimeLineCond_before `{Temporal R} (tl : Z) (r : R) :
  Is_true (holds (lastTimeLineCond tl (tl - 1) r)) ↔ isOpen r ∧ start_tl r < tl.
Proof.
  rewrite Is_true_true. unfold lastTimeLineCond, isOpen, sqIsNull, sqLtOrEq.
  rewrite decide_False by lia.
  destruct (end_tl r) as [e|]; simpl; try case_bool_decide; simpl;
    intuition (done || lia).
Qed.

Lemma filter_closeRows_vertex {A} endtl (sel : Vertex A → bool) (rows : list (Vertex A)) :
  filter isOpen (closeRows endtl sel rows)
  = filter (λ r, isOpen r ∧ ¬ Is_true (sel r)) rows.
Proof.
  unfold closeRows. induction rows as [|r rows IH]; [done|].
  rewrite fmap_cons, !filter_cons, IH.
  destruct (sel r) eqn:Hsel; simpl; repeat case_decide; try done;
    exfalso; unfold isOpen in *; simpl in *; intuition.
Qed.

Lemma filter_closeRows_edge {B} endtl (sel : Edge B → bool) (rows : list (Edge B)) :
  filter isOpen (closeRows endtl sel rows)
  = filter (λ r, isOpen r ∧ ¬ Is_true (sel r)) rows.
Proof.
  unfold closeRows. induction rows as [|r rows IH]; [done|].
  rewrite fmap_cons, !filter_cons, IH.
  destruct (sel r) eqn:Hsel; simpl; repeat case_decide; try done;
    exfalso; unfold isOpen in *; simpl in *; intuition.
Qed.

(** ** The writers on the role tables *)

Lemma insertVertex_role_run tl id attrs s :
  insertVertex tl vertexClassRole id attrs s =
    (Ok tt, tick (withTx (setRoleTable (tb_role (tx s) ++ [mkVertex id tl None attrs]) (tx s)) s)).
Proof. reflexivity. Qed.

Lemma closeVertex_role_run endtl id s :
  closeVertex endtl vertexClassRole id s =
    (Ok tt, tick (withTx (setRoleTable
       (closeRows endtl
          (λ r, bool_decide (v_id r = id) && holds (lastTimeLineCond (curTl s) endtl r))
          (tb_role (tx s))) (tx s)) s)).
Proof. reflexivity. Qed.

(** [updateVertex] on a role whose open rows were all written before
    [tl]: they are closed, and the new row is the only open row of the
    role. *)
Lemma updateVertex_role tl id attrs s :
  curTl s = tl → - 2 ^ 63 < tl < 2 ^ 63 →
  (∀ r, r ∈ openRoles s → v_id r = id → v_start_tl r < tl) →
  ∃ s', updateVertex tl vertexClassRole id attrs s = (Ok tt, s')
        ∧ curTl s' = tl
        ∧ tb_rolerole (tx s') = tb_rolerole (tx s)
        ∧ openRoles s' = filter (λ r, v_id r ≠ id) (openRoles s) ++ [mkVertex id tl None attrs].
Proof.
  intros Hcur Hrange Hold. unfold updateVertex.
  rewrite int64_small by (pow2; lia).
  rewrite (bind_ok _ _ _ _ _ (closeVertex_role_run (tl - 1) id s)).
  rewrite insertVertex_role_run. eexists. split; [done|].
  split; [done|]. split; [by destruct s as [[] ? ? ?]|].
  unfold openRoles. simpl.
  rewrite filter_app, filter_closeRows_vertex. f_equal.
  rewrite list_filter_filter. apply filter_ext_elem. intros r Hr.
  rewrite andb_True, bool_decide_spec, Hcur, holds_lastTimeLineCond_before.
  split.
  - intros [Ho Hn]. split; [|done]. intros Hid. apply Hn. split; [done|].
    split; [done|]. apply Hold; [|done]. by apply list_elem_of_filter.
  - intros [Hid Ho]. split; [done|]. by intros [? _].
Qed.

Lemma insertVertex_role tl id attrs s :
  ∃ s', insertVertex tl vertexClassRole id attrs s = (Ok tt, s')
        ∧ curTl s' = curTl s
        ∧ tb_rolerole (tx s') = tb_rolerole (tx s)
        ∧ tb_role (tx s') = tb_role (tx s) ++ [mkVertex id tl None attrs]
        ∧ openRoles s' = openRoles s ++ [mkVertex id tl None attrs].
Proof.
  rewrite insertVertex_role_run. eexists. split; [done|]. split; [done|].
  split; [by destruct s as [[] ? ? ?]|]. split; [by destruct s as [[] ? ? ?]|].
  unfold openRoles. simpl. by rewrite filter_app.
Qed.

Lemma addEdge_rolerole tl x y s :
  ∃ s', addEdge tl edgeClassRoleRole x y tt s = (Ok tt, s')
        ∧ curTl s' = curTl s
        ∧ tb_role (tx s') = tb_role (tx s)
        ∧ tb_rolerole (tx s') = tb_rolerole (tx s) ++ [mkEdge tl None x y tt]
        ∧ openEdges s' = openEdges s ++ [mkEdge tl None x y tt].
Proof.
  unfold addEdge, exec. eexists. split; [done|]. split; [done|].
  split; [by destruct s as [[] ? ? ?]|]. split; [by destruct s as [[] ? ? ?]|].
  unfold openEdges. simpl. by rewrite filter_app.
Qed.

(** [deleteEdge] on a role edge whose open rows were written before
    [tl]. *)
Lemma deleteEdge_rolerole tl x y s :
  curTl s = tl → - 2 ^ 63 < tl < 2 ^ 63 →
  (∀ e, e ∈ openEdges s → e_x e = x → e_y e = y → e_start_tl e < tl) →
  ∃ s', deleteEdge tl edgeClassRoleRole x y s = (Ok tt, s')
        ∧ curTl s' = tl
        ∧ tb_role (tx s') = tb_role (tx s)
        ∧ openEdges s' = filter (λ e, ¬ (e_x e = x ∧ e_y e = y)) (openEdges s).
Proof.
  intros Hcur Hrange Hold. unfold deleteEdge, closeEdge, exec.
  rewrite int64_small by (pow2; lia).
  eexists. split; [done|]. split; [done|]. split; [by destruct s as [[] ? ? ?]|].
  unfold openEdges. simpl.
  rewrite filter_closeRows_edge, list_filter_filter.
  apply filter_ext_elem. intros e He.
  rewrite !andb_True, !bool_decide_spec, Hcur, holds_lastTimeLineCond_before.
  split.
  - intros [Ho Hn]. split; [|done]. intros [Hx Hy]. apply Hn.
    split; [done|]. split; [done|]. apply Hold; [|done..].
    by apply list_elem_of_filter.
  - intros [Hxy Ho]. split; [done|]. intros [Hboth _]. by apply Hxy.
Qed.

(** ** Reading the role tree *)

Lemma elem_of_connectedAt s tl id ec direction table v e :
  (v, e) ∈ connectedAt s tl id ec direction table ↔
  v ∈ table (tx s) ∧ e ∈ etableOf ec (tx s)
  ∧ v_id v = endEdgePoint direction e ∧ startEdgePoint direction e = id
  ∧ Is_true (holds (timeLineCond (curTl s) tl v))
  ∧ Is_true (holds (timeLineCond (curTl s) tl e)).
Proof.
  unfold connectedAt. rewrite elem_of_joinRows.
  rewrite !andb_true_iff, bool_decide_eq_true, list_elem_of_singleton, !Is_true_true.
  intuition.
Qed.

Lemma childRolesAt_elem s tl A c :
  curTl s = tl →
  c ∈ childRolesAt s tl A ↔
  c ∈ openRoles s ∧ ∃ e, e ∈ openEdges s ∧ e_x e = A ∧ e_y e = v_id c.
Proof.
  intros Hcur. unfold childRolesAt. rewrite list_elem_of_fmap. split.
  - intros ([v e] & -> & Hve). apply elem_of_connectedAt in Hve.
    rewrite Hcur, !holds_timeLineCond_open in Hve. simpl in *.
    destruct Hve as (Hv & He & Hid & Hx & Hov & Hoe).
    split; [by apply list_elem_of_filter|].
    exists e. split; [by apply list_elem_of_filter|done].
  - intros (Hc & e & He & Hx & Hy).
    apply list_elem_of_filter in Hc as [Hoc Hc].
    apply list_elem_of_filter in He as [Hoe He].
    exists (c, e). split; [done|]. apply elem_of_connectedAt.
    rewrite Hcur, !holds_timeLineCond_open. simpl. done.
Qed.

Lemma parentRolesAt_elem s tl c p :
  curTl s = tl →
  p ∈ parentRolesAt s tl c ↔
  p ∈ openRoles s ∧ ∃ e, e ∈ openEdges s ∧ e_x e = v_id p ∧ e_y e = c.
Proof.
  intros Hcur. unfold parentRolesAt. rewrite list_elem_of_fmap. split.
  - intros ([v e] & -> & Hve). apply elem_of_connectedAt in Hve.
    rewrite Hcur, !holds_timeLineCond_open in Hve. simpl in *.
    destruct Hve as (Hv & He & Hid & Hx & Hov & Hoe).
    split; [by apply list_elem_of_filter|].
    exists e. split; [by apply list_elem_of_filter|done].
  - intros (Hc & e & He & Hx & Hy).
    apply list_elem_of_filter in Hc as [Hoc Hc].
    apply list_elem_of_filter in He as [Hoe He].
    exists (p, e). split; [done|]. apply elem_of_connectedAt.
    rewrite Hcur, !holds_timeLineCond_open. simpl. done.
Qed.

(** The parents read at the timeline before a new one. *)
Lemma parentRolesAt_before_elem s tl c p :
  curTl s = tl → writtenBefore tl s →
  p ∈ parentRolesAt s (tl - 1) c ↔
  p ∈ openRoles s ∧ ∃ e, e ∈ openEdges s ∧ e_x e = v_id p ∧ e_y e = c.
Proof.
  intros Hcur [Hroles Hedges].
  rewrite Forall_forall in Hroles. rewrite Forall_forall in Hedges.
  unfold parentRolesAt. rewrite list_elem_of_fmap. split.
  - intros ([v e] & -> & Hve). apply elem_of_connectedAt in Hve. simpl in *.
    destruct Hve as (Hv & He & Hid & Hx & Hov & Hoe).
    rewrite Hcur, holds_timeLineCond_before in Hov by (by apply Hroles).
    rewrite Hcur, holds_timeLineCond_before in Hoe by (by apply Hedges).
    split; [by apply list_elem_of_filter|].
    exists e. split; [by apply list_elem_of_filter|done].
  - intros (Hc & e & He & Hx & Hy).
    apply list_elem_of_filter in Hc as [Hoc Hc].
    apply list_elem_of_filter in He as [Hoe He].
    exists (p, e). split; [done|]. apply elem_of_connectedAt. simpl.
    rewrite Hcur, !holds_timeLineCond_before by (by (apply Hroles || apply Hedges)).
    done.
Qed.

Lemma roleAt_open s tl id :
  curTl s = tl → roleAt s tl id = head (filter (λ r, v_id r = id) (openRoles s)).
Proof.
  intros Hcur. unfold roleAt, vertexAt, openRoles. f_equal.
  rewrite list_filter_filter. apply list_filter_iff. intros r.
  rewrite andb_True, Hcur, holds_timeLineCond_open. unfold sqEq. simpl.
  case_bool_decide; simpl; tauto.
Qed.

Lemma NoDup_fmap_eq {A B} (f : A → B) (l : list A) x y :
  NoDup (f <$> l) → x ∈ l → y ∈ l → f x = f y → x = y.
Proof.
  induction l as [|a l IH]; intros Hnd Hx Hy Hf; [by apply elem_of_nil in Hx|].
  rewrite fmap_cons in Hnd. apply NoDup_cons in Hnd as [Hna Hnd].
  apply elem_of_cons in Hx as [->|Hx]; apply elem_of_cons in Hy as [->|Hy]; try done.
  - exfalso. apply Hna. rewrite Hf. apply list_elem_of_fmap. by exists y.
  - exfalso. apply Hna. rewrite <- Hf. apply list_elem_of_fmap. by exists x.
  - by apply IH.
Qed.

Lemma head_filter_unique {A B} `{EqDecision B} (f : A → B) (l : list A) x :
  NoDup (f <$> l) → x ∈ l → head (filter (λ r, f r = f x) l) = Some x.
Proof.
  intros Hnd Hx.
  destruct (filter (λ r, f r = f x) l) as [|y ys] eqn:Hfil.
  - exfalso. eapply (filter_nil_not_elem_of _ l x); done.
  - simpl. f_equal.
    assert (Hy : y ∈ filter (λ r, f r = f x) l) by (rewrite Hfil; by left).
    apply list_elem_of_filter in Hy as [Hfy Hy].
    by apply (NoDup_fmap_eq f l).
Qed.

Lemma roleAt_unique s tl r :
  curTl s = tl → NoDup (v_id <$> openRoles s) → r ∈ openRoles s →
  roleAt s tl (v_id r) = Some r.
Proof.
  intros Hcur Hnd Hr. rewrite roleAt_open by done. by apply head_filter_unique.
Qed.

Lemma roleAt_Some s tl id r :
  curTl s = tl → roleAt s tl id = Some r → r ∈ openRoles s ∧ v_id r = id.
Proof.
  intros Hcur. rewrite roleAt_open by done. intros Hh.
  apply head_Some_elem_of in Hh. apply list_elem_of_filter in Hh. tauto.
Qed.

Lemma roleAt_None s tl id :
  curTl s = tl → roleAt s tl id = None → ∀ r, r ∈ openRoles s → v_id r ≠ id.
Proof.
  intros Hcur. rewrite roleAt_open by done. intros Hh r Hr Hid.
  apply head_None in Hh. eapply (filter_nil_not_elem_of _ _ r); done.
Qed.

(** ** Rows joined at most once *)

Lemma filter_length_le_1 {A B} `{EqDecision B} (f : A → B) (P : A → Prop)
    `{!∀ x, Decision (P x)} (l : list A) b :
  NoDup (f <$> filter P l) →
  (length (filter (λ x, f x = b ∧ P x) l) ≤ 1)%nat.
Proof.
  induction l as [|a l IH]; [simpl; lia|].
  rewrite !filter_cons. destruct (decide (P a)) as [HP|HP].
  - rewrite fmap_cons. intros [Hna Hnd]%NoDup_cons. specialize (IH Hnd).
    destruct (decide (f a = b ∧ P a)) as [[Hf _]|Hn]; [|done].
    simpl. enough (filter (λ x, f x = b ∧ P x) l = []) as -> by (simpl; lia).
    destruct (filter (λ x, f x = b ∧ P x) l) as [|y ys] eqn:Hfil; [done|].
    exfalso. apply Hna.
    assert (Hy : y ∈ filter (λ x, f x = b ∧ P x) l) by (rewrite Hfil; by left).
    apply list_elem_of_filter in Hy as [[Hfy HPy] Hy].
    rewrite Hf, <- Hfy. apply list_elem_of_fmap. exists y. split; [done|].
    by apply list_elem_of_filter.
  - intros Hnd. rewrite decide_False by (by intros [_ ?]). by apply IH.
Qed.

Lemma joinRows_inner_fst {A B} (v : Vertex A) (et : list (Edge B)) point keep :
  ((e ← et; if bool_decide (v_id v = point e) && keep v e then [(v, e)] else []).*1)
  = replicate (length (filter (λ e, v_id v = point e ∧ Is_true (keep v e)) et)) v.
Proof.
  induction et as [|e et IH]; [done|].
  rewrite bind_cons, fmap_app, IH, filter_cons.
  destruct (decide (v_id v = point e ∧ Is_true (keep v e))) as [[Hid Hk]|Hn].
  - rewrite bool_decide_true by done. apply Is_true_true in Hk. rewrite Hk. done.
  - destruct (bool_decide (v_id v = point e) && keep v e) eqn:Hb; [|done].
    exfalso. apply Hn. apply andb_true_iff in Hb as [Hid Hk].
    apply bool_decide_eq_true in Hid. by rewrite Hk.
Qed.

Lemma joinRows_fst_NoDup {A B} (vt : list (Vertex A)) (et : list (Edge B)) point keep
    (P : Vertex A → Prop) `{!∀ v, Decision (P v)} :
  (∀ v e, keep v e = true → P v) →
  NoDup (v_id <$> filter P vt) →
  (∀ v, length (filter (λ e, v_id v = point e ∧ Is_true (keep v e)) et) ≤ 1)%nat →
  NoDup (v_id <$> (joinRows vt et point keep).*1).
Proof.
  intros HP Hnd Hone. unfold joinRows.
  induction vt as [|v vt IH]; [constructor|].
  rewrite bind_cons, !fmap_app, joinRows_inner_fst.
  rewrite filter_cons in Hnd.
  destruct (length (filter (λ e, v_id v = point e ∧ Is_true (keep v e)) et))
    as [|[|n]] eqn:Hlen.
  - simpl. apply IH. by case_decide; [apply NoDup_cons in Hnd as [_ ?]|].
  - assert (HPv : P v).
    { destruct (filter (λ e, v_id v = point e ∧ Is_true (keep v e)) et) as [|e es] eqn:Hf;
        [done|].
      assert (He : e ∈ filter (λ e, v_id v = point e ∧ Is_true (keep v e)) et)
        by (rewrite Hf; by left).
      apply list_elem_of_filter in He as [[_ Hk] _]. apply Is_true_true in Hk. eauto. }
    rewrite decide_True in Hnd by done. rewrite fmap_cons in Hnd.
    apply NoDup_cons in Hnd as [Hna Hnd]. simpl. apply NoDup_cons. split; [|by apply IH].
    intros Hin. apply Hna.
    apply list_elem_of_fmap in Hin as (v' & Hid & Hv').
    apply list_elem_of_fmap in Hv' as ([v'' e] & -> & Hve). simpl in *.
    apply list_elem_of_bind in Hve as (v3 & Hin3 & Hv3).
    apply list_elem_of_bind in Hin3 as (e3 & Hin3 & He3).
    destruct (bool_decide (v_id v3 = point e3) && keep v3 e3) eqn:Hb;
      [|by apply elem_of_nil in Hin3].
    apply list_elem_of_singleton in Hin3. simplify_eq.
    apply andb_true_iff in Hb as [_ Hk].
    rewrite Hid. apply list_elem_of_fmap. exists v3. split; [done|].
    apply list_elem_of_filter. eauto.
  - specialize (Hone v). lia.
Qed.

Lemma filter_length_mono {A} (P Q : A → Prop)
    `{!∀ x, Decision (P x), !∀ x, Decision (Q x)} (l : list A) :
  (∀ x, P x → Q x) → (length (filter P l) ≤ length (filter Q l))%nat.
Proof.
  intros HPQ. induction l as [|a l IH]; [done|].
  rewrite !filter_cons. destruct (decide (P a)) as [HP|HP].
  - rewrite decide_True by auto. simpl. lia.
  - case_decide; simpl; lia.
Qed.

Lemma childRolesAt_NoDup s tl A :
  curTl s = tl →
  NoDup (v_id <$> openRoles s) → NoDup (e_y <$> openEdges s) →
  NoDup (v_id <$> childRolesAt s tl A).
Proof.
  intros Hcur Hids Hparent. unfold childRolesAt, connectedAt.
  apply (joinRows_fst_NoDup _ _ _ _ isOpen).
  - intros v e Hk. rewrite !andb_true_iff in Hk. destruct Hk as [[[_ Hv] _] _].
    apply Is_true_true in Hv. rewrite Hcur in Hv. by apply holds_timeLineCond_open in Hv.
  - done.
  - intros v.
    etransitivity; [|apply (filter_length_le_1 e_y isOpen (tb_rolerole (tx s)) (v_id v) Hparent)].
    apply filter_length_mono. intros e. simpl.
    rewrite !andb_True, Hcur, !holds_timeLineCond_open. intuition.
Qed.

Lemma NoDup_fmap_filter {A B} (f : A → B) (P : A → Prop) `{!∀ x, Decision (P x)} l :
  NoDup (f <$> l) → NoDup (f <$> filter P l).
Proof.
  induction l as [|a l IH]; [done|]. rewrite fmap_cons, NoDup_cons. intros [Hna Hnd].
  rewrite filter_cons. case_decide; [|by apply IH].
  rewrite fmap_cons. apply NoDup_cons. split; [|by apply IH].
  rewrite list_elem_of_fmap. intros (y & Hy & Hin).
  apply list_elem_of_filter in Hin as [_ Hin].
  apply Hna. rewrite list_elem_of_fmap. eauto.
Qed.

Lemma filter_filter_length_lt {A} (P Q : A → Prop)
    `{!∀ x, Decision (P x), !∀ x, Decision (Q x)} (l : list A) x :
  x ∈ l → P x → ¬ Q x → (length (filter P (filter Q l)) < length (filter P l))%nat.
Proof.
  intros Hx HP HQ. induction l as [|a l IH]; [by apply elem_of_nil in Hx|].
  apply elem_of_cons in Hx as [<-|Hx].
  - rewrite (filter_cons Q), decide_False by done.
    rewrite (filter_cons P x), decide_True by done. simpl.
    rewrite list_filter_filter.
    pose proof (filter_length_mono (λ y, P y ∧ Q y) P l) as Hle.
    assert (Hle' : (length (filter (λ y, P y ∧ Q y) l) ≤ length (filter P l))%nat)
      by (apply Hle; tauto).
    lia.
  - specialize (IH Hx). rewrite (filter_cons Q). rewrite (filter_cons P a).
    destruct (decide (Q a)), (decide (P a)); rewrite ?filter_cons;
      repeat case_decide; simpl; try tauto; lia.
Qed.

(** ** The walk of [updateChildsDepth] *)

Section TraversalFacts.
Variables (T δ : Z) (Etab : list (Edge unit)) (reach : N → Prop).
Hypothesis HT : 0 < T < 2 ^ 63.
Hypothesis Hparent : NoDup (e_y <$> filter isOpen Etab).
Hypothesis Hreach : ∀ e, e ∈ filter isOpen Etab → reach (e_x e) → reach (e_y e).

Local Abbreviation Good := (Good T δ Etab reach).
Local Abbreviation Frame := (Frame T Etab).
Local Abbreviation pendingEdge := (pendingEdge T Etab).
Local Abbreviation PendingSub := (PendingSub T Etab).
Local Abbreviation edgeRows := (edgeRows Etab).
Local Abbreviation childE := (childE Etab).
Local Abbreviation isOld := (isOld T).
Local Abbreviation isNew := (isNew T).
Local Abbreviation oldCount := (oldCount T).

Lemma old_or_new s r : Good s → r ∈ openRoles s → isOld r ∨ isNew r.
Proof.
  intros HG Hr. pose proof (g_start _ _ _ _ _ HG r Hr) as Hle.
  unfold isOld, isNew. lia.
Qed.

Lemma old_not_new r : isOld r → isNew r → False.
Proof. unfold isOld, isNew. lia. Qed.

Lemma row_unique s r1 r2 :
  Good s → r1 ∈ openRoles s → r2 ∈ openRoles s → v_id r1 = v_id r2 → r1 = r2.
Proof. intros HG. apply NoDup_fmap_eq, (g_ids _ _ _ _ _ HG). Qed.

Lemma edge_unique e1 e2 :
  e1 ∈ filter isOpen Etab → e2 ∈ filter isOpen Etab → e_y e1 = e_y e2 → e1 = e2.
Proof. by apply NoDup_fmap_eq. Qed.

(** States that differ in the statement counter only. *)
Lemma Good_tick s : Good s → Good (tick s).
Proof. intros []. by constructor. Qed.

Lemma Frame_tick via s s' : Frame via (tick s) s' → Frame via s s'.
Proof. intros []. by constructor. Qed.

Lemma PendingSub_tick X s s' : PendingSub X (tick s) s' → PendingSub X s s'.
Proof. intros H p c Hp. by apply H. Qed.

Lemma Frame_refl via s : Frame via s s.
Proof. constructor; eauto. Qed.

Lemma Frame_trans (via1 via2 : N → Prop) s s1 s2 :
  (∀ id, via2 id → via1 id ∨ ∃ rp, rp ∈ openRoles s ∧ v_id rp = id ∧ isOld rp) →
  Frame via1 s s1 → Frame via2 s1 s2 → Frame via1 s s2.
Proof.
  intros Hvia [] []. constructor.
  - eauto.
  - eauto.
  - intros r Hr. destruct (f_ids0 r Hr) as (r1 & Hr1 & Hid1).
    destruct (f_ids1 r1 Hr1) as (r2 & Hr2 & Hid2). exists r2. split; [done|congruence].
  - intros r2 Hr2. destruct (f_ids'1 r2 Hr2) as (r1 & Hr1 & Hid1).
    destruct (f_ids'0 r1 Hr1) as (r & Hr & Hid). exists r. split; [done|congruence].
  - lia.
  - intros r2 Hr2 Hnew. destruct (f_made1 r2 Hr2 Hnew) as [Hr1|(e & He & Hy & Hx)].
    + apply f_made0; done.
    + right. exists e. split; [done|]. split; [done|].
      destruct Hx as [Hv|(rp & Hrp & Hid & Hop)].
      * apply Hvia in Hv. done.
      * right. exists rp. eauto.
Qed.
(** One step of the loop: [updateVertex] on the old child [c] of the
    new row [rA]. *)
Lemma updateChild_step s a rA c :
  Good s → rA ∈ openRoles s → v_id rA = a → isNew rA →
  c ∈ openRoles s → isOld c → childE a (v_id c) →
  int32 (Depth (v_attrs rA) + 1) = Depth (v_attrs rA) + 1
  ∧ ∃ s1,
      updateVertex T vertexClassRole (v_id c)
        (withDepth (Depth (v_attrs rA) + 1) (v_attrs c)) s = (Ok tt, s1)
      ∧ Good s1 ∧ Frame (eq a) s s1
      ∧ (oldCount s1 < oldCount s)%nat
      ∧ mkVertex (v_id c) T None (withDepth (Depth (v_attrs rA) + 1) (v_attrs c))
          ∈ openRoles s1
      ∧ (∀ r, r ∈ openRoles s → v_id r ≠ v_id c → r ∈ openRoles s1)
      ∧ (∀ p x, pendingEdge s1 p x → p = v_id c ∨ (pendingEdge s p x ∧ x ≠ v_id c))
      ∧ (∀ rx, rx ∈ openRoles s1 → childE (v_id c) (v_id rx) → isOld rx).
Proof.
  intros HG HrA Ha HnA Hc Hoc (e' & He' & Hx' & Hy').
  set (d := Depth (v_attrs rA)).
  set (rc' := mkVertex (v_id c) T None (withDepth (d + 1) (v_attrs c))).
  assert (Hpend : Depth (v_attrs c) + δ = d + 1).
  { destruct (g_new _ _ _ _ _ HG e' rA c) as [[Hn _]|[_ Hd]]; [|done| |done].
    - unfold edgeRows. rewrite Ha. done.
    - by destruct (old_not_new c). }
  assert (Hd0 : 0 ≤ d) by apply (g_nonneg _ _ _ _ _ HG rA HrA).
  assert (Hreach_c : reach (v_id c)).
  { rewrite <- Hy'. apply Hreach; [done|]. rewrite Hx', <- Ha.
    by apply (g_reach _ _ _ _ _ HG). }
  split.
  { apply int32_small. rewrite <- Hpend. by apply (g_range _ _ _ _ _ HG). }
  destruct (updateVertex_role T (v_id c) (withDepth (d + 1) (v_attrs c)) s)
    as (s1 & Hrun & Hcur1 & Hedges1 & Hrows1).
  { apply (g_cur _ _ _ _ _ HG). }
  { pow2. lia. }
  { intros r Hr Hid. by rewrite (row_unique s r c). }
  exists s1. split; [done|].
  assert (Hin1 : ∀ r, r ∈ openRoles s1 ↔ (r ∈ openRoles s ∧ v_id r ≠ v_id c) ∨ r = rc').
  { intros r. rewrite Hrows1, elem_of_app, list_elem_of_filter, list_elem_of_singleton.
    tauto. }
  assert (Hnew' : isNew rc') by done.
  assert (Hnotold : ∀ r, isOld r → r ≠ rc').
  { intros r Ho ->. by apply (old_not_new rc'). }
  assert (Hsame : ∀ r, r ∈ openRoles s → v_id r = v_id c → r = c).
  { intros r Hr Hid. by apply (row_unique s). }
  assert (Hpar : ∀ e r, e ∈ filter isOpen Etab → r ∈ openRoles s →
                        e_y e = v_id c → v_id r = e_x e → r = rA).
  { intros e r He Hr Hy Hid. apply (row_unique s); [done..|].
    rewrite Hid, Ha, <- Hx'. f_equal. apply edge_unique; [done..|congruence]. }
  assert (Hac : a ≠ v_id c).
  { intros Hac. apply (old_not_new c); [done|].
    rewrite <- (Hsame rA); [done..|congruence]. }
  assert (HG1 : Good s1).
  { constructor.
    - done.
    - rewrite Hedges1. apply (g_edges _ _ _ _ _ HG).
    - rewrite Hrows1, fmap_app. apply NoDup_app. split; [|split].
      + apply NoDup_fmap_filter, (g_ids _ _ _ _ _ HG).
      + intros i Hi. rewrite list_elem_of_fmap in Hi. destruct Hi as (r & -> & Hr).
        apply list_elem_of_filter in Hr as [Hne _]. simpl.
        rewrite list_elem_of_singleton. done.
      + simpl. apply NoDup_singleton.
    - intros r Hr. apply Hin1 in Hr as [[Hr _]| ->].
      + by apply (g_start _ _ _ _ _ HG).
      + simpl. lia.
    - intros e rp rc (He & Hrp & Hrc & Hxp & Hyc) Hop.
      apply Hin1 in Hrp as [[Hrp Hnp]| ->]; [|by destruct (old_not_new rc')].
      apply Hin1 in Hrc as [[Hrc Hnc]| ->].
      + by apply (g_old _ _ _ _ _ HG e rp rc).
      + exfalso. simpl in Hyc. apply (old_not_new rp); [done|].
        by rewrite (Hpar e rp).
    - intros e rp rc (He & Hrp & Hrc & Hxp & Hyc) Hnp.
      apply Hin1 in Hrp as [[Hrp Hidp]| ->]; apply Hin1 in Hrc as [[Hrc Hidc]| ->].
      + by apply (g_new _ _ _ _ _ HG e rp rc).
      + left. split; [done|]. simpl in *. by rewrite (Hpar e rp).
      + right. simpl in Hxp.
        destruct (g_old _ _ _ _ _ HG e c rc) as [Hd Hor]; [done|done|].
        destruct Hor as [Ho|Hnr]; [|by rewrite <- Hxp in Hnr].
        split; [done|]. simpl. lia.
      + exfalso. simpl in *. apply Hac.
        assert (e = e') as -> by (apply edge_unique; [done..|congruence]).
        congruence.
    - intros r Hr Hn. apply Hin1 in Hr as [[Hr _]| ->]; [|done].
      by apply (g_reach _ _ _ _ _ HG).
    - intros r Hr Hn. apply Hin1 in Hr as [[Hr _]| ->].
      + by apply (g_parent _ _ _ _ _ HG).
      + by exists e'.
    - intros r Hr Ho. apply Hin1 in Hr as [[Hr _]| ->].
      + by apply (g_range _ _ _ _ _ HG).
      + by destruct (old_not_new rc').
    - intros r Hr. apply Hin1 in Hr as [[Hr _]| ->].
      + by apply (g_nonneg _ _ _ _ _ HG).
      + simpl. lia. }
  assert (Hcount : (oldCount s1 < oldCount s)%nat).
  { unfold oldCount. rewrite Hrows1, filter_app.
    rewrite (filter_cons _ rc'), decide_False by (unfold isOld; simpl; lia).
    rewrite filter_nil, app_nil_r.
    apply (filter_filter_length_lt _ _ _ c); [done|done|]. by intros Hne. }
  split; [done|]. split; [|split; [done|split; [|split; [|split]]]].
  - constructor.
    + intros r Hr Hn. apply Hin1. left. split; [done|].
      intros Hid. apply (old_not_new c); [done|]. by rewrite <- (Hsame r).
    + intros r Hr Ho. apply Hin1 in Hr as [[Hr _]| ->]; [done|].
      by destruct (old_not_new rc').
    + intros r Hr. destruct (decide (v_id r = v_id c)) as [Hid|Hid].
      * exists rc'. split; [|done]. apply Hin1. by right.
      * exists r. split; [|done]. apply Hin1. by left.
    + intros r Hr. apply Hin1 in Hr as [[Hr _]| ->]; [by exists r|by exists c].
    + lia.
    + intros r Hr Hn. apply Hin1 in Hr as [[Hr _]| ->]; [by left|].
      right. exists e'. split; [done|]. split; [done|]. by left.
  - apply Hin1. by right.
  - intros r Hr Hid. apply Hin1. by left.
  - intros p x (e & rp & rx & (He & Hrp & Hrx & Hxp & Hyx) & <- & <- & Hnp & Hox).
    apply Hin1 in Hrx as [[Hrx Hidx]| ->]; [|by destruct (old_not_new rc')].
    apply Hin1 in Hrp as [[Hrp Hidp]| ->].
    + right. split; [|congruence]. exists e, rp, rx. done.
    + left. done.
  - intros rx Hrx (e & He & Hxe & Hye).
    apply Hin1 in Hrx as [[Hrx Hidx]| ->].
    + destruct (g_old _ _ _ _ _ HG e c rx) as [_ [Ho|Hnr]]; [done|done|done|].
      by rewrite Hxe in Hnr.
    + exfalso. simpl in Hye. apply Hac.
      assert (e = e') as -> by (apply edge_unique; [done..|congruence]).
      congruence.
Qed.

(** The loop over the children of the new row [rA], given that the
    recursive calls do what [updateChildsDepth] is to do. *)
Lemma updateChilds_loop fuel :
  (∀ s a rA, Good s → rA ∈ openRoles s → v_id rA = a → isNew rA →
     (∀ rx, rx ∈ openRoles s → childE a (v_id rx) → isOld rx) →
     (oldCount s < fuel)%nat →
     ∃ s', updateChildsDepth fuel T (Depth (v_attrs rA)) a s = (Ok tt, s')
           ∧ Good s' ∧ Frame (eq a) s s' ∧ PendingSub (λ p c, p = a) s s') →
  ∀ cs s a rA, Good s → rA ∈ openRoles s → v_id rA = a → isNew rA →
    Forall (λ c, c ∈ openRoles s ∧ isOld c ∧ childE a (v_id c)) cs →
    NoDup (v_id <$> cs) → (oldCount s ≤ fuel)%nat →
    ∃ s', forEach cs (updateChild T fuel (int32 (Depth (v_attrs rA) + 1))) s = (Ok tt, s')
          ∧ Good s' ∧ Frame (eq a) s s'
          ∧ PendingSub (λ p c, p = a ∧ c ∈ v_id <$> cs) s s'.
Proof.
  intros Hcall cs.
  induction cs as [|c cs IH]; intros s a rA HG HrA Ha HnA Hcs Hnd Hfuel.
  - exists s. split; [done|]. split; [done|]. split; [apply Frame_refl|].
    intros p c Hp. split; [done|]. intros [_ Hin]. by apply elem_of_nil in Hin.
  - apply Forall_cons in Hcs as [(Hc & Hoc & Hch) Hcs].
    rewrite fmap_cons in Hnd. apply NoDup_cons in Hnd as [Hnc Hnd].
    destruct (updateChild_step s a rA c)
      as (Hint & s1 & Hrun1 & HG1 & HF1 & Hcnt1 & Hrc' & Hkeep & Hpend1 & Hold1);
      [done..|].
    destruct (Hcall s1 (v_id c) _ HG1 Hrc' eq_refl eq_refl Hold1)
      as (s2 & Hrun2 & HG2 & HF2 & HP2); [lia|].
    simpl in Hrun2.
    assert (HrA1 : rA ∈ openRoles s1) by (by apply (f_new _ _ _ _ _ HF1)).
    assert (HrA2 : rA ∈ openRoles s2) by (by apply (f_new _ _ _ _ _ HF2)).
    assert (Hcs2 : Forall (λ c0, c0 ∈ openRoles s2 ∧ isOld c0 ∧ childE a (v_id c0)) cs).
    { rewrite Forall_forall in Hcs. rewrite Forall_forall. intros c0 Hc0.
      destruct (Hcs c0 Hc0) as (Hc0s & Ho0 & Hch0). split; [|done].
      assert (Hne : v_id c0 ≠ v_id c).
      { intros Heq. apply Hnc. rewrite <- Heq. apply list_elem_of_fmap. eauto. }
      assert (Hc01 : c0 ∈ openRoles s1) by (by apply Hkeep).
      destruct (f_ids _ _ _ _ _ HF2 c0 Hc01) as (r2 & Hr2 & Hid2).
      destruct (old_or_new s2 r2 HG2 Hr2) as [Ho2|Hn2].
      - pose proof (f_old _ _ _ _ _ HF2 r2 Hr2 Ho2) as Hr21.
        by rewrite <- (row_unique s1 r2 c0).
      - exfalso.
        destruct (f_made _ _ _ _ _ HF2 r2 Hr2 Hn2) as [Hr21|(e & He & Hye & Hvia)].
        + apply (old_not_new c0); [done|]. by rewrite <- (row_unique s1 r2 c0).
        + destruct Hch0 as (e0 & He0 & Hx0 & Hy0).
          assert (e = e0) as -> by (apply edge_unique; [done..|congruence]).
          destruct Hvia as [Hv|(rp & Hrp & Hidp & Hop)].
          * apply (old_not_new c); [done|].
            rewrite <- (row_unique s rA c); [done..|congruence].
          * apply (old_not_new rp); [done|].
            rewrite (row_unique s1 rp rA); [done..|congruence]. }
    destruct (IH s2 a rA) as (s3 & Hrun3 & HG3 & HF3 & HP3); [done..| |].
    { pose proof (f_count _ _ _ _ _ HF2). lia. }
    exists s3. split; [|split; [done|split]].
    + assert (Hbody : updateChild T fuel (int32 (Depth (v_attrs rA) + 1)) c s = (Ok tt, s2)).
      { unfold updateChild. rewrite Hint. by rewrite (bind_ok _ _ _ _ _ Hrun1). }
      simpl. by rewrite (bind_ok _ _ _ _ _ Hbody).
    + apply (Frame_trans (eq a) (eq a) s s2 s3); [by left| |done].
      apply (Frame_trans (eq a) (eq (v_id c)) s s1 s2); [|done..].
      intros i <-. right. by exists c.
    + intros p x Hp3. destruct (HP3 p x Hp3) as [Hp2 Hn3].
      destruct (HP2 p x Hp2) as [Hp1 Hn2].
      destruct (Hpend1 p x Hp1) as [Heq|[Hp0 Hne]]; [by destruct Hn2|].
      split; [done|]. intros [-> Hin]. rewrite fmap_cons in Hin.
      apply elem_of_cons in Hin as [->|Hin]; [done|]. by apply Hn3.
Qed.

(** [updateChildsDepth] below the new row [rA], all of whose children
    are old: with more fuel than there are old rows it ends, every row
    it has reached is new, and no edge from [rA] is pending. *)
Lemma updateChildsDepth_walk fuel :
  ∀ s a rA, Good s → rA ∈ openRoles s → v_id rA = a → isNew rA →
    (∀ rx, rx ∈ openRoles s → childE a (v_id rx) → isOld rx) →
    (oldCount s < fuel)%nat →
    ∃ s', updateChildsDepth fuel T (Depth (v_attrs rA)) a s = (Ok tt, s')
          ∧ Good s' ∧ Frame (eq a) s s' ∧ PendingSub (λ p c, p = a) s s'.
Proof.
  induction fuel as [|fuel IH]; intros s a rA HG HrA Ha HnA Hold Hfuel; [lia|].
  destruct (ChildRolesInternal_run T a ["role.name"%string] s)
    as (groups & Hq & Hgroups); [lia|].
  pose proof (g_cur _ _ _ _ _ HG) as Hcur.
  pose proof (g_edges _ _ _ _ _ HG) as Hedges.
  destruct (updateChilds_loop fuel IH (childRolesAt s T a) (tick s) a rA)
    as (s' & Hrun & HG' & HF' & HP').
  - by apply Good_tick.
  - done.
  - done.
  - done.
  - rewrite Forall_forall. intros c Hc.
    apply childRolesAt_elem in Hc as [Hc (e & He & Hx & Hy)]; [|done].
    unfold openEdges in He. rewrite Hedges in He.
    assert (Hch : childE a (v_id c)) by (by exists e).
    split; [done|]. split; [by apply Hold|done].
  - apply childRolesAt_NoDup; [done|apply (g_ids _ _ _ _ _ HG)|].
    unfold openEdges. by rewrite Hedges.
  - change (oldCount (tick s)) with (oldCount s). lia.
  - exists s'. split; [|split; [done|split; [by apply Frame_tick|]]].
    + simpl. unfold ChildRoles. rewrite (bind_ok _ _ _ _ _ Hq). rewrite Hgroups.
      exact Hrun.
    + intros p x Hp. destruct (HP' p x Hp) as [Hp0 Hn]. split; [done|].
      intros ->. apply Hn. split; [done|].
      destruct Hp0 as (e & rp & rx & (He & Hrp & Hrx & Hxp & Hyx) & Hx & Hy & _ & _).
      apply list_elem_of_fmap. exists rx. split; [congruence|].
      apply childRolesAt_elem; [done|]. split; [done|]. exists e.
      unfold openEdges. rewrite Hedges. done.
Qed.

(** When no edge is pending the depths of the open rows are those of a
    role tree. *)
Lemma Good_RoleTreeOk s :
  Good s → (∀ p c, ¬ pendingEdge s p c) →
  (∀ e, e ∈ filter isOpen Etab →
     (∃ rp, rp ∈ openRoles s ∧ v_id rp = e_x e)
     ∧ (∃ rc, rc ∈ openRoles s ∧ v_id rc = e_y e)) →
  (∀ r, r ∈ openRoles s → isOld r →
     (∀ e, e ∈ filter isOpen Etab → e_y e ≠ v_id r) → Depth (v_attrs r) = 0) →
  RoleTreeOk s.
Proof.
  intros HG Hnp Hends Hroots.
  assert (HE : openEdges s = filter isOpen Etab).
  { unfold openEdges. by rewrite (g_edges _ _ _ _ _ HG). }
  constructor.
  - apply (g_ids _ _ _ _ _ HG).
  - by rewrite HE.
  - by rewrite HE.
  - rewrite HE. intros e rp rc He Hrp Hrc Hxp Hyc.
    destruct (old_or_new s rp HG Hrp) as [Ho|Hn].
    + by destruct (g_old _ _ _ _ _ HG e rp rc).
    + destruct (g_new _ _ _ _ _ HG e rp rc) as [[_ Hd]|[Ho Hd]]; [done|done|done|].
      exfalso. apply (Hnp (e_x e) (e_y e)). by exists e, rp, rc.
  - rewrite HE. intros r Hr Hnone. destruct (old_or_new s r HG Hr) as [Ho|Hn].
    + by apply Hroots.
    + destruct (g_parent _ _ _ _ _ HG r Hr Hn) as (e & He & Hy). by destruct (Hnone e).
  - apply (g_nonneg _ _ _ _ _ HG).
Qed.

End TraversalFacts.

(** ** The depth invariant of a role tree *)

Lemma RoleTreeOk_depthInvariant s tl :
  curTl s = tl → RoleTreeOk s → depthInvariantAt s tl.
Proof.
  intros Hcur Hok r Hr. unfold rolesAt in Hr.
  apply list_elem_of_filter in Hr as [Hlive Hr].
  rewrite Hcur in Hlive. apply holds_timeLineCond_open in Hlive.
  assert (Hro : r ∈ openRoles s) by (by apply list_elem_of_filter).
  unfold depthOk. destruct (head (parentRolesAt s tl (v_id r))) as [p|] eqn:Hhead.
  - apply head_Some_elem_of in Hhead.
    apply parentRolesAt_elem in Hhead as [Hp (e & He & Hx & Hy)]; [|done].
    pose proof (rt_depth _ Hok e p r He Hp Hro (eq_sym Hx) (eq_sym Hy)) as Hd.
    split; [done|]. pose proof (rt_nonneg _ Hok p Hp). lia.
  - apply head_None in Hhead. apply (rt_root _ Hok r Hro). intros e He Hy.
    destruct (rt_edges _ Hok e He) as [(rp & Hrp & Hidp) _].
    assert (Hin : rp ∈ parentRolesAt s tl (v_id r)).
    { apply parentRolesAt_elem; [done|]. split; [done|]. by exists e. }
    rewrite Hhead in Hin. by apply elem_of_nil in Hin.
Qed.

Lemma filter_all_elem {A} (P : A → Prop) `{!∀ x, Decision (P x)} (l : list A) :
  (∀ x, x ∈ l → P x) → filter P l = l.
Proof.
  induction l as [|a l IH]; intros HP; [done|].
  rewrite filter_cons, decide_True by (apply HP; by left).
  f_equal. apply IH. intros x Hx. apply HP. by right.
Qed.

(** ** [changeRoleParent] on a role tree *)

(** The store in which the edge to the parent of the role [rA] is
    replaced by an edge from [rB] and the row of [rA] rewritten: the
    state in which [changeRoleParent] calls [updateChildsDepth]. *)
Lemma moved_Good T A B s s3 rA rB :
  RoleTreeOk s →
  (∀ r, r ∈ openRoles s → v_start_tl r < T) →
  rA ∈ openRoles s → v_id rA = A → rB ∈ openRoles s → v_id rB = B →
  ¬ rtc (childOf s) A B →
  (∀ r, r ∈ openRoles s → Depth (v_attrs r) < 2 ^ 30) →
  curTl s3 = T →
  openRoles s3 = filter (λ r, v_id r ≠ A) (openRoles s)
                 ++ [mkVertex A T None (withDepth (Depth (v_attrs rB) + 1) (v_attrs rA))] →
  openEdges s3 = filter (λ e, e_y e ≠ A) (openEdges s) ++ [mkEdge T None B A tt] →
  Good T (Depth (v_attrs rB) + 1 - Depth (v_attrs rA)) (tb_rolerole (tx s3))
    (rtc (childOf s) A) s3
  ∧ NoDup (e_y <$> filter isOpen (tb_rolerole (tx s3)))
  ∧ (∀ e, e ∈ filter isOpen (tb_rolerole (tx s3)) →
       rtc (childOf s) A (e_x e) → rtc (childOf s) A (e_y e))
  ∧ (∀ rx, rx ∈ openRoles s3 → childE (tb_rolerole (tx s3)) A (v_id rx) → isOld T rx)
  ∧ (∀ p c, pendingEdge T (tb_rolerole (tx s3)) s3 p c → p = A)
  ∧ (oldCount T s3 < length (openRoles s))%nat.
Proof.
  intros Hok Hstart HrA HA HrB HB Hnd Hdep Hcur3 Hrows3 Hedges3.
  change (filter isOpen (tb_rolerole (tx s3))) with (openEdges s3).
  set (dA := Depth (v_attrs rA)). set (dB := Depth (v_attrs rB)).
  set (rA' := mkVertex A T None (withDepth (dB + 1) (v_attrs rA))) in *.
  set (eBA := mkEdge T None B A tt) in *.
  assert (Hin3 : ∀ r, r ∈ openRoles s3 ↔ (r ∈ openRoles s ∧ v_id r ≠ A) ∨ r = rA').
  { intros r. rewrite Hrows3, elem_of_app, list_elem_of_filter, list_elem_of_singleton.
    tauto. }
  assert (HinE : ∀ e, e ∈ openEdges s3 ↔ (e ∈ openEdges s ∧ e_y e ≠ A) ∨ e = eBA).
  { intros e. rewrite Hedges3, elem_of_app, list_elem_of_filter, list_elem_of_singleton.
    tauto. }
  assert (HAB : A ≠ B) by (intros ->; by apply Hnd).
  assert (HdA : 0 ≤ dA < 2 ^ 30) by (split; [by apply (rt_nonneg _ Hok)|by apply Hdep]).
  assert (HdB : 0 ≤ dB < 2 ^ 30) by (split; [by apply (rt_nonneg _ Hok)|by apply Hdep]).
  assert (Huniq : ∀ r1 r2, r1 ∈ openRoles s → r2 ∈ openRoles s → v_id r1 = v_id r2 → r1 = r2).
  { intros r1 r2. apply NoDup_fmap_eq, (rt_ids _ Hok). }
  assert (HnewA : ∀ r, r ∈ openRoles s → ¬ isNew T r).
  { intros r Hr Hn. specialize (Hstart r Hr). unfold isNew in Hn. lia. }
  assert (HoldA' : ¬ isOld T rA') by (unfold isOld; simpl; lia).
  split; [|split; [|split; [|split; [|split]]]].
  - constructor.
    + done.
    + done.
    + rewrite Hrows3, fmap_app. apply NoDup_app. split; [|split].
      * apply NoDup_fmap_filter, (rt_ids _ Hok).
      * intros i Hi. rewrite list_elem_of_fmap in Hi. destruct Hi as (r & -> & Hr).
        apply list_elem_of_filter in Hr as [Hne _]. simpl.
        by rewrite list_elem_of_singleton.
      * simpl. apply NoDup_singleton.
    + intros r Hr. apply Hin3 in Hr as [[Hr _]| ->].
      * specialize (Hstart r Hr). lia.
      * simpl. lia.
    + intros e rp rc (He & Hrp & Hrc & Hxp & Hyc) Hop.
      change (e ∈ openEdges s3) in He.
      apply Hin3 in Hrp as [[Hrp Hnp]| ->]; [|done].
      apply HinE in He as [[He Hye]| ->].
      * apply Hin3 in Hrc as [[Hrc Hnc]| ->]; [|by destruct Hye].
        split; [by apply (rt_depth _ Hok e)|]. left. by apply Hstart.
      * simpl in *. apply Hin3 in Hrc as [[Hrc Hnc]| ->]; [done|].
        split; [|by right]. simpl. rewrite (Huniq rp rB); [done..|congruence].
    + intros e rp rc (He & Hrp & Hrc & Hxp & Hyc) Hnp.
      change (e ∈ openEdges s3) in He.
      apply Hin3 in Hrp as [[Hrp _]| ->]; [by destruct (HnewA rp)|].
      apply HinE in He as [[He Hye]| ->]; [|by destruct HAB].
      apply Hin3 in Hrc as [[Hrc Hnc]| ->]; [|by destruct Hye].
      right. split; [by apply Hstart|]. simpl in *.
      rewrite (rt_depth _ Hok e rA rc); [|done|done|done|congruence|done].
      fold dA. lia.
    + intros r Hr Hn. apply Hin3 in Hr as [[Hr _]| ->]; [by destruct (HnewA r)|].
      simpl. done.
    + intros r Hr Hn. apply Hin3 in Hr as [[Hr _]| ->]; [by destruct (HnewA r)|].
      exists eBA. split; [|done]. change (eBA ∈ openEdges s3). apply HinE. by right.
    + intros r Hr Ho. apply Hin3 in Hr as [[Hr _]| ->]; [|done].
      pose proof (rt_nonneg _ Hok r Hr). pose proof (Hdep r Hr).
      change (2 ^ 30) with 1073741824 in *. pow2. lia.
    + intros r Hr. apply Hin3 in Hr as [[Hr _]| ->]; [by apply (rt_nonneg _ Hok)|].
      simpl. lia.
  - rewrite Hedges3, fmap_app. apply NoDup_app. split; [|split].
    + apply NoDup_fmap_filter, (rt_parent _ Hok).
    + intros i Hi. rewrite list_elem_of_fmap in Hi. destruct Hi as (e & -> & He).
      apply list_elem_of_filter in He as [Hne _]. simpl.
      by rewrite list_elem_of_singleton.
    + simpl. apply NoDup_singleton.
  - intros e He Hr. apply HinE in He as [[He _]| ->]; [|by destruct Hnd].
    eapply rtc_r; [done|]. by exists e.
  - intros rx Hrx (e & He & Hxe & Hye). change (e ∈ openEdges s3) in He.
    apply Hin3 in Hrx as [[Hrx _]| ->]; [by apply Hstart|].
    exfalso. apply HinE in He as [[He Hne]| ->]; [done|]. by apply HAB.
  - intros p c (e & rp & rc & (He & Hrp & Hrc & Hxp & Hyc) & <- & _ & Hn & _).
    apply Hin3 in Hrp as [[Hrp _]| ->]; [by destruct (HnewA rp)|done].
  - unfold oldCount. rewrite Hrows3, filter_app.
    rewrite (filter_cons _ rA'), decide_False by done.
    rewrite filter_nil, app_nil_r.
    unfold isOld in *.
    pose proof (length_filter (λ r : Role, v_start_tl r < T) (openRoles s)) as Hle.
    assert (Hlt : (length (filter (λ r : Role, (v_start_tl r < T)%Z)
                             (filter (λ r, v_id r ≠ A) (openRoles s)))
                   < length (filter (λ r : Role, (v_start_tl r < T)%Z) (openRoles s)))%nat).
    { apply (filter_filter_length_lt _ _ _ rA); [done|by apply Hstart|].
      intros Hne. by apply Hne. }
    lia.
Qed.

(** [changeRoleParent] up to its call of [updateChildsDepth]. *)
Lemma changeRoleParent_prefix fuel T A B s rA rB :
  curTl s = T → 1 < T < 2 ^ 63 → writtenBefore T s → RoleTreeOk s →
  rA ∈ openRoles s → v_id rA = A → rB ∈ openRoles s → v_id rB = B →
  (∀ r, r ∈ openRoles s → Depth (v_attrs r) < 2 ^ 30) →
  ∃ s3, changeRoleParent fuel T A (Some B) s
        = updateChildsDepth fuel T (Depth (v_attrs rB) + 1) A s3
    ∧ curTl s3 = T
    ∧ openRoles s3 = filter (λ r, v_id r ≠ A) (openRoles s)
                 ++ [mkVertex A T None (withDepth (Depth (v_attrs rB) + 1) (v_attrs rA))]
    ∧ openEdges s3 = filter (λ e, e_y e ≠ A) (openEdges s) ++ [mkEdge T None B A tt].
Proof.
  intros Hcur HT [Hwr Hwe] Hok HrA HA HrB HB Hdep.
  pose proof Hwr as Hwr'. pose proof Hwe as Hwe'.
  rewrite Forall_forall in Hwr. rewrite Forall_forall in Hwe.
  assert (Hstart : ∀ r, r ∈ openRoles s → v_start_tl r < T).
  { intros r Hr. apply list_elem_of_filter in Hr as [_ Hr].
    destruct (Hwr r Hr) as [Hs _]. simpl in Hs. lia. }
  subst A B. unfold changeRoleParent.
  rewrite int64_small by (pow2; lia).
  destruct (RoleParentInternal_run (T - 1) (v_id rA) s) as (groups & Hq & Hgroups); [lia|].
  rewrite (bind_ok _ _ _ _ _ Hq).
  assert (Hdel : ∃ s1,
    match groups !! v_id rA with
    | Some curParent => deleteEdge T edgeClassRoleRole (v_id curParent) (v_id rA)
    | None => ret tt
    end (tick s) = (Ok tt, s1)
    ∧ curTl s1 = T ∧ tb_role (tx s1) = tb_role (tx s)
    ∧ openEdges s1 = filter (λ e, e_y e ≠ v_id rA) (openEdges s)).
  { rewrite Hgroups.
    destruct (head (parentRolesAt s (T - 1) (v_id rA))) as [p|] eqn:Hhead.
    - apply head_Some_elem_of in Hhead.
      apply parentRolesAt_before_elem in Hhead as [Hp (e & He & Hx & Hy)];
        [|done|by split].
      destruct (deleteEdge_rolerole T (v_id p) (v_id rA) (tick s))
        as (s1 & Hrun & Hc & Htr & Hoe).
      + done.
      + pow2. lia.
      + intros e0 He0 _ _. apply list_elem_of_filter in He0 as [_ He0].
        destruct (Hwe e0 He0) as [Hs _]. simpl in Hs. lia.
      + exists s1. split; [done|]. split; [done|]. split; [done|].
        rewrite Hoe. apply filter_ext_elem. intros e0 He0. split.
        * intros Hn Hy0. apply Hn. split; [|done].
          rewrite <- Hx. f_equal.
          apply (NoDup_fmap_eq e_y (openEdges s)); [apply (rt_parent _ Hok)|done|done|].
          congruence.
        * by intros Hn [_ Hy0].
    - exists (tick s). split; [done|]. split; [done|]. split; [done|].
      symmetry. apply filter_all_elem. intros e He Hy.
      destruct (rt_edges _ Hok e He) as [(rp & Hrp & Hidp) _].
      assert (Hin : rp ∈ parentRolesAt s (T - 1) (v_id rA)).
      { apply parentRolesAt_before_elem; [done|by split|]. split; [done|]. by exists e. }
      apply head_None in Hhead. rewrite Hhead in Hin. by apply elem_of_nil in Hin. }
  destruct Hdel as (s1 & Hrun1 & Hcur1 & Hroles1 & Hedges1).
  rewrite (bind_ok _ _ _ _ _ Hrun1).
  destruct (addEdge_rolerole T (v_id rB) (v_id rA) s1)
    as (s2 & Hrun2 & Hcur2 & Hroles2 & Htab2 & Hedges2).
  rewrite (bind_ok _ _ _ _ _ Hrun2).
  assert (HR2 : openRoles s2 = openRoles s) by (unfold openRoles; congruence).
  assert (HcurT2 : curTl s2 = T) by congruence.
  assert (HroleA : roleAt s2 T (v_id rA) = Some rA).
  { apply roleAt_unique; [done|rewrite HR2; apply (rt_ids _ Hok)|by rewrite HR2]. }
  assert (HroleB : roleAt (tick s2) T (v_id rB) = Some rB).
  { change (roleAt (tick s2) T (v_id rB)) with (roleAt s2 T (v_id rB)).
    apply roleAt_unique; [done|rewrite HR2; apply (rt_ids _ Hok)|by rewrite HR2]. }
  rewrite (bind_ok _ _ _ _ _ (RoleInternal_run T (v_id rA) s2 ltac:(lia))).
  cbv beta. rewrite HroleA.
  erewrite bind_ok; cycle 1.
  { erewrite bind_ok; [|apply RoleInternal_run; lia].
    cbv beta. rewrite HroleB. reflexivity. }
  cbv beta.
  rewrite int32_small; cycle 1.
  { pose proof (rt_nonneg _ Hok rB HrB). pose proof (Hdep rB HrB).
    change (2 ^ 30) with 1073741824 in *. pow2. lia. }
  destruct (updateVertex_role T (v_id rA)
              (withDepth (Depth (v_attrs rB) + 1) (v_attrs rA)) (tick (tick s2)))
    as (s3 & Hrun3 & Hcur3 & Htab3 & Hrows3).
  { exact HcurT2. }
  { pow2. lia. }
  { intros r Hr _. apply Hstart. by rewrite <- HR2. }
  rewrite (bind_ok _ _ _ _ _ Hrun3).
  exists s3. split; [done|]. split; [done|]. split.
  - rewrite Hrows3. change (openRoles (tick (tick s2))) with (openRoles s2).
    by rewrite HR2.
  - unfold openEdges at 1. rewrite Htab3.
    change (filter isOpen (tb_rolerole (tx (tick (tick s2))))) with (openEdges s2).
    by rewrite Hedges2, Hedges1.
Qed.

(** [changeRoleParent] moves the role [rA] of a role tree below the
    role [rB], which is not in the subtree of [rA]: with as much fuel
    as there are open role rows it ends, and the store is a role tree
    again. *)
Lemma changeRoleParent_RoleTreeOk fuel T A B s rA rB :
  curTl s = T → 1 < T < 2 ^ 63 → writtenBefore T s → RoleTreeOk s →
  rA ∈ openRoles s → v_id rA = A → rB ∈ openRoles s → v_id rB = B →
  ¬ rtc (childOf s) A B →
  (∀ r, r ∈ openRoles s → Depth (v_attrs r) < 2 ^ 30) →
  (length (openRoles s) ≤ fuel)%nat →
  ∃ s', changeRoleParent fuel T A (Some B) s = (Ok tt, s')
        ∧ curTl s' = T ∧ RoleTreeOk s'
        ∧ openEdges s' = filter (λ e, e_y e ≠ A) (openEdges s) ++ [mkEdge T None B A tt]
        ∧ mkVertex A T None (withDepth (Depth (v_attrs rB) + 1) (v_attrs rA))
            ∈ openRoles s'.
Proof.
  intros Hcur HT Hw Hok HrA HA HrB HB Hnd Hdep Hfuel.
  destruct (changeRoleParent_prefix fuel T A B s rA rB)
    as (s3 & Heq & Hcur3 & Hrows3 & Hedges3); [done..|].
  assert (Hstart : ∀ r, r ∈ openRoles s → v_start_tl r < T).
  { destruct Hw as [Hwr _]. rewrite Forall_forall in Hwr.
    intros r Hr. apply list_elem_of_filter in Hr as [_ Hr].
    destruct (Hwr r Hr) as [Hs _]. simpl in Hs. lia. }
  destruct (moved_Good T A B s s3 rA rB)
    as (HG & Hpar & Hreach & Hch & Hpend & Hcnt); [done..|].
  set (rA' := mkVertex A T None (withDepth (Depth (v_attrs rB) + 1) (v_attrs rA))) in *.
  assert (HrA' : rA' ∈ openRoles s3).
  { rewrite Hrows3. apply elem_of_app. right. by apply list_elem_of_singleton. }
  destruct (updateChildsDepth_walk T _ _ _ ltac:(lia) Hpar Hreach fuel s3 A rA'
              HG HrA' eq_refl eq_refl Hch ltac:(lia))
    as (s4 & Hrun & HG4 & HF & HP).
  simpl in Hrun.
  exists s4. rewrite Heq. split; [done|]. split; [apply (g_cur _ _ _ _ _ HG4)|].
  assert (HE4 : openEdges s4 = openEdges s3).
  { unfold openEdges. by rewrite (g_edges _ _ _ _ _ HG4). }
  assert (Hids : ∀ r, r ∈ openRoles s → ∃ r4, r4 ∈ openRoles s4 ∧ v_id r4 = v_id r).
  { intros r Hr.
    assert (∃ r3, r3 ∈ openRoles s3 ∧ v_id r3 = v_id r) as (r3 & Hr3 & Hid3).
    { destruct (decide (v_id r = A)) as [Hid|Hid].
      - exists rA'. by split.
      - exists r. split; [|done]. rewrite Hrows3. apply elem_of_app. left.
        by apply list_elem_of_filter. }
    destruct (f_ids _ _ _ _ _ HF r3 Hr3) as (r4 & Hr4 & Hid4).
    exists r4. split; [done|congruence]. }
  split; [|split].
  - apply (Good_RoleTreeOk _ _ _ _ Hpar s4 HG4).
    + intros p c Hp. destruct (HP p c Hp) as [Hp3 Hne]. apply Hne. by apply (Hpend p c).
    + intros e He. change (e ∈ openEdges s3) in He.
      rewrite Hedges3 in He. apply elem_of_app in He as [He|He].
      * apply list_elem_of_filter in He as [_ He].
        destruct (rt_edges _ Hok e He) as [(rp & Hrp & Hidp) (rc & Hrc & Hidc)].
        destruct (Hids rp Hrp) as (rp4 & ? & ?). destruct (Hids rc Hrc) as (rc4 & ? & ?).
        split; [exists rp4|exists rc4]; (split; [done|congruence]).
      * apply list_elem_of_singleton in He as ->. simpl.
        destruct (Hids rB HrB) as (rp4 & ? & ?). destruct (Hids rA HrA) as (rc4 & ? & ?).
        split; [exists rp4|exists rc4]; (split; [done|congruence]).
    + intros r Hr Ho Hnone. pose proof (f_old _ _ _ _ _ HF r Hr Ho) as Hr3.
      rewrite Hrows3 in Hr3. apply elem_of_app in Hr3 as [Hr3|Hr3].
      * apply list_elem_of_filter in Hr3 as [Hne Hr0].
        apply (rt_root _ Hok r Hr0). intros e He Hy. apply (Hnone e); [|done].
        change (e ∈ openEdges s3). rewrite Hedges3. apply elem_of_app. left.
        apply list_elem_of_filter. split; [congruence|done].
      * apply list_elem_of_singleton in Hr3 as ->. exfalso.
        unfold isOld in Ho. simpl in Ho. lia.
  - by rewrite HE4.
  - by apply (f_new _ _ _ _ _ HF).
Qed.

(** ** [RoleCreated] on a role tree *)

(** A role tree with one more leaf. *)
Lemma RoleTreeOk_add_leaf s s' T X attrs (parent : option Role) :
  RoleTreeOk s →
  (∀ r, r ∈ openRoles s → v_id r ≠ X) →
  (∀ rP, parent = Some rP → rP ∈ openRoles s) →
  Depth attrs = from_option (λ rP, Depth (v_attrs rP) + 1) 0 parent →
  openRoles s' = openRoles s ++ [mkVertex X T None attrs] →
  openEdges s' = openEdges s ++ from_option (λ rP, [mkEdge T None (v_id rP) X tt]) [] parent →
  RoleTreeOk s'.
Proof.
  intros Hok Hfresh Hparent Hdepth Hrows Hedges.
  set (rX := mkVertex X T None attrs) in *.
  assert (Hin : ∀ r, r ∈ openRoles s' ↔ r ∈ openRoles s ∨ r = rX).
  { intros r. by rewrite Hrows, elem_of_app, list_elem_of_singleton. }
  assert (HinE : ∀ e, e ∈ openEdges s' ↔
            e ∈ openEdges s ∨ ∃ rP, parent = Some rP ∧ e = mkEdge T None (v_id rP) X tt).
  { intros e. rewrite Hedges, elem_of_app. destruct parent as [rP|]; simpl.
    - rewrite list_elem_of_singleton. split; (intros [?|?]; [by left|right]).
      + by exists rP.
      + destruct H as (rP' & [= <-] & ->). done.
    - rewrite elem_of_nil. split; (intros [?|?]; [by left|]); [done|].
      by destruct H as (? & ? & _). }
  assert (HoldE : ∀ e, e ∈ openEdges s → e_x e ≠ X ∧ e_y e ≠ X).
  { intros e He. destruct (rt_edges _ Hok e He) as [(rp & Hrp & Hidp) (rc & Hrc & Hidc)].
    split; intros Heq; [apply (Hfresh rp Hrp)|apply (Hfresh rc Hrc)]; congruence. }
  assert (Huniq : ∀ r1 r2, r1 ∈ openRoles s → r2 ∈ openRoles s → v_id r1 = v_id r2 → r1 = r2).
  { intros r1 r2. apply NoDup_fmap_eq, (rt_ids _ Hok). }
  constructor.
  - rewrite Hrows, fmap_app. apply NoDup_app. split; [apply (rt_ids _ Hok)|split].
    + intros i Hi. rewrite list_elem_of_fmap in Hi. destruct Hi as (r & -> & Hr).
      simpl. rewrite list_elem_of_singleton. by apply Hfresh.
    + simpl. apply NoDup_singleton.
  - rewrite Hedges, fmap_app. apply NoDup_app. split; [apply (rt_parent _ Hok)|split].
    + intros i Hi. rewrite list_elem_of_fmap in Hi. destruct Hi as (e & -> & He).
      destruct parent as [rP|]; simpl; [|apply not_elem_of_nil].
      rewrite list_elem_of_singleton. by apply HoldE.
    + destruct parent as [rP|]; simpl; [apply NoDup_singleton|apply NoDup_nil_2].
  - intros e He. apply HinE in He as [He|(rP & HP & ->)].
    + destruct (rt_edges _ Hok e He) as [(rp & Hrp & Hidp) (rc & Hrc & Hidc)].
      split; [exists rp|exists rc]; (split; [apply Hin; by left|done]).
    + simpl. split; [exists rP|exists rX]; (split; [apply Hin|done]).
      * left. by apply Hparent.
      * by right.
  - intros e rp rc He Hrp Hrc Hxp Hyc. apply HinE in He as [He|(rP & HP & ->)].
    + destruct (HoldE e He) as [Hx Hy].
      apply Hin in Hrp as [Hrp| ->]; [|by destruct Hx].
      apply Hin in Hrc as [Hrc| ->]; [|by destruct Hy].
      by apply (rt_depth _ Hok e).
    + simpl in *. apply Hin in Hrc as [Hrc| ->]; [by destruct (Hfresh rc Hrc)|].
      apply Hin in Hrp as [Hrp| ->].
      * rewrite (Huniq rp rP); [|done|by apply Hparent|done].
        simpl. rewrite Hdepth, HP. done.
      * simpl in Hxp. destruct (Hfresh rP); [by apply Hparent|done].
  - intros r Hr Hnone. apply Hin in Hr as [Hr| ->].
    + apply (rt_root _ Hok r Hr). intros e He. apply Hnone. apply HinE. by left.
    + simpl. rewrite Hdepth. destruct parent as [rP|]; [|done].
      exfalso. apply (Hnone (mkEdge T None (v_id rP) X tt)); [|done].
      apply HinE. right. by exists rP.
  - intros r Hr. apply Hin in Hr as [Hr| ->]; [by apply (rt_nonneg _ Hok)|].
    simpl. rewrite Hdepth. destruct parent as [rP|]; simpl; [|done].
    pose proof (rt_nonneg _ Hok rP (Hparent rP eq_refl)). lia.
Qed.

(** The mutation of a [RoleCreated] event with a new role id, below an
    open role or as a root. *)
Lemma RoleCreated_RoleTreeOk fuel T X ty name purpose (parent : option Role) s :
  curTl s = T → 0 < T → RoleTreeOk s →
  (∀ r, r ∈ openRoles s → v_id r ≠ X) →
  (∀ rP, parent = Some rP → rP ∈ openRoles s) →
  (∀ r, r ∈ openRoles s → Depth (v_attrs r) < 2 ^ 30) →
  ∃ s', applyMutation fuel T (EventRoleCreated X ty name purpose (v_id <$> parent)) s
        = (Ok tt, s')
        ∧ curTl s' = T ∧ RoleTreeOk s'
        ∧ openRoles s' = openRoles s
            ++ [mkVertex X T None
                  (mkRole ty (from_option (λ rP, Depth (v_attrs rP) + 1) 0 parent)
                     name purpose)]
        ∧ openEdges s' = openEdges s
            ++ from_option (λ rP, [mkEdge T None (v_id rP) X tt]) [] parent.
Proof.
  intros Hcur HT Hok Hfresh Hparent Hdep. unfold applyMutation.
  destruct parent as [rP|]; simpl.
  - pose proof (Hparent rP eq_refl) as HrP.
    erewrite bind_ok; cycle 1.
    { erewrite bind_ok; [|apply RoleInternal_run; lia].
      cbv beta. rewrite (roleAt_unique s T rP Hcur (rt_ids _ Hok) HrP). reflexivity. }
    cbv beta. rewrite int32_small; cycle 1.
    { pose proof (rt_nonneg _ Hok rP HrP). pose proof (Hdep rP HrP).
      change (2 ^ 30) with 1073741824 in *. pow2. lia. }
    unfold newVertex.
    destruct (insertVertex_role T X (mkRole ty (Depth (v_attrs rP) + 1) name purpose) (tick s))
      as (s1 & Hrun1 & Hcur1 & Htab1 & _ & Hrows1).
    rewrite (bind_ok _ _ _ _ _ Hrun1).
    destruct (addEdge_rolerole T (v_id rP) X s1)
      as (s2 & Hrun2 & Hcur2 & Hroles2 & _ & Hedges2).
    exists s2. split; [done|].
    assert (HR2 : openRoles s2 = openRoles s
                  ++ [mkVertex X T None (mkRole ty (Depth (v_attrs rP) + 1) name purpose)]).
    { unfold openRoles at 1. rewrite Hroles2. exact Hrows1. }
    assert (HE2 : openEdges s2 = openEdges s ++ [mkEdge T None (v_id rP) X tt]).
    { rewrite Hedges2. unfold openEdges at 1. by rewrite Htab1. }
    split; [by rewrite Hcur2, Hcur1|]. split; [|done].
    by apply (RoleTreeOk_add_leaf s s2 T X
                (mkRole ty (Depth (v_attrs rP) + 1) name purpose) (Some rP)).
  - erewrite bind_ok; [|reflexivity]. cbv beta. unfold newVertex.
    destruct (insertVertex_role T X (mkRole ty 0 name purpose) s)
      as (s1 & Hrun1 & Hcur1 & Htab1 & _ & Hrows1).
    rewrite (bind_ok _ _ _ _ _ Hrun1). exists s1. split; [done|].
    assert (HE1 : openEdges s1 = openEdges s ++ []).
    { rewrite app_nil_r. unfold openEdges. by rewrite Htab1. }
    split; [congruence|]. split; [|done].
    by apply (RoleTreeOk_add_leaf s s1 T X (mkRole ty 0 name purpose) None).
Qed.

(** ** The depth invariant under events that fit the role tree *)


(** ** The example tree *)

Lemma treeStore_roles :
  openRoles treeStore =
    [mkVertex 1%N 1 None (mkRole RoleTypeCircle 0 "General" "");
     mkVertex 2%N 1 None (mkRole RoleTypeCircle 1 "Sales" "");
     mkVertex 3%N 1 None (mkRole RoleTypeCircle 1 "Production" "");
     mkVertex 4%N 1 None (mkRole RoleTypeNormal 2 "Seller" "")].
Proof. reflexivity. Qed.

Lemma treeStore_edges :
  openEdges treeStore =
    [mkEdge 1 None 1%N 2%N tt; mkEdge 1 None 1%N 3%N tt; mkEdge 1 None 2%N 4%N tt].
Proof. reflexivity. Qed.

Ltac elems H :=
  rewrite ?elem_of_cons, ?elem_of_nil in H;
  repeat (destruct H as [H|H]); try done; subst.

Lemma elem_of_ids (l : list Role) (x : ID) :
  x ∈ v_id <$> l → ∃ r, r ∈ l ∧ v_id r = x.
Proof. rewrite list_elem_of_fmap. intros (r & -> & Hr). by exists r. Qed.

Lemma treeStore_RoleTreeOk : RoleTreeOk treeStore.
Proof.
  constructor; rewrite ?treeStore_roles, ?treeStore_edges.
  - simpl. repeat (apply NoDup_cons; split; [intros Hin; elems Hin|]). apply NoDup_nil_2.
  - simpl. repeat (apply NoDup_cons; split; [intros Hin; elems Hin|]). apply NoDup_nil_2.
  - intros e He. elems He; simpl; split; apply elem_of_ids; simpl; set_solver.
  - intros e rp rc He Hrp Hrc. elems He; elems Hrp; elems Hrc; simpl; try done.
  - intros r Hr Hnone. elems Hr; simpl; try done; exfalso.
    + apply (Hnone (mkEdge 1 None 1%N 2%N tt)); [set_solver|done].
    + apply (Hnone (mkEdge 1 None 1%N 3%N tt)); [set_solver|done].
    + apply (Hnone (mkEdge 1 None 2%N 4%N tt)); [set_solver|done].
  - intros r Hr. elems Hr; simpl; lia.
Qed.

Lemma treeStore_subtree : ¬ rtc (childOf treeStore) 2%N 3%N.
Proof.
  assert (Hsub : ∀ x y, rtc (childOf treeStore) x y →
            x = 2%N ∨ x = 4%N → y = 2%N ∨ y = 4%N).
  { intros x y Hrtc. induction Hrtc as [x|x y z (e & He & Hx & Hy) _ IH]; [done|].
    intros Hin. apply IH. rewrite treeStore_edges in He.
    elems He; simpl in *; subst; destruct Hin; try done. by right. }
  intros Hrtc. by destruct (Hsub _ _ Hrtc (or_introl eq_refl)).
Qed.

Lemma treeStore_writtenBefore : writtenBefore 2 treeStore.
Proof.
  split; simpl;
    repeat (apply Forall_cons; split;
            [split; [simpl; lia|intros e He; discriminate He]|]);
    apply Forall_nil_2.
Qed.

Lemma treeStore_depths r : r ∈ openRoles treeStore → Depth (v_attrs r) < 2 ^ 30.
Proof. intros Hr. rewrite treeStore_roles in Hr. elems Hr; reflexivity. Qed.


(** The depths that the move writes on the example tree: the circle 2
    is at depth 2 below the circle 3, and its role 4 at depth 3. *)
Lemma changeRoleParent_example :
  let s' := stateAfter (applyMutation 4 2 (EventRoleChangedParent 2%N (Some 3%N)))
              treeStore in
  (Depth ∘ v_attrs) <$> roleAt s' 2 2%N = Some 2
  ∧ (Depth ∘ v_attrs) <$> roleAt s' 2 4%N = Some 3
  ∧ v_id <$> head (parentRolesAt s' 2 2%N) = Some 3%N.
Proof. repeat split; by vm_compute. Qed.

(** * Further properties of the code *)

(** ** Tables of a class *)

Lemma tableOf_setTable vc table set l d :
  tableOf vc = Some table → setTable vc = Some set → table (set l d) = l.
Proof. destruct vc; simpl; intros; by simplify_eq. Qed.

Lemma tableOf_setTable_ne vc vc' table' set l d :
  tableOf vc' = Some table' → setTable vc = Some set → vc ≠ vc' →
  table' (set l d) = table' d.
Proof. destruct vc, vc'; simpl; intros; by simplify_eq. Qed.

Lemma etableOf_setTable vc set ec l d :
  setTable vc = Some set → etableOf ec (set l d) = etableOf ec d.
Proof. destruct vc, ec; simpl; intros; by simplify_eq. Qed.

Lemma etableOf_setETable ec l d : etableOf ec (setETable ec l d) = l.
Proof. by destruct ec. Qed.

Lemma etableOf_setETable_ne ec ec' l d :
  ec ≠ ec' → etableOf ec' (setETable ec l d) = etableOf ec' d.
Proof. by destruct ec, ec'. Qed.

Lemma tableOf_setETable vc table ec l d :
  tableOf vc = Some table → table (setETable ec l d) = table d.
Proof. destruct vc, ec; simpl; intros; by simplify_eq. Qed.

Lemma insertVertex_run vc table set tl id attrs s :
  tableOf vc = Some table → setTable vc = Some set →
  insertVertex tl vc id attrs s
  = (Ok tt, tick (withTx (set (table (tx s) ++ [mkVertex id tl None attrs]) (tx s)) s)).
Proof. intros Htab Hset. unfold insertVertex. by rewrite Htab, Hset. Qed.

Lemma closeVertex_run vc table set endtl id s :
  tableOf vc = Some table → setTable vc = Some set →
  closeVertex endtl vc id s
  = (Ok tt,
     tick (withTx
       (set (closeRows endtl
               (λ r, bool_decide (v_id r = id)
                     && holds (lastTimeLineCond (curTl s) endtl r))
               (table (tx s)))
            (tx s)) s)).
Proof. intros Htab Hset. unfold closeVertex. by rewrite Htab, Hset. Qed.

(** ** Earlier timelines *)

Lemma lastTimeLineCond_open `{Temporal R} (cur tl : Z) (r : R) :
  holds (lastTimeLineCond cur tl r) = true → end_tl r = None.
Proof.
  unfold lastTimeLineCond, sqIsNull, sqAnd, sqLtOrEq. case_decide;
    destruct (end_tl r); simpl; try done; by case_bool_decide.
Qed.

(** Closing open rows at [endtl] does not change which rows the
    general timeline condition selects at [t ≤ endtl]. *)
Lemma filter_general_closeRows {A} (t endtl : Z) (sel : Vertex A → bool)
    (rows : list (Vertex A)) :
  t ≤ endtl → (∀ r, sel r = true → v_end_tl r = None) →
  rowKey <$> filter (λ r, holds (timeLineCondGeneral t r)) (closeRows endtl sel rows)
  = rowKey <$> filter (λ r, holds (timeLineCondGeneral t r)) rows.
Proof.
  intros Ht Hsel. unfold closeRows.
  induction rows as [|r rows IH]; [done|].
  rewrite fmap_cons, !filter_cons.
  destruct (sel r) eqn:Hr.
  - pose proof (Hsel r Hr) as Hopen.
    assert (Heq : holds (timeLineCondGeneral t (set_end_tl endtl r))
                  = holds (timeLineCondGeneral t r)).
    { unfold timeLineCondGeneral, sqAnd, sqOr, sqLtOrEq, sqGtOrEq, sqIsNull. simpl.
      rewrite Hopen. simpl. repeat case_bool_decide; simpl; try done; lia. }
    rewrite Heq. case_decide; [|done]. rewrite !fmap_cons, IH. done.
  - case_decide; [|done]. by rewrite !fmap_cons, IH.
Qed.

Lemma filter_general_closeRows_edge {B} (t endtl : Z) (sel : Edge B → bool)
    (rows : list (Edge B)) :
  t ≤ endtl → (∀ r, sel r = true → e_end_tl r = None) →
  edgeKey <$> filter (λ r, holds (timeLineCondGeneral t r)) (closeRows endtl sel rows)
  = edgeKey <$> filter (λ r, holds (timeLineCondGeneral t r)) rows.
Proof.
  intros Ht Hsel. unfold closeRows.
  induction rows as [|r rows IH]; [done|].
  rewrite fmap_cons, !filter_cons.
  destruct (sel r) eqn:Hr.
  - pose proof (Hsel r Hr) as Hopen.
    assert (Heq : holds (timeLineCondGeneral t (set_end_tl endtl r))
                  = holds (timeLineCondGeneral t r)).
    { unfold timeLineCondGeneral, sqAnd, sqOr, sqLtOrEq, sqGtOrEq, sqIsNull. simpl.
      rewrite Hopen. simpl. repeat case_bool_decide; simpl; try done; lia. }
    rewrite Heq. case_decide; [|done]. rewrite !fmap_cons, IH. done.
  - case_decide; [|done]. by rewrite !fmap_cons, IH.
Qed.

Lemma vertices_all_run t vc table s :
  0 < t → t ≠ curTl s → tableOf vc = Some table →
  vertices t vc 0 None [] s
  = (Ok (filter (λ r, holds (timeLineCondGeneral t r)) (table (tx s))), tick s).
Proof.
  intros Ht Hcur Htab. rewrite (vertices_run t vc 0 None [] table) by done.
  unfold applyLimit, orderBy. rewrite decide_True by done. do 2 f_equal.
  apply filter_ext_elem. intros r _. unfold timeLineCond, whereCond.
  rewrite decide_False by done. by rewrite andb_true_r.
Qed.

(** X1: a write of a vertex at the timeline [tl] ([newVertex],
    [updateVertex] or [deleteVertex], for any of the seven vertex
    classes) does not change what [vertices] returns for any class at
    an earlier timeline [t] other than the current one: the same rows
    in the same order with the same id, start timeline and columns;
    only the end timeline of a row can have been set. *)
Theorem vertex_writes_keep_earlier_timelines vc vc' table table' (tl t : Z) id attrs s m :
  tableOf vc = Some table → tableOf vc' = Some table' →
  0 < t < tl → tl < 2 ^ 63 → t ≠ curTl s →
  m ∈ [newVertex tl id vc attrs; updateVertex tl vc id attrs; deleteVertex tl vc id] →
  ∃ s' rows rows',
    m s = (Ok tt, s')
    ∧ vertices t vc' 0 None [] s = (Ok rows, tick s)
    ∧ vertices t vc' 0 None [] s' = (Ok rows', tick s')
    ∧ rowKey <$> rows' = rowKey <$> rows.
Proof.
  intros Htab Htab' Ht Htl Hcur Hm.
  destruct (setTable_is_Some vc table Htab) as [set Hset].
  assert (Hend : int64 (tl - 1) = tl - 1) by (apply int64_small; pow2; lia).
  assert (Hins : ∀ s0, curTl s0 = curTl s →
            rowKey <$> filter (λ r, holds (timeLineCondGeneral t r))
                         (table' (tx s0)) =
            rowKey <$> filter (λ r, holds (timeLineCondGeneral t r))
                         (table' (tx s)) →
            ∃ s' rows rows',
              insertVertex tl vc id attrs s0 = (Ok tt, s')
              ∧ vertices t vc' 0 None [] s = (Ok rows, tick s)
              ∧ vertices t vc' 0 None [] s' = (Ok rows', tick s')
              ∧ rowKey <$> rows' = rowKey <$> rows).
  { intros s0 Hcur0 Hrows0. eexists _, _, _.
    split; [by apply insertVertex_run|].
    split; [by apply vertices_all_run; [lia|..]|].
    split; [apply vertices_all_run; [lia|simpl; congruence|done]|].
    rewrite <- Hrows0. simpl. destruct (decide (vc = vc')) as [<-|Hne].
    - assert (table' = table) as -> by congruence.
      rewrite (tableOf_setTable vc table set) by done.
      rewrite filter_app. rewrite (filter_cons _ (mkVertex id tl None attrs)).
      rewrite decide_False; [by rewrite filter_nil, app_nil_r|].
      unfold timeLineCondGeneral, sqAnd, sqLtOrEq. simpl.
      rewrite bool_decide_eq_false_2 by lia. simpl. tauto.
    - by rewrite (tableOf_setTable_ne vc vc' table' set). }
  assert (Hclose : ∃ s0, closeVertex (tl - 1) vc id s = (Ok tt, s0)
            ∧ curTl s0 = curTl s
            ∧ rowKey <$> filter (λ r, holds (timeLineCondGeneral t r))
                           (table' (tx s0)) =
              rowKey <$> filter (λ r, holds (timeLineCondGeneral t r))
                           (table' (tx s))).
  { eexists. split; [by apply closeVertex_run|]. split; [done|]. simpl.
    destruct (decide (vc = vc')) as [<-|Hne].
    - assert (table' = table) as -> by congruence.
      rewrite (tableOf_setTable vc table set) by done.
      apply filter_general_closeRows; [lia|].
      intros r Hr. apply andb_true_iff in Hr as [_ Hr].
      by apply lastTimeLineCond_open in Hr.
    - by rewrite (tableOf_setTable_ne vc vc' table' set). }
  destruct Hclose as (s0 & Hrun0 & Hcur0 & Hrows0).
  rewrite !elem_of_cons, elem_of_nil in Hm. destruct Hm as [->| [->| [->|[]]]].
  - unfold newVertex. by apply Hins.
  - destruct (Hins s0 Hcur0 Hrows0) as (s' & rows & rows' & Hrun & Hr & Hr' & Heq).
    exists s', rows, rows'. split; [|done].
    unfold updateVertex. rewrite Hend. by rewrite (bind_ok _ _ _ _ _ Hrun0).
  - exists s0. eexists _, _.
    split; [unfold deleteVertex; by rewrite Hend|].
    split; [by apply vertices_all_run; [lia|..]|].
    split; [apply vertices_all_run; [lia|congruence|done]|].
    done.
Qed.

Lemma vertex_writes_keep_earlier_timelines_witness :
  ∃ s' rows rows',
    updateVertex 2 vertexClassRole 2%N (mkRole RoleTypeCircle 1 "Marketing" "") treeStore
    = (Ok tt, s')
    ∧ vertices 1 vertexClassRole 0 None [] treeStore = (Ok rows, tick treeStore)
    ∧ vertices 1 vertexClassRole 0 None [] s' = (Ok rows', tick s')
    ∧ rowKey <$> rows' = rowKey <$> rows.
Proof.
  apply (vertex_writes_keep_earlier_timelines vertexClassRole vertexClassRole
           tb_role tb_role 2 1 2%N (mkRole RoleTypeCircle 1 "Marketing" "") treeStore).
  - reflexivity.
  - reflexivity.
  - lia.
  - reflexivity.
  - simpl. lia.
  - apply elem_of_cons. right. apply elem_of_cons. by left.
Defined.

(** ** The groups of [connectedVertices] *)

Lemma filter_bind {A B} (P : B → Prop) `{!∀ x, Decision (P x)} (f : A → list B) l :
  filter P (l ≫= f) = l ≫= (λ x, filter P (f x)).
Proof.
  induction l as [|a l IH]; [done|].
  by rewrite !bind_cons, filter_app, IH.
Qed.

Lemma bind_ext_elem {A B} (f g : A → list B) l :
  (∀ x, x ∈ l → f x = g x) → l ≫= f = l ≫= g.
Proof.
  induction l as [|a l IH]; intros Hfg; [done|].
  rewrite !bind_cons, Hfg by (by left). f_equal.
  apply IH. intros x Hx. apply Hfg. by right.
Qed.

Lemma joinRows_filter {A B} (vt : list (Vertex A)) (et : list (Edge B)) point keep
    (P : Vertex A → Edge B → bool) :
  filter (λ ve, Is_true (P ve.1 ve.2)) (joinRows vt et point keep)
  = joinRows vt et point (λ v e, keep v e && P v e).
Proof.
  unfold joinRows. rewrite filter_bind. apply bind_ext_elem. intros v _.
  rewrite filter_bind. apply bind_ext_elem. intros e _.
  destruct (bool_decide (v_id v = point e)), (keep v e), (P v e) eqn:HP; simpl;
    rewrite ?filter_cons, ?filter_nil; simpl; try done;
    case_decide as Hd; simpl in Hd; rewrite HP in Hd; done.
Qed.

Lemma joinRows_ext {A B} (vt : list (Vertex A)) (et : list (Edge B)) point
    (keep keep' : Vertex A → Edge B → bool) :
  (∀ v e, v ∈ vt → e ∈ et → keep v e = keep' v e) →
  joinRows vt et point keep = joinRows vt et point keep'.
Proof.
  intros Hk. unfold joinRows. apply bind_ext_elem. intros v Hv.
  apply bind_ext_elem. intros e He. by rewrite Hk.
Qed.

Lemma joinRows_false {A B} (vt : list (Vertex A)) (et : list (Edge B)) point
    (keep : Vertex A → Edge B → bool) :
  (∀ v e, v ∈ vt → e ∈ et → keep v e = false) → joinRows vt et point keep = [].
Proof.
  intros Hk. destruct (joinRows vt et point keep) as [|[v e] l] eqn:Hj; [done|].
  assert (Hin : (v, e) ∈ joinRows vt et point keep) by (rewrite Hj; by left).
  apply elem_of_joinRows in Hin as (Hv & He & _ & Hkeep).
  by rewrite (Hk v e) in Hkeep.
Qed.

Lemma scanGroups_of_keys {A} (key : A → ID) (rows : list A) k :
  scanGroups ((λ r, (key r, r)) <$> rows) !! k
  = match filter (λ r, key r = k) rows with
    | [] => None
    | l => Some l
    end.
Proof.
  set (grs := (λ r, (key r, r)) <$> rows).
  assert (Hf : (filter (λ gr : ID * A, gr.1 = k) grs).*2 = filter (λ r, key r = k) rows).
  { subst grs. induction rows as [|r rows IH]; [done|].
    rewrite fmap_cons, !filter_cons. simpl. case_decide; [|done].
    by rewrite fmap_cons, IH. }
  pose proof (scanGroups_lookup grs k) as Hl.
  pose proof (scanGroups_lookup_None grs k) as Hn.
  rewrite Hf in Hl.
  destruct (filter (λ r, key r = k) rows) as [|r l] eqn:Hfil.
  - apply Hn. by apply fmap_nil_inv in Hf.
  - destruct (scanGroups grs !! k) as [l'|]; simpl in Hl; [by subst l'|done].
Qed.

Lemma connectedVertices_lookup tl ids ec direction out orderBys table s :
  0 < tl →
  tableOf (neighbour ec direction) = Some table →
  outputScans ec (neighbour ec direction) (default (neighbour ec direction) out) = None →
  ∃ groups,
    connectedVertices tl ids ec direction out None orderBys s = (Ok groups, tick s)
    ∧ (∀ k, groups !! k =
            if decide (k ∈ ids ∧ connectedAt s tl k ec direction table ≠ [])
            then Some (connectedAt s tl k ec direction table) else None).
Proof.
  intros Htl Htab Hout. unfold connectedVertices.
  rewrite decide_False by lia. rewrite Htab. unfold bind. rewrite query_run, Hout.
  eexists. split; [done|].
  assert (Hk : ∀ k,
    filter (λ ve : Vertex (attrsOf (neighbour ec direction)) * Edge (eattrsOf ec),
              startEdgePoint direction ve.2 = k)
      (joinRows (table (tx s)) (etableOf ec (tx s)) (endEdgePoint direction)
        (λ v e, bool_decide (startEdgePoint direction e ∈ ids)
                && holds (timeLineCond (curTl s) tl v)
                && holds (timeLineCond (curTl s) tl e)
                && whereCond None v))
    = if decide (k ∈ ids) then connectedAt s tl k ec direction table else []).
  { intros k.
    rewrite (filter_ext_elem _
               (λ ve, Is_true ((λ _ e, bool_decide (startEdgePoint direction e = k))
                                 ve.1 ve.2)))
      by (intros ve _; simpl; by rewrite bool_decide_spec).
    etransitivity;
      [exact (joinRows_filter _ _ _ _
                (λ _ e, bool_decide (startEdgePoint direction e = k)))|].
    case_decide as Hin.
    - unfold connectedAt. apply joinRows_ext. intros v e _ _. simpl.
      destruct (decide (startEdgePoint direction e = k)) as [->|Hne].
      + rewrite (bool_decide_true (_ ∈ ids)) by done.
        rewrite (bool_decide_true (_ ∈ [k])) by (by apply list_elem_of_singleton).
        rewrite (bool_decide_true (k = k)) by done. by rewrite andb_true_r.
      + rewrite (bool_decide_false (_ = k)) by done.
        rewrite (bool_decide_false (_ ∈ [k])); [by rewrite andb_false_r|].
        by rewrite list_elem_of_singleton.
    - apply joinRows_false. intros v e _ _. simpl.
      destruct (decide (startEdgePoint direction e = k)) as [->|Hne].
      + by rewrite (bool_decide_false (_ ∈ ids)).
      + rewrite (bool_decide_false (_ = k)) by done. by rewrite andb_false_r. }
  intros k. rewrite (scanGroups_of_keys (λ ve, startEdgePoint direction ve.2)).
  rewrite Hk. destruct (decide (k ∈ ids)) as [Hin|Hin].
  - destruct (connectedAt s tl k ec direction table) eqn:Hc.
    + rewrite decide_False; [done|]. by intros [_ ?].
    + rewrite decide_True; [done|]. done.
  - rewrite decide_False; [done|]. by intros [? _].
Qed.

(** X2: for a timeline [tl > 0] [connectedVertices] returns a map whose
    keys are exactly the requested ids that have at least one live
    neighbour over a live edge; the group of such an id holds all the
    joined rows of this id, and no group is empty, so that the [v[0]]
    of [RoleParentInternal] and the like is never out of range. *)
Theorem connectedVertices_groups tl ids ec direction out orderBys table s :
  0 < tl →
  tableOf (neighbour ec direction) = Some table →
  outputScans ec (neighbour ec direction) (default (neighbour ec direction) out) = None →
  ∃ groups,
    connectedVertices tl ids ec direction out None orderBys s = (Ok groups, tick s)
    ∧ (∀ k, groups !! k =
            if decide (k ∈ ids ∧ connectedAt s tl k ec direction table ≠ [])
            then Some (connectedAt s tl k ec direction table) else None)
    ∧ (∀ k, groups !! k ≠ Some []).
Proof.
  intros Htl Htab Hout.
  destruct (connectedVertices_lookup tl ids ec direction out orderBys table s)
    as (groups & Hrun & Hlook); [done..|].
  exists groups. split; [done|]. split; [done|].
  intros k. rewrite Hlook. case_decide as Hk; [|done].
  intros [= Hnil]. by destruct Hk as [_ Hk].
Qed.

Lemma connectedVertices_groups_witness :
  ∃ groups,
    connectedVertices 2 [1%N; 4%N] edgeClassRoleRole edgeDirectionOut None None [] treeStore
    = (Ok groups, tick treeStore)
    ∧ (∀ k, groups !! k =
            if decide (k ∈ [1%N; 4%N]
                       ∧ connectedAt treeStore 2 k edgeClassRoleRole edgeDirectionOut tb_role
                         ≠ [])
            then Some (connectedAt treeStore 2 k edgeClassRoleRole edgeDirectionOut tb_role)
            else None)
    ∧ (∀ k, groups !! k ≠ Some []).
Proof.
  apply (connectedVertices_groups 2 [1%N; 4%N] edgeClassRoleRole edgeDirectionOut
           None [] tb_role treeStore).
  - lia.
  - reflexivity.
  - reflexivity.
Defined.

(** ** Earlier timelines and edges *)

Lemma joinRows_app_dead {A B} (vt : list (Vertex A)) (et et' : list (Edge B)) point
    (keep : Vertex A → Edge B → bool) :
  (∀ v e, e ∈ et' → keep v e = false) →
  joinRows vt (et ++ et') point keep = joinRows vt et point keep.
Proof.
  intros Hdead. unfold joinRows. apply bind_ext_elem. intros v _.
  rewrite bind_app. rewrite <- (app_nil_r (et ≫= _)) at 2. f_equal.
  induction et' as [|e et' IH]; [done|].
  rewrite bind_cons, (Hdead v e) by (by left). rewrite andb_false_r. simpl.
  apply IH. intros v' e' He'. apply Hdead. by right.
Qed.

Lemma joinRows_fmap_edges {A B} (f : Edge B → Edge B) (vt : list (Vertex A))
    (et : list (Edge B)) point (keep : Vertex A → Edge B → bool) :
  (∀ e, point (f e) = point e) →
  (∀ v e, keep v (f e) = keep v e) →
  (joinRows vt (f <$> et) point keep).*1 = (joinRows vt et point keep).*1.
Proof.
  intros Hpoint Hkeep. unfold joinRows.
  induction vt as [|v vt IH]; [done|].
  rewrite !bind_cons, !fmap_app, IH. f_equal. clear IH.
  induction et as [|e et IH]; [done|].
  rewrite fmap_cons, !bind_cons, !fmap_app, IH. f_equal.
  rewrite Hpoint, Hkeep. by destruct (_ && _).
Qed.

Lemma closeRows_edge_point {B} endtl (e : Edge B) :
  e_x (set_end_tl endtl e) = e_x e ∧ e_y (set_end_tl endtl e) = e_y e.
Proof. done. Qed.

Lemma general_set_end_tl_edge {B} (t endtl : Z) (e : Edge B) :
  t ≤ endtl → e_end_tl e = None →
  holds (timeLineCondGeneral t (set_end_tl endtl e)) = holds (timeLineCondGeneral t e).
Proof.
  intros Ht Hopen.
  unfold timeLineCondGeneral, sqAnd, sqOr, sqLtOrEq, sqGtOrEq, sqIsNull. simpl.
  rewrite Hopen. simpl. repeat case_bool_decide; simpl; try done; lia.
Qed.

(** The neighbours joined at an earlier timeline, before and after a
    write on the edges of a class. *)
Lemma connectedAt_edge_write ec ec' direction table (tl t : Z) x y values s m k :
  tableOf (neighbour ec' direction) = Some table →
  0 < t < tl → tl < 2 ^ 63 → t ≠ curTl s →
  m ∈ [addEdge tl ec x y values; deleteEdge tl ec x y] →
  ∃ s', m s = (Ok tt, s') ∧ curTl s' = curTl s
        ∧ (connectedAt s' t k ec' direction table).*1
          = (connectedAt s t k ec' direction table).*1.
Proof.
  intros Htab Ht Htl Hcur Hm.
  assert (Hend : int64 (tl - 1) = tl - 1) by (apply int64_small; pow2; lia).
  rewrite !elem_of_cons, elem_of_nil in Hm. destruct Hm as [->| [->|[]]].
  - eexists. split; [done|]. split; [done|]. unfold connectedAt. simpl.
    rewrite (tableOf_setETable _ table) by done.
    destruct (decide (ec = ec')) as [<-|Hne].
    + rewrite etableOf_setETable. f_equal. apply joinRows_app_dead.
      intros v e He. apply list_elem_of_singleton in He as ->.
      unfold timeLineCond. rewrite !decide_False by done.
      assert (Hdead : holds (timeLineCondGeneral t (mkEdge tl None x y values)) = false).
      { unfold timeLineCondGeneral, sqAnd, sqLtOrEq. simpl.
        by rewrite bool_decide_eq_false_2 by lia. }
      rewrite Hdead. by rewrite andb_false_r.
    + by rewrite etableOf_setETable_ne.
  - unfold deleteEdge. rewrite Hend.
    eexists. split; [done|]. split; [done|]. unfold connectedAt. simpl.
    rewrite (tableOf_setETable _ table) by done.
    destruct (decide (ec = ec')) as [<-|Hne]; [|by rewrite etableOf_setETable_ne].
    rewrite etableOf_setETable. unfold closeRows.
    set (sel := λ e : Edge (eattrsOf ec),
           bool_decide (e_x e = x) && bool_decide (e_y e = y)
           && holds (lastTimeLineCond (curTl s) (tl - 1) e)).
    apply (joinRows_fmap_edges (λ e, if sel e then set_end_tl (tl - 1) e else e)).
    + intros e. destruct (sel e); [|done]. by destruct direction.
    + intros v e. destruct (sel e) eqn:Hsel; [|done].
      assert (Hopen : e_end_tl e = None).
      { unfold sel in Hsel. apply andb_true_iff in Hsel as [_ Hsel].
        by apply lastTimeLineCond_open in Hsel. }
      unfold timeLineCond. rewrite !decide_False by done.
      rewrite general_set_end_tl_edge by (done || lia).
      by destruct direction.
Qed.

(** X3: a write of an edge at the timeline [tl] ([addEdge] or
    [deleteEdge], for any edge class) does not change the neighbours
    that [connectedVertices] returns for any edge class at an earlier
    timeline [t] other than the current one: the same groups with the
    same neighbour rows in the same order. *)
Theorem edge_writes_keep_earlier_timelines ec ec' direction out table (tl t : Z)
    x y values ids s m :
  tableOf (neighbour ec' direction) = Some table →
  outputScans ec' (neighbour ec' direction) (default (neighbour ec' direction) out) = None →
  0 < t < tl → tl < 2 ^ 63 → t ≠ curTl s →
  m ∈ [addEdge tl ec x y values; deleteEdge tl ec x y] →
  ∃ s' groups groups',
    m s = (Ok tt, s')
    ∧ connectedVertices t ids ec' direction out None [] s = (Ok groups, tick s)
    ∧ connectedVertices t ids ec' direction out None [] s' = (Ok groups', tick s')
    ∧ neighbours groups' = neighbours groups.
Proof.
  intros Htab Hout Ht Htl Hcur Hm.
  assert (∃ s', m s = (Ok tt, s')) as [s' Hrun].
  { destruct (connectedAt_edge_write ec ec' direction table tl t x y values s m 0%N)
      as (s' & Hrun & _); [done..|]. by exists s'. }
  destruct (connectedVertices_lookup t ids ec' direction out [] table s)
    as (groups & Hg & Hlook); [lia|done..|].
  destruct (connectedVertices_lookup t ids ec' direction out [] table s')
    as (groups' & Hg' & Hlook'); [lia|done..|].
  exists s', groups, groups'. split; [done|]. split; [done|]. split; [done|].
  apply map_eq. intros k. unfold neighbours. rewrite !lookup_fmap, Hlook, Hlook'.
  destruct (connectedAt_edge_write ec ec' direction table tl t x y values s m k)
    as (s'' & Hrun' & _ & Heq); [done..|].
  assert (s'' = s') as -> by congruence.
  assert (Hnil : connectedAt s' t k ec' direction table = []
                 ↔ connectedAt s t k ec' direction table = []).
  { split; intros Hn; apply (fmap_nil_inv fst); [rewrite <- Heq|rewrite Heq];
      by rewrite Hn. }
  destruct (decide (k ∈ ids)) as [Hin|Hin].
  - destruct (decide (connectedAt s t k ec' direction table = [])) as [Hs|Hs].
    + rewrite !decide_False; [done|tauto|tauto].
    + rewrite !decide_True; [|tauto|tauto]. simpl. by rewrite Heq.
  - rewrite !decide_False; [done|tauto|tauto].
Qed.

Lemma edge_writes_keep_earlier_timelines_witness :
  ∃ s' groups groups',
    deleteEdge 2 edgeClassRoleRole 2%N 4%N treeStore = (Ok tt, s')
    ∧ connectedVertices 1 [2%N] edgeClassRoleRole edgeDirectionOut None None [] treeStore
      = (Ok groups, tick treeStore)
    ∧ connectedVertices 1 [2%N] edgeClassRoleRole edgeDirectionOut None None [] s'
      = (Ok groups', tick s')
    ∧ neighbours groups' = neighbours groups.
Proof.
  apply (edge_writes_keep_earlier_timelines edgeClassRoleRole edgeClassRoleRole
           edgeDirectionOut None tb_role 2 1 2%N 4%N tt [2%N] treeStore).
  - reflexivity.
  - reflexivity.
  - lia.
  - reflexivity.
  - simpl. lia.
  - apply elem_of_cons. right. apply elem_of_cons. by left.
Defined.

(** ** Reading back what was written *)

Lemma filter_none_elem {A} (P : A → Prop) `{!∀ x, Decision (P x)} (l : list A) :
  (∀ x, x ∈ l → ¬ P x) → filter P l = [].
Proof.
  induction l as [|a l IH]; intros HP; [done|].
  rewrite filter_cons, decide_False by (apply HP; by left).
  apply IH. intros x Hx. apply HP. by right.
Qed.

Lemma vertices_by_id_run vc table tl id s :
  0 < tl → curTl s = tl → tableOf vc = Some table →
  vertices tl vc 0 (Some (λ r, sqEq (Some (v_id r)) id)) [] s
  = (Ok (filter (λ r, v_id r = id) (filter isOpen (table (tx s)))), tick s).
Proof.
  intros Htl Hcur Htab. rewrite (vertices_run tl vc 0 _ [] table) by done.
  unfold applyLimit, orderBy. rewrite decide_True by done. do 2 f_equal.
  rewrite list_filter_filter. apply filter_ext_elem. intros r _.
  rewrite andb_True, Hcur, holds_timeLineCond_open. unfold whereCond, sqEq. simpl.
  case_bool_decide; simpl; tauto.
Qed.

(** The open rows of a class after [updateVertex] at the current
    timeline: the open rows of the id that were written before are
    closed, and the new row is appended. *)
Lemma updateVertex_open_rows vc table tl id attrs s :
  tableOf vc = Some table → curTl s = tl → - 2 ^ 63 < tl < 2 ^ 63 →
  ∃ s', updateVertex tl vc id attrs s = (Ok tt, s')
        ∧ curTl s' = tl
        ∧ filter isOpen (table (tx s'))
          = filter (λ r, ¬ (v_id r = id ∧ v_start_tl r < tl)) (filter isOpen (table (tx s)))
            ++ [mkVertex id tl None attrs].
Proof.
  intros Htab Hcur Htl.
  destruct (setTable_is_Some vc table Htab) as [set Hset].
  unfold updateVertex. rewrite int64_small by (pow2; lia).
  rewrite (bind_ok _ _ _ _ _ (closeVertex_run vc table set (tl - 1) id s Htab Hset)).
  rewrite (insertVertex_run vc table set) by done.
  eexists. split; [done|]. split; [done|]. simpl.
  rewrite !(tableOf_setTable vc table set) by done.
  rewrite filter_app, filter_closeRows_vertex. f_equal.
  rewrite list_filter_filter. apply filter_ext_elem. intros r _.
  rewrite andb_True, bool_decide_spec, Hcur, holds_lastTimeLineCond_before.
  simpl. tauto.
Qed.

(** X4: [updateVertex] at the current timeline on a vertex (of any of
    the seven classes) whose open rows were written before: a read of
    this id at the timeline returns the new row and nothing else, and a
    read of any other id returns what it returned before. *)
Theorem updateVertex_read_back vc table tl id attrs s :
  tableOf vc = Some table → curTl s = tl → 0 < tl < 2 ^ 63 →
  (∀ r, r ∈ table (tx s) → v_id r = id → v_end_tl r = None → v_start_tl r < tl) →
  ∃ s', updateVertex tl vc id attrs s = (Ok tt, s')
    ∧ ∀ id', ∃ rows,
        vertices tl vc 0 (Some (λ r, sqEq (Some (v_id r)) id')) [] s = (Ok rows, tick s)
        ∧ vertices tl vc 0 (Some (λ r, sqEq (Some (v_id r)) id')) [] s'
          = (Ok (if decide (id' = id) then [mkVertex id tl None attrs] else rows), tick s').
Proof.
  intros Htab Hcur Htl Hold.
  destruct (updateVertex_open_rows vc table tl id attrs s) as (s' & Hrun & Hcur' & Hrows);
    [done|done|pow2; lia|].
  exists s'. split; [done|]. intros id'. eexists.
  split; [by apply vertices_by_id_run; [lia|..]|].
  rewrite (vertices_by_id_run vc table) by (done || lia). do 2 f_equal.
  rewrite Hrows, filter_app, list_filter_filter.
  rewrite (filter_cons _ (mkVertex id tl None attrs)), filter_nil. simpl.
  destruct (decide (id' = id)) as [->|Hne].
  - rewrite decide_True by done.
    rewrite filter_none_elem; [done|].
    intros r Hr. apply list_elem_of_filter in Hr as [Hopen Hr].
    intros [Hid Hnot]. apply Hnot. split; [done|]. by apply Hold.
  - rewrite decide_False by done. rewrite app_nil_r.
    apply filter_ext_elem. intros r _. split; [tauto|].
    intros Hid. split; [done|]. intros [Hid' _]. congruence.
Qed.

Lemma updateVertex_read_back_witness :
  ∃ s', updateVertex 2 vertexClassRole 2%N (mkRole RoleTypeCircle 1 "Marketing" "") treeStore
        = (Ok tt, s')
    ∧ ∀ id', ∃ rows,
        vertices 2 vertexClassRole 0 (Some (λ r, sqEq (Some (v_id r)) id')) [] treeStore
        = (Ok rows, tick treeStore)
        ∧ vertices 2 vertexClassRole 0 (Some (λ r, sqEq (Some (v_id r)) id')) [] s'
          = (Ok (if decide (id' = 2%N)
                 then [mkVertex 2%N 2 None (mkRole RoleTypeCircle 1 "Marketing" "")]
                 else rows), tick s').
Proof.
  apply (updateVertex_read_back vertexClassRole tb_role 2 2%N
           (mkRole RoleTypeCircle 1 "Marketing" "") treeStore).
  - reflexivity.
  - reflexivity.
  - split; reflexivity.
  - intros r Hr _ _. simpl in Hr.
    rewrite !elem_of_cons, elem_of_nil in Hr.
    destruct Hr as [->|[->|[->|[->|[]]]]]; reflexivity.
Defined.

(** X5: two [updateVertex] of one id at the same current timeline: the
    second does not close the row of the first, whose start timeline
    is not before [tl - 1], and a read of the id at the timeline
    returns both rows. *)
Theorem updateVertex_twice_keeps_both vc table tl id attrs1 attrs2 s :
  tableOf vc = Some table → curTl s = tl → 0 < tl < 2 ^ 63 →
  (∀ r, r ∈ table (tx s) → v_id r = id → v_end_tl r = None → v_start_tl r < tl) →
  ∃ s1 s2 rows,
    updateVertex tl vc id attrs1 s = (Ok tt, s1)
    ∧ updateVertex tl vc id attrs2 s1 = (Ok tt, s2)
    ∧ vertices tl vc 0 (Some (λ r, sqEq (Some (v_id r)) id)) [] s2 = (Ok rows, tick s2)
    ∧ rows ≡ₚ [mkVertex id tl None attrs1; mkVertex id tl None attrs2].
Proof.
  intros Htab Hcur Htl Hold.
  destruct (updateVertex_open_rows vc table tl id attrs1 s) as (s1 & Hrun1 & Hcur1 & Hrows1);
    [done|done|pow2; lia|].
  destruct (updateVertex_open_rows vc table tl id attrs2 s1) as (s2 & Hrun2 & Hcur2 & Hrows2);
    [done|done|pow2; lia|].
  exists s1, s2. eexists. split; [done|]. split; [done|].
  split; [by apply vertices_by_id_run; [lia|..]|].
  rewrite Hrows2, Hrows1.
  rewrite !filter_app, !list_filter_filter.
  rewrite !(filter_cons _ (mkVertex id tl None attrs1)),
          !(filter_cons _ (mkVertex id tl None attrs2)), !filter_nil. simpl.
  rewrite (decide_True (P := id = id ∧ ¬ (id = id ∧ tl < tl))) by (split; [done|lia]).
  rewrite (decide_True (P := id = id)) by done.
  rewrite filter_none_elem; [done|].
  intros r Hr [[[Hid Hn] _] Hopen]. apply Hn. split; [done|]. by apply Hold.
Qed.

Lemma updateVertex_twice_keeps_both_witness :
  ∃ s1 s2 rows,
    updateVertex 2 vertexClassRole 2%N (mkRole RoleTypeCircle 1 "Marketing" "") treeStore
    = (Ok tt, s1)
    ∧ updateVertex 2 vertexClassRole 2%N (mkRole RoleTypeCircle 1 "Support" "") s1
      = (Ok tt, s2)
    ∧ vertices 2 vertexClassRole 0 (Some (λ r, sqEq (Some (v_id r)) 2%N)) [] s2
      = (Ok rows, tick s2)
    ∧ rows ≡ₚ [mkVertex 2%N 2 None (mkRole RoleTypeCircle 1 "Marketing" "");
               mkVertex 2%N 2 None (mkRole RoleTypeCircle 1 "Support" "")].
Proof.
  apply (updateVertex_twice_keeps_both vertexClassRole tb_role 2 2%N
           (mkRole RoleTypeCircle 1 "Marketing" "")
           (mkRole RoleTypeCircle 1 "Support" "") treeStore).
  - reflexivity.
  - reflexivity.
  - split; reflexivity.
  - intros r Hr _ _. simpl in Hr.
    rewrite !elem_of_cons, elem_of_nil in Hr.
    destruct Hr as [->|[->|[->|[->|[]]]]]; reflexivity.
Defined.

(** ** [CheckBrokenEdges] *)

Lemma filter_length_or {A} (P Q : A → Prop)
    `{!∀ x, Decision (P x), !∀ x, Decision (Q x)} (l : list A) :
  (∀ x, x ∈ l → P x → Q x → False) →
  length (filter (λ x, P x ∨ Q x) l) = (length (filter P l) + length (filter Q l))%nat.
Proof.
  induction l as [|a l IH]; intros Hdis; [done|].
  rewrite !filter_cons.
  assert (IH' : length (filter (λ x, P x ∨ Q x) l)
                = (length (filter P l) + length (filter Q l))%nat).
  { apply IH. intros x Hx. apply Hdis. by right. }
  destruct (decide (P a)) as [HP|HP], (decide (Q a)) as [HQ|HQ].
  - destruct (Hdis a); [by left|done..].
  - rewrite decide_True by tauto. simpl. lia.
  - rewrite decide_True by tauto. simpl. lia.
  - rewrite decide_False by tauto. lia.
Qed.

Lemma filter_length_and {A} (P Q : A → Prop)
    `{!∀ x, Decision (P x), !∀ x, Decision (Q x)} (l : list A) :
  length (filter (λ x, P x ∧ Q x) l) = length (filter P l) ↔ ∀ x, x ∈ l → P x → Q x.
Proof.
  induction l as [|a l IH]; [by split; [intros _ x Hx; apply elem_of_nil in Hx|]|].
  rewrite !filter_cons.
  pose proof (filter_length_mono (λ x, P x ∧ Q x) P l ltac:(tauto)) as Hle.
  destruct (decide (P a)) as [HP|HP], (decide (Q a)) as [HQ|HQ].
  - rewrite decide_True by tauto. simpl. split.
    + intros Hlen x Hx. apply elem_of_cons in Hx as [->|Hx]; [done|].
      apply IH; [lia|done].
    + intros Hall. f_equal. apply IH. intros x Hx. apply Hall. by right.
  - rewrite decide_False by tauto. simpl. split; [lia|].
    intros Hall. destruct HQ. apply Hall; [by left|done].
  - rewrite decide_False by tauto. split.
    + intros Hlen x Hx. apply elem_of_cons in Hx as [->|Hx]; [done|]. by apply IH.
    + intros Hall. apply IH. intros x Hx. apply Hall. by right.
  - rewrite decide_False by tauto. split.
    + intros Hlen x Hx. apply elem_of_cons in Hx as [->|Hx]; [done|]. by apply IH.
    + intros Hall. apply IH. intros x Hx. apply Hall. by right.
Qed.

(** The rows counted by the second query of [checkEndpoint], when the
    selected vertex rows have different ids. *)
Lemma joinRows_length_unique {A B} (vt : list (Vertex A)) (et : list (Edge B)) point
    (lv : Vertex A → bool) (le : Edge B → bool) :
  NoDup (v_id <$> filter (λ v, lv v) vt) →
  length (joinRows vt et point (λ v e, le e && lv v))
  = length (filter (λ e, le e ∧ point e ∈ v_id <$> filter (λ v, lv v) vt) et).
Proof.
  induction vt as [|v vt IH]; intros Hnd.
  - unfold joinRows. simpl. symmetry. apply length_zero_iff_nil.
    apply filter_none_elem. intros e _ [_ Hin]. by apply elem_of_nil in Hin.
  - unfold joinRows in *. rewrite bind_cons, length_app.
    rewrite filter_cons in Hnd. rewrite filter_cons.
    assert (Hrow : length (et ≫= λ e,
                     if bool_decide (v_id v = point e) && (le e && lv v)
                     then [(v, e)] else [])
                   = length (filter (λ e, le e ∧ lv v ∧ point e = v_id v) et)).
    { clear. induction et as [|e et IH]; [done|].
      rewrite bind_cons, length_app, IH, filter_cons.
      destruct (bool_decide (v_id v = point e) && (le e && lv v)) eqn:Hb.
      - rewrite decide_True; [done|].
        apply andb_true_iff in Hb as [Hid%bool_decide_eq_true Hb].
        apply andb_true_iff in Hb as [He Hv]. rewrite He, Hv. done.
      - rewrite decide_False; [done|]. intros (He & Hv & Hid).
        rewrite bool_decide_true in Hb by done.
        destruct (le e), (lv v); done. }
    rewrite Hrow. destruct (lv v) eqn:Hlv.
    + rewrite decide_True in Hnd by done. rewrite decide_True by done.
      rewrite fmap_cons in Hnd. apply NoDup_cons in Hnd as [Hnotin Hnd].
      rewrite IH by done. rewrite fmap_cons.
      rewrite (filter_ext_elem (λ e, le e ∧ point e ∈ v_id v :: _)
                 (λ e, (le e ∧ true ∧ point e = v_id v)
                       ∨ (le e ∧ point e ∈ v_id <$> filter (λ v, lv v) vt))).
      * symmetry. apply filter_length_or. intros e _ (_ & _ & Heq) [_ Hin]. congruence.
      * intros e _. rewrite elem_of_cons. split.
        -- intros [He [Heq|Hin]]; [left|right]; done.
        -- intros [(He & _ & Heq)|[He Hin]]; (split; [done|]); [by left|by right].
    + rewrite (decide_False (P := Is_true false)) in Hnd by (intros []).
      rewrite (decide_False (P := Is_true false)) by (intros []). rewrite IH by done.
      rewrite (filter_none_elem (λ e, le e ∧ false ∧ _)); [done|].
      by intros e _ (_ & ? & _).
Qed.

Lemma tableOf_ecX ec : ∃ table, tableOf (ecX ec) = Some table.
Proof. destruct ec; simpl; eauto. Qed.

Lemma tableOf_ecY ec : ∃ table, tableOf (ecY ec) = Some table.
Proof. destruct ec; simpl; eauto. Qed.

Lemma elem_of_edgeClasses ec : ec ∈ edgeClasses.
Proof. destruct ec; unfold edgeClasses; set_unfold; tauto. Qed.

(** One endpoint of one edge class. *)
Lemma checkEndpoint_run tl ec vc (point : Edge (eattrsOf ec) → ID) s :
  (∃ table, tableOf vc = Some table) → NoDup (liveIds s tl vc) →
  ∃ r, checkEndpoint tl ec vc point s = (r, tick (tick s))
       ∧ (r = Ok tt ∨ ∃ msg, r = Err msg)
       ∧ (r = Ok tt ↔
          ∀ e, e ∈ etableOf ec (tx s) → holds (timeLineCond (curTl s) tl e) →
               point e ∈ liveIds s tl vc).
Proof.
  intros [table Htab] Hnd. unfold checkEndpoint, liveIds, vtable in *.
  rewrite Htab in *. simpl in *.
  unfold bind. rewrite !query_run. simpl.
  rewrite (joinRows_length_unique (table (tx s)) (etableOf ec (tx s)) point
             (λ v, holds (timeLineCond (curTl s) tl v))
             (λ e, holds (timeLineCond (curTl s) tl e))) by done.
  pose proof (filter_length_and
                (λ e : Edge (eattrsOf ec), Is_true (holds (timeLineCond (curTl s) tl e)))
                (λ e, point e ∈ v_id <$> filter (λ v, holds (timeLineCond (curTl s) tl v))
                                           (table (tx s)))
                (etableOf ec (tx s))) as Hand.
  case_decide as Hlen.
  - eexists. split; [done|]. split; [by left|]. split; [|done].
    intros _. by apply Hand.
  - eexists. split; [done|]. split; [right; eauto|]. split; [done|].
    intros Hall. destruct Hlen. by apply Hand.
Qed.

Lemma checkEdgeClasses_run tl ecs s :
  uniqueLiveIds s tl →
  ∃ r s', checkEdgeClasses tl ecs s = (r, s')
       ∧ tx s' = tx s ∧ curTl s' = curTl s
       ∧ (r = Ok tt ∨ ∃ msg, r = Err msg)
       ∧ (r = Ok tt ↔
          ∀ ec (e : Edge (eattrsOf ec)), ec ∈ ecs → e ∈ etableOf ec (tx s) →
            ¬ brokenEdge s tl ec e).
Proof.
  intros Huniq. revert s Huniq.
  induction ecs as [|ec ecs IH]; intros s Huniq.
  - exists (Ok tt), s. split; [done|]. split; [done|]. split; [done|].
    split; [by left|]. split; [|done]. intros _ ec e Hin. by apply elem_of_nil in Hin.
  - simpl.
    destruct (checkEndpoint_run tl ec (ecX ec) e_x s (tableOf_ecX ec) (Huniq _))
      as (rx & Hrunx & Hshapex & Hokx).
    assert (Huniq1 : uniqueLiveIds (tick (tick s)) tl) by done.
    destruct (checkEndpoint_run tl ec (ecY ec) e_y (tick (tick s)) (tableOf_ecY ec)
                (Huniq1 _)) as (ry & Hruny & Hshapey & Hoky).
    assert (Huniq2 : uniqueLiveIds (tick (tick (tick (tick s)))) tl) by done.
    destruct (IH _ Huniq2) as (r & s' & Hrun & Htx & Hcur & Hshape & Hok).
    unfold bind. rewrite Hrunx.
    destruct Hshapex as [->|[msg ->]]; cycle 1.
    { eexists _, _. split; [done|]. split; [done|]. split; [done|].
      split; [right; eauto|]. split; [done|].
      intros Hall. exfalso.
      assert (Hx : Err msg = Ok tt); [|done]. apply Hokx.
      intros e He Hlive. destruct (decide (e_x e ∈ liveIds s tl (ecX ec))); [done|].
      destruct (Hall ec e); [by left|done|]. split; [done|]. by left. }
    rewrite Hruny.
    destruct Hshapey as [->|[msg ->]]; cycle 1.
    { eexists _, _. split; [done|]. split; [done|]. split; [done|].
      split; [right; eauto|]. split; [done|].
      intros Hall. exfalso.
      assert (Hy : Err msg = Ok tt); [|done]. apply Hoky.
      intros e He Hlive.
      destruct (decide (e_y e ∈ liveIds (tick (tick s)) tl (ecY ec))); [done|].
      destruct (Hall ec e); [by left|done|]. split; [done|]. by right. }
    rewrite Hrun. exists r, s'. split; [done|]. split; [done|]. split; [done|].
    split; [done|]. rewrite Hok. split.
    + intros Hall ec' e Hin He. apply elem_of_cons in Hin as [->|Hin].
      * intros [Hlive [Hx|Hy]].
        -- apply Hx. by apply (proj1 Hokx).
        -- apply Hy. by apply (proj1 Hoky eq_refl e).
      * by apply (Hall ec' e).
    + intros Hall ec' e Hin He. apply (Hall ec' e); [by right|done].
Qed.

(** X6: when at most one row of an id is selected at [tl > 0] in every
    vertex class, [CheckBrokenEdges] returns without error iff no edge
    selected at [tl], of any of the seven edge classes, has an endpoint
    whose vertex is not selected at [tl]; otherwise it returns an
    error.  It never panics for [tl > 0], and it writes nothing. *)
Theorem CheckBrokenEdges_iff_no_broken_edge tl s :
  0 < tl → uniqueLiveIds s tl →
  ∃ r s', CheckBrokenEdges tl s = (r, s')
    ∧ tx s' = tx s
    ∧ (r = Ok tt ∨ ∃ msg, r = Err msg)
    ∧ (r = Ok tt ↔
       ∀ ec (e : Edge (eattrsOf ec)), e ∈ etableOf ec (tx s) → ¬ brokenEdge s tl ec e).
Proof.
  intros Htl Huniq. unfold CheckBrokenEdges. rewrite decide_False by lia.
  destruct (checkEdgeClasses_run tl edgeClasses s Huniq)
    as (r & s' & Hrun & Htx & _ & Hshape & Hok).
  exists r, s'. split; [done|]. split; [done|]. split; [done|].
  rewrite Hok. split.
  - intros Hall ec e. apply Hall, elem_of_edgeClasses.
  - intros Hall ec e _. apply Hall.
Qed.

Lemma treeStore_uniqueLiveIds : uniqueLiveIds treeStore 2.
Proof.
  intros vc. destruct vc; vm_compute;
    repeat (apply NoDup_cons; split; [intros Hin; elems Hin|]); apply NoDup_nil_2.
Qed.

Lemma CheckBrokenEdges_iff_no_broken_edge_witness :
  ∃ r s', CheckBrokenEdges 2 treeStore = (r, s')
    ∧ tx s' = tx treeStore
    ∧ (r = Ok tt ∨ ∃ msg, r = Err msg)
    ∧ (r = Ok tt ↔
       ∀ ec (e : Edge (eattrsOf ec)), e ∈ etableOf ec (tx treeStore) →
         ¬ brokenEdge treeStore 2 ec e).
Proof.
  apply (CheckBrokenEdges_iff_no_broken_edge 2 treeStore);
    [lia|exact treeStore_uniqueLiveIds].
Defined.

(** ** [deleteVertex] and the edges of the vertex *)

Lemma liveIds_current s tl vc table :
  curTl s = tl → tableOf vc = Some table →
  liveIds s tl vc = v_id <$> filter isOpen (table (tx s)).
Proof.
  intros Hcur Htab. unfold liveIds, vtable. rewrite Htab. simpl. f_equal.
  apply filter_ext_elem. intros r _. by rewrite Hcur, holds_timeLineCond_open.
Qed.

Lemma liveIds_no_table s tl vc : tableOf vc = None → liveIds s tl vc = [].
Proof. intros Htab. unfold liveIds, vtable. by rewrite Htab. Qed.

(** X7: [deleteVertex] closes the rows of the vertex and, its comment
    notwithstanding, none of the connected edges: when an open edge
    has the vertex as an endpoint, the edge tables are unchanged and
    the [CheckBrokenEdges] that follows returns an error. *)
Theorem deleteVertex_leaves_edges tl vc table ec (e : Edge (eattrsOf ec)) id s :
  0 < tl < 2 ^ 63 → curTl s = tl → uniqueLiveIds s tl →
  tableOf vc = Some table →
  (∀ r, r ∈ table (tx s) → v_id r = id → v_end_tl r = None → v_start_tl r < tl) →
  e ∈ etableOf ec (tx s) → e_end_tl e = None →
  (ecX ec = vc ∧ e_x e = id) ∨ (ecY ec = vc ∧ e_y e = id) →
  ∃ s' msg s'',
    deleteVertex tl vc id s = (Ok tt, s')
    ∧ (∀ ec', etableOf ec' (tx s') = etableOf ec' (tx s))
    ∧ CheckBrokenEdges tl s' = (Err msg, s'').
Proof.
  intros Htl Hcur Huniq Htab Hold He Hopen Hend.
  destruct (setTable_is_Some vc table Htab) as [set Hset].
  unfold deleteVertex. rewrite int64_small by (pow2; lia).
  rewrite (closeVertex_run vc table set) by done.
  set (s' := tick (withTx _ s)).
  assert (Hedges : ∀ ec', etableOf ec' (tx s') = etableOf ec' (tx s)).
  { intros ec'. subst s'. simpl. by apply (etableOf_setTable vc). }
  assert (Hrows : filter isOpen (table (tx s'))
                  = filter (λ r, ¬ (v_id r = id ∧ v_start_tl r < tl))
                      (filter isOpen (table (tx s)))).
  { subst s'. simpl. rewrite (tableOf_setTable vc table set) by done.
    rewrite filter_closeRows_vertex, list_filter_filter.
    apply filter_ext_elem. intros r _.
    rewrite andb_True, bool_decide_spec, Hcur, holds_lastTimeLineCond_before.
    simpl. tauto. }
  assert (Hgone : id ∉ liveIds s' tl vc).
  { rewrite (liveIds_current s' tl vc table) by done. rewrite Hrows.
    rewrite list_elem_of_fmap. intros (r & Hid & Hr).
    apply list_elem_of_filter in Hr as [Hn Hr].
    apply list_elem_of_filter in Hr as [Ho Hr].
    apply Hn. split; [done|]. by apply Hold. }
  assert (Huniq' : uniqueLiveIds s' tl).
  { intros vc'. destruct (tableOf vc') as [table'|] eqn:Htab';
      [|rewrite liveIds_no_table by done; apply NoDup_nil_2].
    rewrite (liveIds_current s' tl vc' table') by done.
    specialize (Huniq vc'). rewrite (liveIds_current s tl vc' table') in Huniq by done.
    destruct (decide (vc = vc')) as [<-|Hne].
    - assert (table' = table) as -> by congruence.
      rewrite Hrows. by apply NoDup_fmap_filter.
    - subst s'. simpl. by rewrite (tableOf_setTable_ne vc vc' table' set). }
  destruct (checkEdgeClasses_run tl edgeClasses s' Huniq')
    as (r & s'' & Hrun & _ & _ & Hshape & Hok).
  assert (Hbroken : brokenEdge s' tl ec e).
  { split.
    - change (curTl s') with (curTl s). rewrite Hcur.
      apply holds_timeLineCond_open. done.
    - destruct Hend as [[<- <-]|[<- <-]]; [by left|by right]. }
  destruct Hshape as [->|[msg ->]].
  - exfalso. apply (proj1 Hok eq_refl ec e); [apply elem_of_edgeClasses| |done].
    by rewrite Hedges.
  - exists s', msg, s''. split; [done|]. split; [done|].
    unfold CheckBrokenEdges. by rewrite decide_False by lia.
Qed.

Lemma deleteVertex_leaves_edges_witness :
  ∃ s' msg s'',
    deleteVertex 2 vertexClassRole 2%N treeStore = (Ok tt, s')
    ∧ (∀ ec', etableOf ec' (tx s') = etableOf ec' (tx treeStore))
    ∧ CheckBrokenEdges 2 s' = (Err msg, s'').
Proof.
  apply (deleteVertex_leaves_edges 2 vertexClassRole tb_role edgeClassRoleRole
           (mkEdge 1 None 1%N 2%N tt) 2%N treeStore).
  - split; reflexivity.
  - reflexivity.
  - exact treeStore_uniqueLiveIds.
  - reflexivity.
  - intros r Hr _ _. simpl in Hr.
    rewrite !elem_of_cons, elem_of_nil in Hr.
    destruct Hr as [->|[->|[->|[->|[]]]]]; reflexivity.
  - simpl. apply elem_of_cons. by left.
  - reflexivity.
  - right. by split.
Defined.

(** ** [RoleUpdated] and [RoleDeleted] on a role tree *)

(** A role tree in which one row is replaced by a row of the same id
    and depth. *)
Lemma RoleTreeOk_replace s s' r r' :
  RoleTreeOk s → r ∈ openRoles s →
  v_id r' = v_id r → Depth (v_attrs r') = Depth (v_attrs r) →
  openRoles s' = filter (λ x, v_id x ≠ v_id r) (openRoles s) ++ [r'] →
  openEdges s' = openEdges s →
  RoleTreeOk s'.
Proof.
  intros Hok Hr Hid Hdepth Hrows Hedges.
  assert (Hin : ∀ x, x ∈ openRoles s' ↔ (x ∈ openRoles s ∧ v_id x ≠ v_id r) ∨ x = r').
  { intros x. rewrite Hrows, elem_of_app, list_elem_of_filter, list_elem_of_singleton.
    tauto. }
  assert (Hback : ∀ x, x ∈ openRoles s' →
            ∃ x0, x0 ∈ openRoles s ∧ v_id x0 = v_id x
                  ∧ Depth (v_attrs x0) = Depth (v_attrs x)).
  { intros x Hx. apply Hin in Hx as [[Hx _]| ->]; [by exists x|by exists r]. }
  assert (Hforth : ∀ x0, x0 ∈ openRoles s → ∃ x, x ∈ openRoles s' ∧ v_id x = v_id x0).
  { intros x0 Hx0. destruct (decide (v_id x0 = v_id r)) as [Heq|Hne].
    - exists r'. split; [apply Hin; by right|congruence].
    - exists x0. split; [apply Hin; by left|done]. }
  constructor.
  - rewrite Hrows, fmap_app. apply NoDup_app. split; [|split].
    + apply NoDup_fmap_filter, (rt_ids _ Hok).
    + intros i Hi. rewrite list_elem_of_fmap in Hi. destruct Hi as (x & -> & Hx).
      apply list_elem_of_filter in Hx as [Hne _]. simpl.
      rewrite list_elem_of_singleton. congruence.
    + simpl. apply NoDup_singleton.
  - rewrite Hedges. apply (rt_parent _ Hok).
  - rewrite Hedges. intros e He.
    destruct (rt_edges _ Hok e He) as [(rp & Hrp & Hidp) (rc & Hrc & Hidc)].
    destruct (Hforth rp Hrp) as (rp' & ? & ?). destruct (Hforth rc Hrc) as (rc' & ? & ?).
    split; [exists rp'|exists rc']; (split; [done|congruence]).
  - rewrite Hedges. intros e rp rc He Hrp Hrc Hxp Hyc.
    destruct (Hback rp Hrp) as (rp0 & Hrp0 & Hidp & Hdp).
    destruct (Hback rc Hrc) as (rc0 & Hrc0 & Hidc & Hdc).
    rewrite <- Hdp, <- Hdc. apply (rt_depth _ Hok e); [done..|congruence|congruence].
  - rewrite Hedges. intros x Hx Hnone.
    destruct (Hback x Hx) as (x0 & Hx0 & Hidx & Hdx).
    rewrite <- Hdx. apply (rt_root _ Hok x0 Hx0). intros e He. rewrite Hidx. by apply Hnone.
  - intros x Hx. destruct (Hback x Hx) as (x0 & Hx0 & _ & Hdx).
    rewrite <- Hdx. by apply (rt_nonneg _ Hok).
Qed.

(** X8: the mutation of a [RoleUpdated] event on an open role of a
    role tree, written before the current timeline [tl]: the role is
    read back with the new type, name and purpose and with the depth
    it had, the edges are unchanged, and the store is a role tree in
    which the depth invariant holds at [tl]. *)
Theorem RoleUpdated_keeps_depth fuel tl id ty name purpose r s :
  curTl s = tl → 0 < tl < 2 ^ 63 → RoleTreeOk s →
  r ∈ openRoles s → v_id r = id → v_start_tl r < tl →
  ∃ s', applyMutation fuel tl (EventRoleUpdated id ty name purpose) s = (Ok tt, s')
    ∧ roleAt s' tl id
      = Some (mkVertex id tl None (mkRole ty (Depth (v_attrs r)) name purpose))
    ∧ openEdges s' = openEdges s
    ∧ RoleTreeOk s' ∧ depthInvariantAt s' tl.
Proof.
  intros Hcur Htl Hok Hr Hid Hstart. unfold applyMutation.
  rewrite (bind_ok _ _ _ _ _ (RoleInternal_run tl id s ltac:(lia))).
  rewrite <- Hid. rewrite (roleAt_unique s tl r Hcur (rt_ids _ Hok) Hr).
  set (r' := mkVertex (v_id r) tl None (mkRole ty (Depth (v_attrs r)) name purpose)).
  destruct (updateVertex_role tl (v_id r) (mkRole ty (Depth (v_attrs r)) name purpose)
              (tick s)) as (s' & Hrun & Hcur' & Htab & Hrows).
  { done. }
  { pow2. lia. }
  { intros x Hx Hidx.
    rewrite (NoDup_fmap_eq v_id (openRoles s) x r (rt_ids _ Hok)); done. }
  assert (Hedges : openEdges s' = openEdges s) by (unfold openEdges; by rewrite Htab).
  assert (Hok' : RoleTreeOk s') by (by apply (RoleTreeOk_replace s s' r r')).
  exists s'. split; [done|]. split; [|split; [done|split; [done|]]].
  - apply (roleAt_unique s' tl r' Hcur' (rt_ids _ Hok')).
    change (openRoles (tick s)) with (openRoles s) in Hrows.
    rewrite Hrows. apply elem_of_app. right. by apply list_elem_of_singleton.
  - by apply RoleTreeOk_depthInvariant.
Qed.

Lemma RoleUpdated_keeps_depth_witness :
  ∃ s', applyMutation 0 2 (EventRoleUpdated 4%N RoleTypeNormal "Buyer" "buys") treeStore
        = (Ok tt, s')
    ∧ roleAt s' 2 4%N = Some (mkVertex 4%N 2 None (mkRole RoleTypeNormal 2 "Buyer" "buys"))
    ∧ openEdges s' = openEdges treeStore
    ∧ RoleTreeOk s' ∧ depthInvariantAt s' 2.
Proof.
  apply (RoleUpdated_keeps_depth 0 2 4%N RoleTypeNormal "Buyer" "buys"
           (mkVertex 4%N 1 None (mkRole RoleTypeNormal 2 "Seller" "")) treeStore).
  - reflexivity.
  - split; reflexivity.
  - exact treeStore_RoleTreeOk.
  - rewrite treeStore_roles. rewrite !elem_of_cons. tauto.
  - reflexivity.
  - reflexivity.
Defined.

(** X9: the mutation of a [RoleDeleted] event on an open role of a role
    tree that has no child role, the role and the edge from its parent
    written before the current timeline [tl]: the row of the role and
    the edge from its parent are closed, nothing else changes, and the
    store is a role tree in which the depth invariant holds at [tl]. *)
Theorem RoleDeleted_leaf_keeps_tree fuel tl id r s :
  curTl s = tl → 0 < tl < 2 ^ 63 → RoleTreeOk s →
  r ∈ openRoles s → v_id r = id → v_start_tl r < tl →
  (∀ e, e ∈ openEdges s → e_y e = id → e_start_tl e < tl) →
  (∀ e, e ∈ openEdges s → e_x e ≠ id) →
  ∃ s', applyMutation fuel tl (EventRoleDeleted id) s = (Ok tt, s')
    ∧ openRoles s' = filter (λ x, v_id x ≠ id) (openRoles s)
    ∧ openEdges s' = filter (λ e, e_y e ≠ id) (openEdges s)
    ∧ RoleTreeOk s' ∧ depthInvariantAt s' tl.
Proof.
  intros Hcur Htl Hok Hr Hid Hstart Hestart Hleaf. unfold applyMutation.
  destruct (RoleParentInternal_run tl id s) as (groups & Hq & Hgroups); [lia|].
  rewrite (bind_ok _ _ _ _ _ Hq). cbv zeta.
  unfold deleteVertex. rewrite int64_small by (pow2; lia).
  rewrite (bind_ok _ _ _ _ _ (closeVertex_role_run (tl - 1) id (tick s))).
  set (s1 := tick (withTx _ (tick s))).
  assert (Hcur1 : curTl s1 = tl) by done.
  assert (Hedges1 : openEdges s1 = openEdges s).
  { subst s1. unfold openEdges. simpl. by destruct s as [[] ? ? ?]. }
  assert (Hroles1 : openRoles s1 = filter (λ x, v_id x ≠ id) (openRoles s)).
  { subst s1. unfold openRoles. simpl.
    rewrite filter_closeRows_vertex, list_filter_filter.
    apply filter_ext_elem. intros x Hx.
    rewrite andb_True, bool_decide_spec, Hcur, holds_lastTimeLineCond_before.
    split; [intros [Ho Hn]; split; [|done]; intros Hidx; apply Hn|tauto].
    split; [done|]. split; [done|].
    assert (x = r) as ->; [|done].
    apply (NoDup_fmap_eq v_id (openRoles s)); [apply (rt_ids _ Hok)| |done|congruence].
    by apply list_elem_of_filter. }
  assert (Hdel : ∃ s',
    match groups !! id with
    | Some prole => deleteEdge tl edgeClassRoleRole (v_id prole) id
    | None => ret tt
    end s1 = (Ok tt, s')
    ∧ tb_role (tx s') = tb_role (tx s1)
    ∧ openEdges s' = filter (λ e, e_y e ≠ id) (openEdges s)).
  { rewrite Hgroups. destruct (head (parentRolesAt s tl id)) as [p|] eqn:Hhead.
    - apply head_Some_elem_of in Hhead.
      apply parentRolesAt_elem in Hhead as [Hp (e & He & Hx & Hy)]; [|done].
      destruct (deleteEdge_rolerole tl (v_id p) id s1) as (s' & Hrun & Hc & Htr & Hoe).
      + done.
      + pow2. lia.
      + intros e0 He0 _ Hy0. apply Hestart; [by rewrite <- Hedges1|done].
      + exists s'. split; [done|]. split; [done|].
        rewrite Hoe, Hedges1. apply filter_ext_elem. intros e0 He0. split.
        * intros Hn Hy0. apply Hn. split; [|done].
          rewrite <- Hx. f_equal.
          apply (NoDup_fmap_eq e_y (openEdges s)); [apply (rt_parent _ Hok)|done|done|].
          congruence.
        * by intros Hn [_ Hy0].
    - exists s1. split; [done|]. split; [done|]. rewrite Hedges1.
      symmetry. apply filter_all_elem. intros e He Hy.
      destruct (rt_edges _ Hok e He) as [(rp & Hrp & Hidp) _].
      assert (Hin : rp ∈ parentRolesAt s tl id).
      { apply parentRolesAt_elem; [done|]. split; [done|]. by exists e. }
      apply head_None in Hhead. rewrite Hhead in Hin. by apply elem_of_nil in Hin. }
  destruct Hdel as (s' & Hrun & Htab & Hedges).
  assert (Hroles : openRoles s' = filter (λ x, v_id x ≠ id) (openRoles s)).
  { rewrite <- Hroles1. unfold openRoles. by rewrite Htab. }
  assert (Hok' : RoleTreeOk s').
  { constructor.
    - rewrite Hroles. apply NoDup_fmap_filter, (rt_ids _ Hok).
    - rewrite Hedges. apply NoDup_fmap_filter, (rt_parent _ Hok).
    - rewrite Hedges, Hroles. intros e He. apply list_elem_of_filter in He as [Hy He].
      destruct (rt_edges _ Hok e He) as [(rp & Hrp & Hidp) (rc & Hrc & Hidc)].
      split; [exists rp|exists rc]; (split; [|done]); apply list_elem_of_filter;
        (split; [|done]).
      + rewrite Hidp. by apply Hleaf.
      + by rewrite Hidc.
    - rewrite Hedges, Hroles. intros e rp rc He Hrp Hrc.
      apply list_elem_of_filter in He as [_ He].
      apply list_elem_of_filter in Hrp as [_ Hrp].
      apply list_elem_of_filter in Hrc as [_ Hrc].
      by apply (rt_depth _ Hok).
    - rewrite Hedges, Hroles. intros x Hx Hnone.
      apply list_elem_of_filter in Hx as [Hne Hx].
      apply (rt_root _ Hok x Hx). intros e He Hy. apply (Hnone e); [|done].
      apply list_elem_of_filter. split; [congruence|done].
    - rewrite Hroles. intros x Hx. apply list_elem_of_filter in Hx as [_ Hx].
      by apply (rt_nonneg _ Hok). }
  exists s'. split; [done|]. split; [done|]. split; [done|]. split; [done|].
  apply RoleTreeOk_depthInvariant; [|done].
  destruct (groups !! id); simpl in Hrun.
  - unfold deleteEdge, closeEdge, exec in Hrun. by simplify_eq.
  - unfold ret in Hrun. by simplify_eq.
Qed.

Lemma RoleDeleted_leaf_keeps_tree_witness :
  ∃ s', applyMutation 0 2 (EventRoleDeleted 4%N) treeStore = (Ok tt, s')
    ∧ openRoles s' = filter (λ x, v_id x ≠ 4%N) (openRoles treeStore)
    ∧ openEdges s' = filter (λ e, e_y e ≠ 4%N) (openEdges treeStore)
    ∧ RoleTreeOk s' ∧ depthInvariantAt s' 2.
Proof.
  apply (RoleDeleted_leaf_keeps_tree 0 2 4%N
           (mkVertex 4%N 1 None (mkRole RoleTypeNormal 2 "Seller" "")) treeStore).
  - reflexivity.
  - split; reflexivity.
  - exact treeStore_RoleTreeOk.
  - rewrite treeStore_roles. rewrite !elem_of_cons. tauto.
  - reflexivity.
  - reflexivity.
  - intros e He _. rewrite treeStore_edges in He.
    rewrite !elem_of_cons, elem_of_nil in He.
    destruct He as [->|[->|[->|[]]]]; reflexivity.
  - intros e He. rewrite treeStore_edges in He.
    rewrite !elem_of_cons, elem_of_nil in He.
    destruct He as [->|[->|[->|[]]]]; discriminate.
Defined.

(** ** Roles and members by id *)

Lemma keysLe_single {A} (k : A → string) a b :
  keysLe [k] a b = String.leb (k a) (k b).
Proof. unfold keysLe, String.leb. by destruct (String.compare (k a) (k b)). Qed.

#[local] Instance keysLe_single_total {A} (k : A → string) :
  Total (λ a b, Is_true (keysLe [k] a b)).
Proof.
  intros a b. rewrite !keysLe_single.
  destruct (String.leb_total (k a) (k b)) as [->| ->]; auto.
Qed.

Lemma Sorted_weaken {A} (R R' : relation A) l :
  (∀ a b, R a b → R' a b) → Sorted R l → Sorted R' l.
Proof.
  intros HR. induction 1 as [|a l Hs IH Hhd]; constructor; [done|].
  destruct Hhd; constructor; auto.
Qed.

Lemma vertices_by_ids_run vc table tl ids (key : Vertex (attrsOf vc) → string) s :
  0 < tl → tableOf vc = Some table →
  ∃ rows,
    vertices tl vc 0
      (if decide (0 < length ids)%nat
       then Some (λ r, sqIn (Some (v_id r)) ids) else None) [key] s
    = (Ok rows, tick s)
    ∧ rows ≡ₚ selectedByIds s tl ids (table (tx s))
    ∧ Sorted (λ a b, String.le (key a) (key b)) rows.
Proof.
  intros Htl Htab. rewrite (vertices_run tl vc 0 _ [key] table) by done.
  unfold applyLimit, orderBy. rewrite decide_True by done.
  eexists. split; [done|]. split.
  - rewrite merge_sort_Permutation. unfold selectedByIds.
    apply reflexive_eq, filter_ext_elem. intros r _.
    rewrite andb_True. unfold whereCond, sqIn.
    destruct ids as [|i ids]; simpl.
    + tauto.
    + case_bool_decide; simpl; split; [tauto|tauto|tauto|].
      intros [? [?|?]]; done.
  - eapply Sorted_weaken; [|apply (Sorted_merge_sort _)].
    intros a b Hab. unfold String.le. by rewrite <- keysLe_single.
Qed.

(** X10: for [tl > 0] [RolesInternal] and [MembersByIDsInternal] return
    the rows selected at [tl] whose id is in the list, ordered by name
    (by full name); with an empty list of ids they return every role
    (every member) selected at [tl], not none. *)
Theorem by_ids_empty_means_all tl ids s :
  0 < tl →
  (∃ roles, RolesInternal tl ids s = (Ok roles, tick s)
     ∧ roles ≡ₚ selectedByIds s tl ids (tb_role (tx s))
     ∧ Sorted (λ a b, String.le (Name (v_attrs a)) (Name (v_attrs b))) roles)
  ∧ (∃ members, MembersByIDsInternal tl ids s = (Ok members, tick s)
       ∧ members ≡ₚ selectedByIds s tl ids (tb_member (tx s))
       ∧ Sorted (λ a b, String.le (FullName (v_attrs a)) (FullName (v_attrs b))) members)
  ∧ selectedByIds s tl [] (tb_role (tx s))
    = filter (λ r, holds (timeLineCond (curTl s) tl r)) (tb_role (tx s)).
Proof.
  intros Htl. split; [|split].
  - by apply (vertices_by_ids_run vertexClassRole tb_role).
  - by apply (vertices_by_ids_run vertexClassMember tb_member).
  - unfold selectedByIds. apply filter_ext_elem. intros r _. tauto.
Qed.

Lemma by_ids_empty_means_all_witness :
  (∃ roles, RolesInternal 2 [] treeStore = (Ok roles, tick treeStore)
     ∧ roles ≡ₚ selectedByIds treeStore 2 [] (tb_role (tx treeStore))
     ∧ Sorted (λ a b, String.le (Name (v_attrs a)) (Name (v_attrs b))) roles)
  ∧ (∃ members, MembersByIDsInternal 2 [] treeStore = (Ok members, tick treeStore)
       ∧ members ≡ₚ selectedByIds treeStore 2 [] (tb_member (tx treeStore))
       ∧ Sorted (λ a b, String.le (FullName (v_attrs a)) (FullName (v_attrs b))) members)
  ∧ selectedByIds treeStore 2 [] (tb_role (tx treeStore))
    = filter (λ r, holds (timeLineCond (curTl treeStore) 2 r)) (tb_role (tx treeStore)).
Proof. apply (by_ids_empty_means_all 2 [] treeStore). lia. Defined.

(** ** Role events *)

Lemma insertRoleEvent_run e s :
  ∃ s', insertRoleEvent e s = (Ok tt, s')
        ∧ curTl s' = curTl s
        ∧ tb_roleevent (tx s')
          = filter (λ x, re_ID x ≠ re_ID e) (tb_roleevent (tx s)) ++ [e].
Proof.
  unfold insertRoleEvent, bind, exec. eexists. split; [done|]. split; [done|].
  by destruct s as [[] ? ? ?].
Qed.

(** X11: [insertRoleEvent] replaces the event of the same id, if any:
    afterwards the table holds exactly one event of this id, inserting
    the event again changes nothing, and, when the store held no event
    of another id for the role and timeline of the event,
    [getCircleChangesAppliedRoleEvent] returns the event. *)
Theorem insertRoleEvent_then_get e s :
  (∀ x, x ∈ tb_roleevent (tx s) →
        re_RoleID x = re_RoleID e → re_TimeLineID x = re_TimeLineID e →
        re_ID x = re_ID e) →
  ∃ s', insertRoleEvent e s = (Ok tt, s')
    ∧ filter (λ x, re_ID x = re_ID e) (tb_roleevent (tx s')) = [e]
    ∧ getCircleChangesAppliedRoleEvent (re_TimeLineID e) (re_RoleID e) s'
      = (Ok (Some e), tick s')
    ∧ ∃ s'', insertRoleEvent e s' = (Ok tt, s'')
             ∧ tb_roleevent (tx s'') = tb_roleevent (tx s').
Proof.
  intros Hother.
  destruct (insertRoleEvent_run e s) as (s' & Hrun & _ & Htab).
  exists s'. split; [done|].
  assert (Hone : filter (λ x, re_ID x = re_ID e) (tb_roleevent (tx s')) = [e]).
  { rewrite Htab, filter_app, list_filter_filter.
    rewrite (filter_none_elem (λ x, re_ID x = re_ID e ∧ _)) by (intros x _; tauto).
    by rewrite filter_cons, decide_True, filter_nil. }
  split; [done|]. split.
  - unfold getCircleChangesAppliedRoleEvent, RoleEventsByTypeInternal.
    unfold bind. rewrite query_run.
    assert (Hrows : filter (λ x, re_RoleID x = re_RoleID e
                                 ∧ re_TimeLineID x = re_TimeLineID e
                                 ∧ re_EventType x = RoleEventTypeCircleChangesApplied)
                      (tb_roleevent (tx s')) = [e]).
    { rewrite Htab, filter_app, list_filter_filter.
      rewrite filter_none_elem.
      - rewrite filter_cons, decide_True, filter_nil; [done|].
        by destruct (re_EventType e).
      - intros x Hx [(Hrole & Htl & _) Hid]. apply Hid. by apply Hother. }
    rewrite Hrows. done.
  - destruct (insertRoleEvent_run e s') as (s'' & Hrun' & _ & Htab').
    exists s''. split; [done|]. rewrite Htab', Htab.
    rewrite filter_app, list_filter_filter.
    rewrite (filter_cons _ e), decide_False, filter_nil, app_nil_r by tauto.
    f_equal. apply filter_ext_elem. intros x _. tauto.
Qed.

Lemma insertRoleEvent_then_get_witness :
  ∃ s', insertRoleEvent (NewRoleEventCircleChangesApplied 5 51%N 7%N 60%N) threeEventsStore
        = (Ok tt, s')
    ∧ filter (λ x, re_ID x = 51%N) (tb_roleevent (tx s'))
      = [NewRoleEventCircleChangesApplied 5 51%N 7%N 60%N]
    ∧ getCircleChangesAppliedRoleEvent 5 7%N s'
      = (Ok (Some (NewRoleEventCircleChangesApplied 5 51%N 7%N 60%N)), tick s')
    ∧ ∃ s'', insertRoleEvent (NewRoleEventCircleChangesApplied 5 51%N 7%N 60%N) s'
             = (Ok tt, s'')
             ∧ tb_roleevent (tx s'') = tb_roleevent (tx s').
Proof.
  apply (insertRoleEvent_then_get (NewRoleEventCircleChangesApplied 5 51%N 7%N 60%N)
           threeEventsStore).
  intros x Hx. simpl in Hx. rewrite !elem_of_cons, elem_of_nil in Hx.
  destruct Hx as [->|[->|[->|[]]]]; simpl; intros; (reflexivity || discriminate).
Defined.



(** ** Nil pointers in the digest pass *)

Lemma bind_Ok_inv {A B} (m : M A) (k : A → M B) s b s' :
  bind m k s = (Ok b, s') → ∃ a s1, m s = (Ok a, s1) ∧ k a s1 = (Ok b, s').
Proof.
  unfold bind. destruct (m s) as [[a|e|p|] s1]; intros Hk; try done. by exists a, s1.
Qed.

(** X13: a [RoleChangedParent] event without new parent is never
    applied with success: [changeRoleParent] handles the missing
    parent, but the digest pass dereferences it.  When the graph
    mutation succeeds, [ApplyEvent] panics after it, with the role
    already moved. *)
Theorem RoleChangedParent_without_parent_fails fuel event groupID RoleID s :
  ev_GroupID event = Some groupID →
  ev_Data event = EventRoleChangedParent RoleID None →
  (∀ s', ApplyEvent fuel event s ≠ (Ok tt, s'))
  ∧ (∀ tl s1 s2, applyMutation fuel tl (ev_Data event) s1 = (Ok tt, s2) →
       (let* _ := applyMutation fuel tl (ev_Data event) in applyDigest tl event) s1
       = (Panic nilDereference, s2)).
Proof.
  intros Hgroup Hdata. split.
  - intros s' Hrun. unfold ApplyEvent in Hrun. rewrite Hgroup in Hrun.
    apply bind_Ok_inv in Hrun as (tl0 & s1 & _ & Hrun).
    apply bind_Ok_inv in Hrun as (tl & s2 & _ & Hrun).
    apply bind_Ok_inv in Hrun as (cur & s3 & _ & Hrun).
    apply bind_Ok_inv in Hrun as ([] & s4 & _ & Hrun).
    apply bind_Ok_inv in Hrun as ([] & s5 & _ & Hrun).
    unfold applyDigest in Hrun. rewrite Hdata in Hrun. done.
  - intros tl s1 s2 Hmut. rewrite (bind_ok _ _ _ _ _ Hmut).
    unfold applyDigest. by rewrite Hdata.
Qed.

Lemma RoleChangedParent_without_parent_fails_witness :
  (∀ s', ApplyEvent 4 (ev 9%N 90%N 2 (EventRoleChangedParent 2%N None)) treeStore
         ≠ (Ok tt, s'))
  ∧ (∀ tl s1 s2,
       applyMutation 4 tl (EventRoleChangedParent 2%N None) s1 = (Ok tt, s2) →
       (let* _ := applyMutation 4 tl (EventRoleChangedParent 2%N None) in
        applyDigest tl (ev 9%N 90%N 2 (EventRoleChangedParent 2%N None))) s1
       = (Panic nilDereference, s2)).
Proof.
  apply (RoleChangedParent_without_parent_fails 4
           (ev 9%N 90%N 2 (EventRoleChangedParent 2%N None)) 90%N 2%N treeStore);
    reflexivity.
Defined.

(** The role 2 of the example tree is moved to the top: the mutation
    succeeds and the event panics. *)
Lemma RoleChangedParent_without_parent_example :
  (applyMutation 4 2 (EventRoleChangedParent 2%N None) treeStore).1 = Ok tt
  ∧ (ApplyEvent 4 (ev 9%N 90%N 2 (EventRoleChangedParent 2%N None)) treeStore).1
    = Panic nilDereference.
Proof. split; by vm_compute. Qed.

(** X14: the digest pass of a [RoleDeleted] event looks up the parent
    of the role at the timeline before and dereferences it: for a role
    that has no parent there (the root role, or a role created at the
    timeline of the event) it panics, for every store. *)
Theorem RoleDeleted_digest_without_parent_panics tl event RoleID s :
  ev_Data event = EventRoleDeleted RoleID →
  1 < tl < 2 ^ 63 →
  parentRolesAt s (tl - 1) RoleID = [] →
  applyDigest tl event s = (Panic nilDereference, tick s).
Proof.
  intros Hdata Htl Hnone. unfold applyDigest. rewrite Hdata.
  unfold digestRoleDeleted. rewrite int64_small by (pow2; lia).
  destruct (RoleParentInternal_run (tl - 1) RoleID s) as (groups & Hq & Hgroups); [lia|].
  rewrite (bind_ok _ _ _ _ _ Hq). by rewrite Hgroups, Hnone.
Qed.

Lemma RoleDeleted_digest_without_parent_panics_witness :
  applyDigest 2 (ev 9%N 90%N 2 (EventRoleDeleted 1%N)) treeStore
  = (Panic nilDereference, tick treeStore).
Proof.
  apply (RoleDeleted_digest_without_parent_panics 2
           (ev 9%N 90%N 2 (EventRoleDeleted 1%N)) 1%N treeStore).
  - reflexivity.
  - split; reflexivity.
  - reflexivity.
Defined.

(** X15: the digest pass of a [RoleCreated] event of a role that is
    not a core role, below a parent, dereferences the digest of the
    parent circle at the timeline: when the table holds no such digest
    (no child role command on this circle was applied at the timeline)
    it panics. *)
Theorem RoleCreated_digest_without_command_panics tl event RoleID ty name purpose
    parentID prole s :
  ev_Data event = EventRoleCreated RoleID ty name purpose (Some parentID) →
  IsCoreRoleType ty = false →
  0 < tl → roleAt s tl parentID = Some prole →
  (∀ e, e ∈ tb_roleevent (tx s) → re_RoleID e = parentID →
        re_EventType e = RoleEventTypeCircleChangesApplied → re_TimeLineID e ≠ tl) →
  applyDigest tl event s = (Panic nilDereference, tick (tick s)).
Proof.
  intros Hdata Hcore Htl Hrole Hnone. unfold applyDigest. rewrite Hdata, Hcore.
  unfold digestRoleCreated.
  rewrite (bind_ok _ _ _ _ _ (RoleInternal_run tl parentID s Htl)). rewrite Hrole.
  rewrite (vertexAt_id _ _ _ _ _ Hrole).
  unfold getCircleChangesAppliedRoleEvent, RoleEventsByTypeInternal.
  unfold bind. rewrite query_run.
  rewrite filter_none_elem; [done|].
  intros e He (Hr & Ht & Hk). by apply (Hnone e).
Qed.

Lemma RoleCreated_digest_without_command_panics_witness :
  applyDigest 2 (ev 9%N 90%N 2 (EventRoleCreated 5%N RoleTypeNormal "Buyer" "" (Some 3%N)))
    treeStore
  = (Panic nilDereference, tick (tick treeStore)).
Proof.
  apply (RoleCreated_digest_without_command_panics 2
           (ev 9%N 90%N 2 (EventRoleCreated 5%N RoleTypeNormal "Buyer" "" (Some 3%N)))
           5%N RoleTypeNormal "Buyer" "" 3%N
           (mkVertex 3%N 1 None (mkRole RoleTypeCircle 1 "Production" "")) treeStore).
  - reflexivity.
  - reflexivity.
  - lia.
  - reflexivity.
  - intros e He. simpl in He. by apply elem_of_nil in He.
Defined.

(** ** Members of a role *)

Lemma filter_fmap_list {A B} (f : A → B) (P : B → Prop) `{∀ x, Decision (P x)}
    (l : list A) :
  filter P (f <$> l) = f <$> filter (λ x, P (f x)) l.
Proof.
  induction l as [|a l IH]; [done|].
  rewrite fmap_cons, !filter_cons. case_decide; [|done]. by rewrite fmap_cons, IH.
Qed.

Lemma joinRows_dead {A B} (vt : list (Vertex A)) (et : list (Edge B)) point
    (keep : Vertex A → Edge B → bool) :
  (∀ v e, v ∈ vt → e ∈ et → v_id v = point e → keep v e = false) →
  joinRows vt et point keep = [].
Proof.
  intros Hk. destruct (joinRows vt et point keep) as [|[v e] l] eqn:Hj; [done|].
  assert (Hin : (v, e) ∈ joinRows vt et point keep) by (rewrite Hj; by left).
  apply elem_of_joinRows in Hin as (Hv & He & Hp & Hkeep).
  by rewrite (Hk v e) in Hkeep.
Qed.

Lemma joinRows_cons {A B} (v : Vertex A) (vt : list (Vertex A))
    (et : list (Edge B)) point keep :
  joinRows (v :: vt) et point keep
  = joinRows [v] et point keep ++ joinRows vt et point keep.
Proof. unfold joinRows. rewrite !bind_cons. simpl. by rewrite app_nil_r. Qed.

Lemma joinRows_one {A B} (v : Vertex A) (et : list (Edge B)) point keep :
  joinRows [v] et point keep
  = et ≫= λ e, if bool_decide (v_id v = point e) && keep v e then [(v, e)] else [].
Proof. unfold joinRows. simpl. by rewrite app_nil_r. Qed.

Lemma joinRows_app_edges {A B} (v : Vertex A) (vt : list (Vertex A))
    (et et' : list (Edge B)) point keep :
  joinRows (v :: vt) (et ++ et') point keep
  = joinRows [v] et point keep ++ joinRows [v] et' point keep
    ++ joinRows vt (et ++ et') point keep.
Proof.
  unfold joinRows. rewrite !bind_cons. simpl. rewrite !app_nil_r, bind_app.
  by rewrite <- app_assoc.
Qed.

(** The join after an UPDATE that closes the edges of [sel] and an
    INSERT of the edges [news], for a condition that none of these
    edges satisfies. *)
Lemma joinRows_close_add_other {A B} (vt : list (Vertex A)) (et news : list (Edge B))
    endtl (sel : Edge B → bool) point (keep : Vertex A → Edge B → bool) :
  (∀ e, point (set_end_tl endtl e) = point e) →
  (∀ v e, v_id v = point e → sel e = true →
          keep v e = false ∧ keep v (set_end_tl endtl e) = false) →
  (∀ v e, e ∈ news → v_id v = point e → keep v e = false) →
  joinRows vt (closeRows endtl sel et ++ news) point keep = joinRows vt et point keep.
Proof.
  intros Hpoint Hsel Hnews.
  induction vt as [|v vt IH]; [done|].
  rewrite joinRows_app_edges, IH.
  rewrite (joinRows_dead [v] news).
  2:{ intros v' e Hv' He Hp. by apply Hnews. }
  rewrite (joinRows_cons v vt et), app_nil_l. f_equal.
  rewrite !joinRows_one. unfold closeRows.
  clear IH. induction et as [|e et IH]; [done|].
  rewrite fmap_cons, !bind_cons, IH. f_equal.
  destruct (sel e) eqn:He; [|done].
  rewrite Hpoint. case_bool_decide as Hp; [|done].
  destruct (Hsel v e Hp He) as [H1 H2]. by rewrite H1, H2.
Qed.

(** The join with one edge. *)
Lemma joinRows_single {A B} (vt : list (Vertex A)) (e : Edge B) point
    (keep : Vertex A → Edge B → bool) :
  joinRows vt [e] point keep
  = (λ v, (v, e)) <$> filter (λ v, v_id v = point e ∧ keep v e) vt.
Proof.
  induction vt as [|v vt IH]; [done|].
  rewrite joinRows_cons, IH, filter_cons. unfold joinRows. simpl.
  case_bool_decide as Hp; destruct (keep v e) eqn:Hk; simpl;
    case_decide as Hd; simpl; try done; try (destruct Hd; done);
    try (exfalso; apply Hd; by rewrite ?Hk).
Qed.

(** [RoleMemberEdgesInternal] at a timeline [tl > 0]. *)
Lemma RoleMemberEdgesInternal_lookup tl ids s :
  0 < tl →
  ∃ groups,
    RoleMemberEdgesInternal tl ids [] s = (Ok groups, tick s)
    ∧ ∀ k, groups !! k =
        if decide (k ∈ ids ∧ connectedAt s tl k edgeClassRoleMember edgeDirectionIn
                               tb_member ≠ [])
        then Some ((λ ve : Member * Edge RoleMemberAttrs,
                      mkRoleMemberEdge ve.1 (Focus (e_attrs ve.2))
                        (NoCoreMember (e_attrs ve.2))
                        (ElectionExpiration (e_attrs ve.2)))
                   <$> connectedAt s tl k edgeClassRoleMember edgeDirectionIn tb_member)
        else None.
Proof.
  intros Htl. unfold RoleMemberEdgesInternal.
  destruct (connectedVertices_lookup tl ids edgeClassRoleMember edgeDirectionIn
              (Some vertexClassRoleMemberEdge) [] tb_member s)
    as (groups & Hrun & Hlook); [done..|].
  eexists. split.
  - by rewrite (bind_ok _ _ _ _ _ Hrun).
  - intros k. rewrite lookup_fmap, Hlook. by case_decide.
Qed.

Lemma joinRows_ext_join {A B} (vt : list (Vertex A)) (et : list (Edge B)) point
    (keep keep' : Vertex A → Edge B → bool) :
  (∀ v e, v ∈ vt → e ∈ et → v_id v = point e → keep v e = keep' v e) →
  joinRows vt et point keep = joinRows vt et point keep'.
Proof.
  intros Hk. unfold joinRows. apply bind_ext_elem. intros v Hv.
  apply bind_ext_elem. intros e He.
  case_bool_decide as Hp; [|done]. by rewrite (Hk v e).
Qed.

Lemma joinRows_dead_prefix {A B} (vt : list (Vertex A)) (et et' : list (Edge B)) point
    (keep : Vertex A → Edge B → bool) :
  (∀ v e, e ∈ et → v_id v = point e → keep v e = false) →
  joinRows vt (et ++ et') point keep = joinRows vt et' point keep.
Proof.
  intros Hdead. induction vt as [|v vt IH]; [done|].
  rewrite joinRows_app_edges, IH, (joinRows_cons v vt et').
  rewrite (joinRows_dead [v] et); [done|].
  intros v' e _ He Hp. by apply Hdead.
Qed.

(** The join of [connectedVertices] at the current timeline. *)
Lemma connectedAt_current s tl k ec direction table :
  curTl s = tl →
  connectedAt s tl k ec direction table
  = joinRows (table (tx s)) (etableOf ec (tx s)) (endEdgePoint direction)
      (λ v e, bool_decide (startEdgePoint direction e = k)
              && bool_decide (isOpen v) && bool_decide (isOpen e)).
Proof.
  intros Hcur. unfold connectedAt. apply joinRows_ext. intros v e _ _.
  unfold timeLineCond. rewrite !decide_True by done.
  rewrite andb_true_r. f_equal; [f_equal|].
  - apply bool_decide_ext. by rewrite list_elem_of_singleton.
  - unfold sqIsNull. simpl.
    case_bool_decide as Hd; unfold isOpen in Hd; simpl in Hd;
      [by rewrite Hd|by destruct (v_end_tl v)].
  - unfold sqIsNull. simpl.
    case_bool_decide as Hd; unfold isOpen in Hd; simpl in Hd;
      [by rewrite Hd|by destruct (e_end_tl e)].
Qed.

(** The members joined to a role at the current timeline [tl], after
    the edges from [memberID] to [roleID] written before [tl] were
    closed at [tl - 1] and the edges [news] between the two were
    inserted. *)
Lemma memberEdges_after_write tl roleID memberID news s s' :
  curTl s = tl → curTl s' = tl →
  tb_member (tx s') = tb_member (tx s) →
  etableOf edgeClassRoleMember (tx s')
  = closeRows (tl - 1)
      (λ e, bool_decide (e_x e = memberID) && bool_decide (e_y e = roleID)
            && holds (lastTimeLineCond tl (tl - 1) e))
      (etableOf edgeClassRoleMember (tx s)) ++ news →
  (∀ e, e ∈ news → e_x e = memberID ∧ e_y e = roleID) →
  (∀ k, k ≠ roleID →
     connectedAt s' tl k edgeClassRoleMember edgeDirectionIn tb_member
     = connectedAt s tl k edgeClassRoleMember edgeDirectionIn tb_member)
  ∧ (∀ k,
     filter (λ ve, v_id ve.1 ≠ memberID)
       (connectedAt s' tl k edgeClassRoleMember edgeDirectionIn tb_member)
     = filter (λ ve, v_id ve.1 ≠ memberID)
         (connectedAt s tl k edgeClassRoleMember edgeDirectionIn tb_member))
  ∧ ((∀ e, e ∈ etableOf edgeClassRoleMember (tx s) →
           e_x e = memberID → e_y e = roleID → isOpen e → e_start_tl e < tl) →
     filter (λ ve, v_id ve.1 = memberID)
       (connectedAt s' tl roleID edgeClassRoleMember edgeDirectionIn tb_member)
     = joinRows (tb_member (tx s)) news e_x
         (λ v e, bool_decide (isOpen v) && bool_decide (isOpen e))).
Proof.
  intros Hcur Hcur' Hmem Het Hnews.
  set (sel := λ e : Edge RoleMemberAttrs,
         bool_decide (e_x e = memberID) && bool_decide (e_y e = roleID)
         && holds (lastTimeLineCond tl (tl - 1) e)) in *.
  assert (Hsel : ∀ e, sel e = true → e_x e = memberID ∧ e_y e = roleID ∧ isOpen e).
  { intros e He. unfold sel in He.
    apply andb_true_iff in He as [He Ho]. apply andb_true_iff in He as [Hx Hy].
    apply bool_decide_eq_true in Hx, Hy. apply lastTimeLineCond_open in Ho. done. }
  split; [|split]; [intros k Hk|intros k|intros Hold];
    rewrite ?(connectedAt_current s' tl), ?(connectedAt_current s tl) by done;
    rewrite Hmem, Het.
  - apply joinRows_close_add_other.
    + done.
    + intros v e _ He. destruct (Hsel e He) as (_ & Hy & _). simpl.
      assert (Hne : e_y e ≠ k) by (intros Hek; apply Hk; by rewrite <- Hek).
      by rewrite !(bool_decide_eq_false_2 _ Hne).
    + intros v e He _. destruct (Hnews e He) as [_ Hy]. simpl.
      assert (Hne : e_y e ≠ k) by (intros Hek; apply Hk; by rewrite <- Hek).
      by rewrite !(bool_decide_eq_false_2 _ Hne).
  - rewrite !(filter_ext_elem (λ ve : Member * Edge RoleMemberAttrs, v_id ve.1 ≠ memberID)
               (λ ve, Is_true ((λ v _, bool_decide (v_id v ≠ memberID)) ve.1 ve.2)))
      by (intros ve _; simpl; by rewrite bool_decide_spec).
    etransitivity;
      [exact (joinRows_filter _ _ _ _ (λ v _, bool_decide (v_id v ≠ memberID)))|].
    etransitivity;
      [|symmetry; exact (joinRows_filter _ _ _ _ (λ v _, bool_decide (v_id v ≠ memberID)))].
    apply joinRows_close_add_other.
    + done.
    + intros v e Hp He. destruct (Hsel e He) as (Hx & _ & _). simpl in Hp.
      rewrite !(bool_decide_eq_false_2 (v_id v ≠ memberID))
        by (intros Hne; apply Hne; etransitivity; [exact Hp|exact Hx]).
      by rewrite !andb_false_r.
    + intros v e He Hp. destruct (Hnews e He) as [Hx _]. simpl in Hp.
      rewrite !(bool_decide_eq_false_2 (v_id v ≠ memberID))
        by (intros Hne; apply Hne; etransitivity; [exact Hp|exact Hx]).
      by rewrite !andb_false_r.
  - rewrite !(filter_ext_elem (λ ve : Member * Edge RoleMemberAttrs, v_id ve.1 = memberID)
               (λ ve, Is_true ((λ v _, bool_decide (v_id v = memberID)) ve.1 ve.2)))
      by (intros ve _; simpl; by rewrite bool_decide_spec).
    etransitivity;
      [exact (joinRows_filter _ _ _ _ (λ v _, bool_decide (v_id v = memberID)))|].
    rewrite joinRows_dead_prefix.
    + apply joinRows_ext_join. intros v e Hv He Hp.
      destruct (Hnews e He) as [Hx Hy]. simpl in Hp. simpl.
      rewrite (bool_decide_eq_true_2 (e_y e = roleID)) by done.
      rewrite (bool_decide_eq_true_2 (v_id v = memberID))
        by (etransitivity; [exact Hp|exact Hx]).
      by rewrite andb_true_r.
    + intros v e' He' Hp. unfold closeRows in He'.
      apply list_elem_of_fmap in He' as (e & -> & He).
      change (bool_decide (e_x e = memberID) && bool_decide (e_y e = roleID)
              && holds (lastTimeLineCond tl (tl - 1) e)) with (sel e) in *.
      destruct (sel e) eqn:Hs.
      * simpl. by rewrite !andb_false_r.
      * simpl in Hp. apply not_true_is_false. intros Hall.
        rewrite !andb_true_iff in Hall. destruct Hall as [[[Hy _] Ho] Hv].
        apply bool_decide_eq_true in Hy, Ho, Hv.
        assert (Hxe : e_x e = memberID) by (etransitivity; [symmetry; exact Hp|exact Hv]).
        assert (Hlt : e_start_tl e < tl) by (by apply Hold).
        unfold sel in Hs.
        rewrite (bool_decide_eq_true_2 _ Hxe), (bool_decide_eq_true_2 _ Hy) in Hs.
        unfold lastTimeLineCond in Hs. rewrite decide_False in Hs by lia.
        unfold sqAnd, sqIsNull, sqLtOrEq in Hs. unfold isOpen in Ho. simpl in *.
        rewrite Ho in Hs.
        simpl in Hs. rewrite bool_decide_eq_true_2 in Hs by lia. done.
Qed.

(** What [RoleMemberEdgesInternal] returns before and after such a
    write. *)
Lemma memberEdges_read_back tl roleID memberID news ids s s' :
  curTl s = tl → 0 < tl → curTl s' = tl →
  tb_member (tx s') = tb_member (tx s) →
  etableOf edgeClassRoleMember (tx s')
  = closeRows (tl - 1)
      (λ e, bool_decide (e_x e = memberID) && bool_decide (e_y e = roleID)
            && holds (lastTimeLineCond tl (tl - 1) e))
      (etableOf edgeClassRoleMember (tx s)) ++ news →
  (∀ e, e ∈ news → e_x e = memberID ∧ e_y e = roleID) →
  (∀ e, e ∈ tb_rolemember (tx s) →
        e_x e = memberID → e_y e = roleID → isOpen e → e_start_tl e < tl) →
  ∃ groups groups',
    RoleMemberEdgesInternal tl ids [] s = (Ok groups, tick s)
    ∧ RoleMemberEdgesInternal tl ids [] s' = (Ok groups', tick s')
    ∧ (∀ k, k ≠ roleID → groups' !! k = groups !! k)
    ∧ edgesOfOthers memberID (default [] (groups' !! roleID))
      = edgesOfOthers memberID (default [] (groups !! roleID))
    ∧ (roleID ∈ ids →
       edgesOfMember memberID (default [] (groups' !! roleID))
       = roleMemberEdgeOf <$> joinRows (tb_member (tx s)) news e_x
           (λ v e, bool_decide (isOpen v) && bool_decide (isOpen e))).
Proof.
  intros Hcur Htl Hcur' Hmem Het Hnews Hold.
  destruct (memberEdges_after_write tl roleID memberID news s s')
    as (Hother & Hothers & Hmember); [done..|].
  specialize (Hmember Hold).
  destruct (RoleMemberEdgesInternal_lookup tl ids s Htl) as (groups & Hrun & Hlook).
  destruct (RoleMemberEdgesInternal_lookup tl ids s' Htl) as (groups' & Hrun' & Hlook').
  exists groups, groups'. split; [done|]. split; [done|].
  assert (Hdef : ∀ (g : gmap ID (list RoleMemberEdge)) (st : DBService) k,
    (∀ k, g !! k = if decide (k ∈ ids ∧ connectedAt st tl k edgeClassRoleMember
                                           edgeDirectionIn tb_member ≠ [])
                   then Some (roleMemberEdgeOf <$> connectedAt st tl k edgeClassRoleMember
                                edgeDirectionIn tb_member) else None) →
    default [] (g !! k)
    = if decide (k ∈ ids)
      then roleMemberEdgeOf <$> connectedAt st tl k edgeClassRoleMember
             edgeDirectionIn tb_member
      else []).
  { intros g st k Hg. rewrite Hg. case_decide as Hd; [by rewrite decide_True by tauto|].
    case_decide as Hin; [|done]. simpl.
    destruct (connectedAt st tl k edgeClassRoleMember edgeDirectionIn tb_member);
      [done|]. exfalso. apply Hd. done. }
  split; [|split].
  - intros k Hk. rewrite Hlook, Hlook'. by rewrite (Hother k Hk).
  - rewrite (Hdef groups s roleID Hlook), (Hdef groups' s' roleID Hlook').
    case_decide; [|done]. unfold edgesOfOthers.
    rewrite !(filter_fmap_list roleMemberEdgeOf). simpl. by rewrite Hothers.
  - intros Hin. rewrite (Hdef groups' s' roleID Hlook'), decide_True by done.
    unfold edgesOfMember. rewrite (filter_fmap_list roleMemberEdgeOf). simpl.
    f_equal. exact Hmember.
Qed.

(** X16: [roleUpdateMember] at the current timeline, read back by
    [RoleMemberEdgesInternal]: whether or not the member was assigned
    to the role, the role has afterwards one edge to each open row of
    the member, with the new focus and core member flag and without
    election expiration; the edges of the role to other members and
    the groups of the other roles are as before. *)
Theorem roleUpdateMember_read_back tl roleID memberID focus noCoreMember ids s :
  curTl s = tl → 0 < tl < 2 ^ 63 →
  (∀ e, e ∈ tb_rolemember (tx s) →
        e_x e = memberID → e_y e = roleID → isOpen e → e_start_tl e < tl) →
  ∃ s' groups groups',
    roleUpdateMember tl roleID memberID focus noCoreMember s = (Ok tt, s')
    ∧ RoleMemberEdgesInternal tl ids [] s = (Ok groups, tick s)
    ∧ RoleMemberEdgesInternal tl ids [] s' = (Ok groups', tick s')
    ∧ (∀ k, k ≠ roleID → groups' !! k = groups !! k)
    ∧ edgesOfOthers memberID (default [] (groups' !! roleID))
      = edgesOfOthers memberID (default [] (groups !! roleID))
    ∧ (roleID ∈ ids →
       edgesOfMember memberID (default [] (groups' !! roleID))
       = (λ m, mkRoleMemberEdge m focus noCoreMember None)
         <$> filter (λ m, v_id m = memberID ∧ isOpen m) (tb_member (tx s))).
Proof.
  intros Hcur Htl Hold.
  assert (Hend : int64 (tl - 1) = tl - 1) by (apply int64_small; pow2; lia).
  set (new := mkEdge tl None memberID roleID (mkRoleMember focus noCoreMember None)).
  set (s1 := tick (withTx
    (setETable edgeClassRoleMember
       (closeRows (tl - 1)
          (λ e, bool_decide (e_x e = memberID) && bool_decide (e_y e = roleID)
                && holds (lastTimeLineCond tl (tl - 1) e))
          (etableOf edgeClassRoleMember (tx s)))
       (tx s)) s)).
  set (s' := tick (withTx
    (setETable edgeClassRoleMember (etableOf edgeClassRoleMember (tx s1) ++ [new])
       (tx s1)) s1)).
  destruct (memberEdges_read_back tl roleID memberID [new] ids s s')
    as (groups & groups' & Hrun & Hrun' & Hother & Hothers & Hmember);
    [done|lia|done|done|done| |done|].
  { intros e He. apply list_elem_of_singleton in He as ->. done. }
  exists s', groups, groups'. split; [|split; [done|split; [done|]]].
  - unfold roleUpdateMember, deleteEdge, closeEdge, addEdge, bind, exec.
    rewrite Hend, Hcur. done.
  - split; [done|]. split; [done|]. intros Hin. rewrite (Hmember Hin).
    rewrite joinRows_single, <- list_fmap_compose. simpl. f_equal.
    apply list_filter_iff. intros m. simpl.
    rewrite andb_true_r, bool_decide_spec. tauto.
Qed.

Lemma roleUpdateMember_read_back_witness :
  ∃ s' groups groups',
    roleUpdateMember 2 2%N 10%N (Some "sales"%string) true
      (mkDBService (tx twoFillersStore) "" 2 0) = (Ok tt, s')
    ∧ RoleMemberEdgesInternal 2 [2%N] [] (mkDBService (tx twoFillersStore) "" 2 0)
      = (Ok groups, tick (mkDBService (tx twoFillersStore) "" 2 0))
    ∧ RoleMemberEdgesInternal 2 [2%N] [] s' = (Ok groups', tick s')
    ∧ (∀ k, k ≠ 2%N → groups' !! k = groups !! k)
    ∧ edgesOfOthers 10%N (default [] (groups' !! 2%N))
      = edgesOfOthers 10%N (default [] (groups !! 2%N))
    ∧ (2%N ∈ [2%N] →
       edgesOfMember 10%N (default [] (groups' !! 2%N))
       = (λ m, mkRoleMemberEdge m (Some "sales"%string) true None)
         <$> filter (λ m, v_id m = 10%N ∧ isOpen m)
               (tb_member (tx (mkDBService (tx twoFillersStore) "" 2 0)))).
Proof.
  apply (roleUpdateMember_read_back 2 2%N 10%N (Some "sales"%string) true [2%N]
           (mkDBService (tx twoFillersStore) "" 2 0)).
  - reflexivity.
  - split; reflexivity.
  - intros e He _ _ _. simpl in He.
    rewrite ?elem_of_cons, ?elem_of_nil in He.
    destruct He as [->|[->|[]]]; reflexivity.
Defined.

(** X17: [roleRemoveMember] at the current timeline, read back by
    [RoleMemberEdgesInternal]: the role has afterwards no edge to the
    member, its edges to other members and the groups of the other
    roles are as before; the removal of a member that is not assigned
    is not an error. *)
Theorem roleRemoveMember_read_back tl roleID memberID ids s :
  curTl s = tl → 0 < tl < 2 ^ 63 →
  (∀ e, e ∈ tb_rolemember (tx s) →
        e_x e = memberID → e_y e = roleID → isOpen e → e_start_tl e < tl) →
  ∃ s' groups groups',
    roleRemoveMember tl roleID memberID s = (Ok tt, s')
    ∧ RoleMemberEdgesInternal tl ids [] s = (Ok groups, tick s)
    ∧ RoleMemberEdgesInternal tl ids [] s' = (Ok groups', tick s')
    ∧ (∀ k, k ≠ roleID → groups' !! k = groups !! k)
    ∧ edgesOfOthers memberID (default [] (groups' !! roleID))
      = edgesOfOthers memberID (default [] (groups !! roleID))
    ∧ edgesOfMember memberID (default [] (groups' !! roleID)) = [].
Proof.
  intros Hcur Htl Hold.
  assert (Hend : int64 (tl - 1) = tl - 1) by (apply int64_small; pow2; lia).
  set (s' := tick (withTx
    (setETable edgeClassRoleMember
       (closeRows (tl - 1)
          (λ e, bool_decide (e_x e = memberID) && bool_decide (e_y e = roleID)
                && holds (lastTimeLineCond tl (tl - 1) e))
          (etableOf edgeClassRoleMember (tx s)))
       (tx s)) s)).
  destruct (memberEdges_read_back tl roleID memberID [] ids s s')
    as (groups & groups' & Hrun & Hrun' & Hother & Hothers & Hmember);
    [done|lia|done|done|by rewrite app_nil_r| |done|].
  { intros e He. by apply elem_of_nil in He. }
  exists s', groups, groups'. split; [|split; [done|split; [done|]]].
  - unfold roleRemoveMember, deleteEdge, closeEdge, exec.
    rewrite Hend, Hcur. done.
  - split; [done|]. split; [done|].
    destruct (decide (roleID ∈ ids)) as [Hin|Hin].
    + rewrite (Hmember Hin), joinRows_dead; [done|].
      intros v e _ He. by apply elem_of_nil in He.
    + destruct (RoleMemberEdgesInternal_lookup tl ids s') as (g & Hg & Hlook); [lia|].
      rewrite Hrun' in Hg. injection Hg as <-.
      rewrite Hlook, decide_False by tauto. done.
Qed.

Lemma roleRemoveMember_read_back_witness :
  ∃ s' groups groups',
    roleRemoveMember 2 2%N 10%N (mkDBService (tx twoFillersStore) "" 2 0) = (Ok tt, s')
    ∧ RoleMemberEdgesInternal 2 [2%N] [] (mkDBService (tx twoFillersStore) "" 2 0)
      = (Ok groups, tick (mkDBService (tx twoFillersStore) "" 2 0))
    ∧ RoleMemberEdgesInternal 2 [2%N] [] s' = (Ok groups', tick s')
    ∧ (∀ k, k ≠ 2%N → groups' !! k = groups !! k)
    ∧ edgesOfOthers 10%N (default [] (groups' !! 2%N))
      = edgesOfOthers 10%N (default [] (groups !! 2%N))
    ∧ edgesOfMember 10%N (default [] (groups' !! 2%N)) = [].
Proof.
  apply (roleRemoveMember_read_back 2 2%N 10%N [2%N]
           (mkDBService (tx twoFillersStore) "" 2 0)).
  - reflexivity.
  - split; reflexivity.
  - intros e He _ _ _. simpl in He.
    rewrite ?elem_of_cons, ?elem_of_nil in He.
    destruct He as [->|[->|[]]]; reflexivity.
Defined.

(** ** The list of timelines *)

#[local] Instance timestampOrder_total after : Total (timestampOrder after).
Proof. intros a b. unfold timestampOrder. destruct after; lia. Qed.

#[local] Instance timestampOrder_trans after : Transitive (timestampOrder after).
Proof. intros a b c. unfold timestampOrder. destruct after; lia. Qed.

#[local] Instance timestampOrder_antisymm after : AntiSymm eq (timestampOrder after).
Proof. intros a b. unfold timestampOrder. destruct after; lia. Qed.

(** What the query of [TimeLines] selects. *)
Lemma timeLines_selected ts (after : bool) aggregateType aggregateID s :
  tlr_timestamp <$>
    filter (λ r,
              holds (if after then sqGt (Some (tlr_timestamp r)) ts
                     else sqLt (Some (tlr_timestamp r)) ts)
              && (if decide (aggregateType ≠ ""%string)
                  then holds (sqEq (Some (tlr_aggregatetype r)) aggregateType)
                  else true)
              && match aggregateID with
                 | Some id => holds (sqEq (Some (tlr_aggregateid r)) id)
                 | None => true
                 end)
           (tb_timeline (tx s))
  = filter (beyond after ts) (timeLinesOf s aggregateType aggregateID).
Proof.
  unfold timeLinesOf. rewrite filter_fmap_list, list_filter_filter. f_equal.
  apply list_filter_iff. intros r. unfold aggregateMatches, beyond.
  rewrite !andb_True.
  assert (Is_true (holds (if after then sqGt (Some (tlr_timestamp r)) ts
                          else sqLt (Some (tlr_timestamp r)) ts))
          ↔ (if after then ts < tlr_timestamp r else tlr_timestamp r < ts)) as ->.
  { destruct after; unfold sqGt, sqLt; simpl; case_bool_decide; simpl; tauto. }
  assert (Is_true (if decide (aggregateType ≠ ""%string)
                   then holds (sqEq (Some (tlr_aggregatetype r)) aggregateType)
                   else true)
          ↔ (aggregateType = ""%string ∨ tlr_aggregatetype r = aggregateType)) as ->.
  { case_decide as Hd.
    - unfold sqEq. simpl. case_bool_decide; simpl; tauto.
    - split; [|done]. intros _. left. by destruct (decide (aggregateType = ""%string)). }
  assert (Is_true match aggregateID with
                  | Some id => holds (sqEq (Some (tlr_aggregateid r)) id)
                  | None => true
                  end
          ↔ match aggregateID with
            | Some id => tlr_aggregateid r = id
            | None => True
            end) as ->.
  { destruct aggregateID; [|done]. unfold sqEq. simpl. case_bool_decide; simpl; tauto. }
  tauto.
Qed.

(** [TimeLines] asks for one row more than the page and cuts the
    answer to the page. *)
Lemma TimeLines_run ts sn limit after aggregateType aggregateID s :
  limit < 2 ^ 63 - 1 →
  let n := timeLinesLimit limit in
  let sorted := merge_sort (timestampOrder after)
                  (filter (beyond after (default sn ts))
                     (timeLinesOf s aggregateType aggregateID)) in
  TimeLines ts sn limit after aggregateType aggregateID s
  = (Ok (take (Z.to_nat n) sorted, bool_decide (n < Z.of_nat (length sorted))), tick s).
Proof.
  intros Hlimit n sorted.
  assert (Hn : 0 < n < 2 ^ 63 - 1).
  { unfold n, timeLinesLimit, MaxFetchSize. pow2. case_decide; lia. }
  unfold TimeLines. fold (timeLinesLimit limit). fold n.
  unfold bind. rewrite query_run, timeLines_selected. fold sorted.
  rewrite int64_small by (pow2; lia). rewrite uint64_small by (pow2; lia).
  set (l := take (Z.to_nat (n + 1)) sorted).
  assert (Hl : length l = (Z.to_nat (n + 1) `min` length sorted)%nat)
    by apply length_take.
  assert (Hmore : n < Z.of_nat (length l) ↔ n < Z.of_nat (length sorted)) by lia.
  rewrite (bool_decide_ext _ _ Hmore).
  unfold sliceTo. destruct (decide (n < Z.of_nat (length l))) as [Hlt|Hge].
  - rewrite decide_True by lia. unfold ret. do 3 f_equal.
    subst l. rewrite take_take. f_equal. lia.
  - rewrite decide_True by lia. unfold ret. do 3 f_equal.
    rewrite Nat2Z.id, firstn_all. subst l. rewrite !take_ge by lia. done.
Qed.

(** The sorted timestamps beyond the last one of a page are the sorted
    timestamps beyond the start without the page. *)
Lemma sorted_beyond_drop (after : bool) (T : list Z) t n t' :
  NoDup T →
  last (take n (merge_sort (timestampOrder after) (filter (beyond after t) T))) = Some t' →
  merge_sort (timestampOrder after) (filter (beyond after t') T)
  = drop n (merge_sort (timestampOrder after) (filter (beyond after t) T)).
Proof.
  intros Hnd Hlast.
  set (all := merge_sort (timestampOrder after) (filter (beyond after t) T)) in *.
  assert (Hperm : all ≡ₚ filter (beyond after t) T) by apply merge_sort_Permutation.
  assert (Hss : StronglySorted (timestampOrder after) all)
    by (apply StronglySorted_merge_sort; apply _).
  assert (Hnd' : NoDup all) by (rewrite Hperm; by apply NoDup_filter).
  apply last_Some in Hlast as [l1 Htake].
  rewrite <- (take_drop n all), Htake in Hss, Hnd'.
  apply StronglySorted_app in Hss as (Hle & Hss1 & Hss2).
  apply NoDup_app in Hnd' as (_ & Hdisj & _).
  assert (Hfilter : filter (beyond after t') all = drop n all).
  { rewrite <- (take_drop n all) at 1. rewrite Htake, filter_app.
    rewrite (filter_none_elem _ (l1 ++ [t'])), (filter_all_elem _ (drop n all)); [done| |].
    - intros x Hx.
      assert (Hr : timestampOrder after t' x).
      { apply Hle; [|done]. rewrite elem_of_app, list_elem_of_singleton. by right. }
      assert (Hne : x ≠ t').
      { intros ->. apply (Hdisj t'); [|done].
        rewrite elem_of_app, list_elem_of_singleton. by right. }
      unfold beyond, timestampOrder in *. destruct after; lia.
    - intros x Hx.
      assert (Hr : timestampOrder after x t').
      { apply elem_of_app in Hx as [Hx|Hx].
        - apply (StronglySorted_app_1_elem_of _ l1 [t']); [done..|].
          by apply list_elem_of_singleton.
        - apply list_elem_of_singleton in Hx as ->.
          unfold timestampOrder. destruct after; lia. }
      unfold beyond, timestampOrder in *. destruct after; lia. }
  assert (Hbt : beyond after t t').
  { assert (Hin : t' ∈ all).
    { rewrite <- (take_drop n all), Htake, !elem_of_app, list_elem_of_singleton. tauto. }
    rewrite Hperm in Hin. by apply list_elem_of_filter in Hin as [? _]. }
  apply (Sorted_unique (timestampOrder after)).
  - apply Sorted_merge_sort, _.
  - by apply StronglySorted_Sorted.
  - rewrite merge_sort_Permutation, <- Hfilter, Hperm.
    rewrite (list_filter_filter_l (beyond after t') (beyond after t)); [done|].
    intros x Hx. unfold beyond in *. destruct after; lia.
Qed.

Lemma timeLinesOf_NoDup s aggregateType aggregateID :
  NoDup (tlr_timestamp <$> tb_timeline (tx s)) →
  NoDup (timeLinesOf s aggregateType aggregateID).
Proof. apply NoDup_fmap_filter. Qed.

Lemma Sorted_take {A} (R : relation A) `{!Transitive R} (l : list A) n :
  Sorted R l → Sorted R (take n l).
Proof.
  intros Hs. apply Sorted_StronglySorted in Hs; [|done].
  rewrite <- (take_drop n l) in Hs.
  apply StronglySorted_app in Hs as (_ & Hs & _). by apply StronglySorted_Sorted.
Qed.

(** X18: paging through the timelines.  When no two timelines have the
    same timestamp and a page of [limit] timelines ends at [t] with
    the flag for more, then the page of [limit'] timelines asked from
    [t] continues it: the two pages together are the page of
    [limit + limit'] timelines of the first request, with the flag of
    the second page. *)
Theorem TimeLines_pages_compose ts sn limit limit' after aggregateType aggregateID
    s page t s1 :
  NoDup (tlr_timestamp <$> tb_timeline (tx s)) →
  0 < limit → 0 < limit' → limit + limit' < 2 ^ 63 - 1 →
  TimeLines ts sn limit after aggregateType aggregateID s = (Ok (page, true), s1) →
  last page = Some t →
  ∃ page' more',
    TimeLines None t limit' after aggregateType aggregateID s1
    = (Ok (page', more'), tick s1)
    ∧ TimeLines ts sn (limit + limit') after aggregateType aggregateID s
      = (Ok (page ++ page', more'), tick s).
Proof.
  intros Hnd Hl Hl' Hsum Hrun Hlast.
  rewrite TimeLines_run in Hrun by lia.
  rewrite !TimeLines_run by lia.
  unfold timeLinesLimit in *. rewrite decide_False in Hrun by lia.
  rewrite !decide_False by lia.
  injection Hrun as Hpage Hmore Hs1. subst s1 page.
  apply bool_decide_eq_true in Hmore.
  change (timeLinesOf (tick s) aggregateType aggregateID)
    with (timeLinesOf s aggregateType aggregateID).
  simpl (default t None).
  rewrite (sorted_beyond_drop after _ (default sn ts) (Z.to_nat limit) t);
    [|by apply timeLinesOf_NoDup|done].
  set (sorted := merge_sort (timestampOrder after)
                   (filter (beyond after (default sn ts))
                      (timeLinesOf s aggregateType aggregateID))) in *.
  eexists _, _. split; [done|]. do 2 f_equal.
  assert (Hnat : Z.to_nat (limit + limit') = (Z.to_nat limit + Z.to_nat limit')%nat)
    by lia.
  rewrite Hnat, take_take_drop. f_equal.
  apply bool_decide_ext. rewrite length_drop. lia.
Qed.

Lemma TimeLines_pages_compose_witness :
  ∃ page' more',
    TimeLines None 20 1 true "rolestree" None (tick fourTimeLinesStore)
    = (Ok (page', more'), tick (tick fourTimeLinesStore))
    ∧ TimeLines None 0 (2 + 1) true "rolestree" None fourTimeLinesStore
      = (Ok ([10; 20] ++ page', more'), tick fourTimeLinesStore).
Proof.
  apply (TimeLines_pages_compose None 0 2 1 true "rolestree" None fourTimeLinesStore
           [10; 20] 20 (tick fourTimeLinesStore)).
  - simpl. repeat constructor; rewrite ?elem_of_cons, ?elem_of_nil;
      intros Hin; repeat (destruct Hin as [Hin|Hin]); done.
  - lia.
  - lia.
  - reflexivity.
  - reflexivity.
  - reflexivity.
Defined.

(** X19: [TimeLines] returns for every page size that is not the
    greatest [int]: a limit of 0 or below stands for [MaxFetchSize].
    The page is ordered, not longer than the limit, holds only
    timestamps of the aggregate beyond the start, and the flag for
    more is set exactly when the page is shorter than the list of
    these; without the flag the page is complete. *)
Theorem TimeLines_page ts sn limit after aggregateType aggregateID s :
  limit < 2 ^ 63 - 1 →
  ∃ page more,
    TimeLines ts sn limit after aggregateType aggregateID s = (Ok (page, more), tick s)
    ∧ (length page ≤ Z.to_nat (timeLinesLimit limit))%nat
    ∧ Sorted (timestampOrder after) page
    ∧ (∀ t, t ∈ page →
         t ∈ timeLinesOf s aggregateType aggregateID ∧ beyond after (default sn ts) t)
    ∧ more = bool_decide
               (length page
                < length (filter (beyond after (default sn ts))
                            (timeLinesOf s aggregateType aggregateID)))%nat
    ∧ (more = false →
       ∀ t, t ∈ timeLinesOf s aggregateType aggregateID →
            beyond after (default sn ts) t → t ∈ page).
Proof.
  intros Hlimit. eexists _, _. split; [by apply TimeLines_run|].
  set (n := timeLinesLimit limit).
  set (bound := filter (beyond after (default sn ts))
                  (timeLinesOf s aggregateType aggregateID)).
  set (sorted := merge_sort (timestampOrder after) bound).
  assert (Hn : 0 < n).
  { unfold n, timeLinesLimit, MaxFetchSize. case_decide; lia. }
  assert (Hperm : sorted ≡ₚ bound) by apply merge_sort_Permutation.
  assert (Hlen : length sorted = length bound) by (by rewrite Hperm).
  split; [rewrite length_take; lia|].
  split; [apply Sorted_take; [apply _|apply Sorted_merge_sort, _]|].
  split; [|split].
  - intros t Ht. apply subseteq_take in Ht. rewrite Hperm in Ht.
    apply list_elem_of_filter in Ht. tauto.
  - apply bool_decide_ext. rewrite length_take. lia.
  - intros Hmore t Ht Hb. apply bool_decide_eq_false in Hmore.
    rewrite take_ge by lia. rewrite Hperm. apply list_elem_of_filter. done.
Qed.

Lemma TimeLines_page_witness :
  ∃ page more,
    TimeLines None 35 (-1) false "" None fourTimeLinesStore
    = (Ok (page, more), tick fourTimeLinesStore)
    ∧ (length page ≤ Z.to_nat (timeLinesLimit (-1)))%nat
    ∧ Sorted (timestampOrder false) page
    ∧ (∀ t, t ∈ page →
         t ∈ timeLinesOf fourTimeLinesStore "" None ∧ beyond false (default 35 None) t)
    ∧ more = bool_decide
               (length page
                < length (filter (beyond false (default 35%Z None))
                            (timeLinesOf fourTimeLinesStore "" None)))%nat
    ∧ (more = false →
       ∀ t, t ∈ timeLinesOf fourTimeLinesStore "" None →
            beyond false (default 35 None) t → t ∈ page).
Proof.
  apply (TimeLines_page None 35 (-1) false "" None fourTimeLinesStore).
  reflexivity.
Defined.

(** ** The ancestors of a role *)

(** The query of [RoleParentInternal] tests membership in the slice of
    ids only: its order and its repetitions do not matter. *)
Lemma RoleParentInternal_ids tl ids ids' s :
  (∀ k, k ∈ ids ↔ k ∈ ids') →
  RoleParentInternal tl ids s = RoleParentInternal tl ids' s.
Proof.
  intros Hids. unfold RoleParentInternal, connectedVertices.
  case_decide; [done|]. simpl. unfold bind. rewrite !query_run. simpl.
  do 5 f_equal. apply joinRows_ext. intros v e _ _.
  do 3 f_equal. apply bool_decide_ext, Hids.
Qed.

Lemma isParent_unique s p p' c :
  RoleTreeOk s → isParent s p c → isParent s p' c → p = p'.
Proof.
  intros Hok [Hp (e & He & Hx & Hy)] [Hp' (e' & He' & Hx' & Hy')].
  assert (e = e') as <-.
  { apply (NoDup_fmap_eq e_y (openEdges s)); [apply Hok|done..|congruence]. }
  apply (NoDup_fmap_eq v_id (openRoles s)); [apply Hok|done..|congruence].
Qed.

Lemma RoleTreeOk_tick s : RoleTreeOk s → RoleTreeOk (tick s).
Proof. intros [H1 H2 H3 H4 H5 H6]. by constructor. Qed.

(** [RoleParentInternal] on a role tree, at the current timeline. *)
Lemma RoleParentInternal_lookup tl ids s :
  0 < tl → curTl s = tl → RoleTreeOk s →
  ∃ groups,
    RoleParentInternal tl ids s = (Ok groups, tick s)
    ∧ ∀ k p, groups !! k = Some p ↔ k ∈ ids ∧ isParent s p k.
Proof.
  intros Htl Hcur Hok. unfold RoleParentInternal.
  destruct (connectedVertices_lookup tl ids edgeClassRoleRole edgeDirectionIn None []
              tb_role s) as (groups & Hrun & Hlook); [done..|].
  rewrite (bind_ok _ _ _ _ _ Hrun). eexists. split; [done|].
  intros k p. unfold firstOfGroups, neighbours.
  rewrite lookup_omap, lookup_fmap, Hlook.
  assert (Hpar : ∀ q, q ∈ parentRolesAt s tl k ↔ isParent s q k).
  { intros q. rewrite parentRolesAt_elem by done. unfold isParent, childOf. done. }
  fold (parentRolesAt s tl k) in Hpar.
  case_decide as Hd; simpl.
  - destruct Hd as [Hin Hne].
    change ((connectedAt s tl k edgeClassRoleRole edgeDirectionIn tb_role).*1)
      with (parentRolesAt s tl k).
    destruct (parentRolesAt s tl k) as [|q l] eqn:Hl; simpl.
    + split; [done|]. intros [_ Hp]. apply Hpar in Hp. by apply elem_of_nil in Hp.
    + assert (Hq : isParent s q k) by (apply Hpar; by left).
      split.
      * intros [= <-]. done.
      * intros [_ Hp]. f_equal. by apply (isParent_unique s q p k).
  - split; [done|]. intros [Hin Hp]. exfalso. apply Hd. split; [done|].
    apply Hpar in Hp. unfold parentRolesAt in Hp.
    intros Hnil. rewrite Hnil in Hp. by apply elem_of_nil in Hp.
Qed.

Lemma elem_of_neededParents parents k :
  k ∈ neededParents parents ↔
  parents !! k = None ∧ ∃ k' p, parents !! k' = Some p ∧ v_id p = k.
Proof.
  unfold neededParents.
  rewrite elem_of_elements, elem_of_list_to_set, list_elem_of_filter, list_elem_of_fmap.
  split.
  - intros [Hnone (p & -> & Hp)]. split; [done|].
    apply list_elem_of_fmap in Hp as ([k' p'] & -> & Hp).
    apply elem_of_map_to_list in Hp. by exists k', p'.
  - intros [Hnone (k' & p & Hp & <-)]. split; [done|].
    exists p. split; [done|]. apply list_elem_of_fmap. exists (k', p).
    split; [done|]. by apply elem_of_map_to_list.
Qed.

Lemma parents_size s (parents : gmap ID Role) :
  RoleTreeOk s →
  (∀ k p, parents !! k = Some p → isParent s p k) →
  (size parents ≤ length (openEdges s))%nat.
Proof.
  intros Hok Hpar.
  rewrite <- (length_fmap e_y (openEdges s)).
  rewrite <- (size_list_to_set (C:=gset ID)) by apply Hok.
  rewrite <- size_dom. apply subseteq_size.
  intros k Hk. apply elem_of_dom in Hk as [p Hp].
  destruct (Hpar k p Hp) as [_ (e & He & _ & Hy)].
  apply elem_of_list_to_set, list_elem_of_fmap. by exists e.
Qed.

(** The first loop of [RoleParents] on a role tree: it ends with the
    parents it was given and the parents of their ancestors. *)
Lemma collectParents_run fuel tl parents s :
  0 < tl → curTl s = tl → RoleTreeOk s →
  (∀ k p, parents !! k = Some p → isParent s p k) →
  (length (openEdges s) - size parents < fuel)%nat →
  ∃ parents' s',
    collectParents fuel tl parents s = (Ok parents', s')
    ∧ tx s' = tx s
    ∧ parents ⊆ parents'
    ∧ (∀ k p, parents' !! k = Some p → isParent s p k)
    ∧ (∀ k p, parents' !! k = Some p → parents' !! v_id p = None →
              ∀ p', ¬ isParent s p' (v_id p)).
Proof.
  intros Htl. revert parents s.
  induction fuel as [|fuel IH]; intros parents s Hcur Hok Hpar Hfuel; [lia|].
  simpl.
  destruct (RoleParentInternal_lookup tl (neededParents parents) s)
    as (groups & Hrun & Hlook); [done..|].
  rewrite (bind_ok _ _ _ _ _ Hrun).
  case_decide as Hsize.
  - apply map_size_empty_iff in Hsize. subst groups.
    exists parents, (tick s). split; [done|]. split; [done|]. split; [done|].
    split; [done|]. intros k p Hp Hnone p' Hp'.
    assert (Hin : v_id p ∈ neededParents parents).
    { apply elem_of_neededParents. split; [done|]. by exists k, p. }
    assert (Hsome : (∅ : gmap ID Role) !! v_id p = Some p') by (by apply Hlook).
    by rewrite lookup_empty in Hsome.
  - assert (Hpar' : ∀ k p, (groups ∪ parents) !! k = Some p → isParent s p k).
    { intros k p Hp. apply lookup_union_Some_raw in Hp as [Hp|[_ Hp]].
      - by apply Hlook in Hp as [_ Hp].
      - by apply Hpar. }
    assert (Hgrow : (size parents < size (groups ∪ parents))%nat).
    { destruct (map_choose groups) as (k0 & p0 & Hk0).
      { intros ->. by rewrite map_size_empty in Hsize. }
      assert (Hnone : parents !! k0 = None).
      { apply Hlook in Hk0 as [Hin _]. by apply elem_of_neededParents in Hin as [? _]. }
      assert (Hsub : <[k0 := p0]> parents ⊆ groups ∪ parents).
      { apply map_subseteq_spec. intros k p Hp.
        apply lookup_union_Some_raw.
        destruct (decide (k = k0)) as [->|Hne].
        - rewrite lookup_insert_eq in Hp. left. congruence.
        - rewrite lookup_insert_ne in Hp by done.
          destruct (groups !! k) as [q|] eqn:Hq; [|by right].
          left. f_equal. apply (isParent_unique s q p k Hok).
          + by apply Hlook in Hq as [_ Hq].
          + by apply Hpar. }
      apply map_subseteq_size in Hsub.
      rewrite map_size_insert_None in Hsub by done. lia. }
    pose proof (parents_size (tick s) (groups ∪ parents) (RoleTreeOk_tick s Hok) Hpar')
      as Hbound.
    destruct (IH (groups ∪ parents) (tick s))
      as (parents' & s' & Hrun' & Htx & Hsub & Hpar'' & Hclosed);
      [done|by apply RoleTreeOk_tick|done| |].
    { change (openEdges (tick s)) with (openEdges s) in *. lia. }
    exists parents', s'. split; [done|]. split; [done|]. split; [|done].
    etransitivity; [|exact Hsub]. apply map_union_subseteq_r'; [|done].
    apply map_disjoint_spec. intros k p q Hp Hq.
    apply Hlook in Hp as [Hin _]. apply elem_of_neededParents in Hin as [Hnone _].
    congruence.
Qed.

Lemma no_parent_no_edge s id :
  RoleTreeOk s → (∀ p, ¬ isParent s p id) → ∀ e, e ∈ openEdges s → e_y e ≠ id.
Proof.
  intros Hok Hno e He Hy.
  destruct (rt_edges s Hok e He) as [(rp & Hrp & Hx) _].
  apply (Hno rp). split; [done|]. by exists e.
Qed.

Lemma isParent_depth s p r :
  RoleTreeOk s → r ∈ openRoles s → isParent s p (v_id r) →
  Depth (v_attrs r) = Depth (v_attrs p) + 1 ∧ 0 ≤ Depth (v_attrs p).
Proof.
  intros Hok Hr [Hp (e & He & Hx & Hy)]. split.
  - by apply (rt_depth s Hok e p r).
  - by apply (rt_nonneg s Hok).
Qed.

(** The depth of a role of a role tree is less than the number of
    roles: its ancestors have the depths below it. *)
Lemma depth_lt_roles s r :
  RoleTreeOk s → r ∈ openRoles s →
  (Z.to_nat (Depth (v_attrs r)) < length (openRoles s))%nat.
Proof.
  intros Hok Hr.
  assert (Hchain : ∀ n r, r ∈ openRoles s → Z.to_nat (Depth (v_attrs r)) = n →
    ∃ l : list Role, (∀ x, x ∈ l → x ∈ openRoles s ∧ Depth (v_attrs x) ≤ Depth (v_attrs r))
         ∧ NoDup l ∧ length l = S n).
  { clear r Hr. induction n as [|n IH]; intros r Hr Hn.
    - exists [r]. split; [|split; [apply NoDup_singleton|done]].
      intros x Hx. apply list_elem_of_singleton in Hx as ->. split; [done|lia].
    - destruct (decide (v_id r ∈ e_y <$> openEdges s)) as [Hin|Hnin].
      + apply list_elem_of_fmap in Hin as (e & Hy & He).
        destruct (rt_edges s Hok e He) as [(rp & Hrp & Hx) _].
        assert (Hpar : isParent s rp (v_id r)) by (split; [done|by exists e]).
        destruct (isParent_depth s rp r Hok Hr Hpar) as [Hd Hnn].
        destruct (IH rp Hrp) as (l & Hl & Hnd & Hlen); [lia|].
        exists (r :: l). split; [|split].
        * intros x Hxl. apply elem_of_cons in Hxl as [->|Hxl]; [split; [done|lia]|].
          destruct (Hl x Hxl). split; [done|lia].
        * apply NoDup_cons. split; [|done]. intros Hrl.
          destruct (Hl r Hrl). lia.
        * simpl. by rewrite Hlen.
      + assert (Depth (v_attrs r) = 0); [|lia].
        apply (rt_root s Hok r Hr). intros e He Hy. apply Hnin.
        apply list_elem_of_fmap. by exists e. }
  destruct (Hchain _ r Hr eq_refl) as (l & Hl & Hnd & Hlen).
  assert (Hsub : l ⊆+ openRoles s).
  { apply NoDup_submseteq; [done|]. intros x Hx. by apply Hl. }
  apply submseteq_length in Hsub. lia.
Qed.

(** The inner loop of the second loop of [RoleParents], from a role of
    the tree. *)
Lemma parentsChain_run s parents :
  RoleTreeOk s →
  (∀ k p, parents !! k = Some p → isParent s p k) →
  (∀ k p, parents !! k = Some p → parents !! v_id p = None →
          ∀ p', ¬ isParent s p' (v_id p)) →
  ∀ n fuel r s0,
    r ∈ openRoles s → Z.to_nat (Depth (v_attrs r)) = n → (n < fuel)%nat →
    (parents !! v_id r = None → ∀ p', ¬ isParent s p' (v_id r)) →
    ∃ chain,
      parentsChain fuel parents (v_id r) s0 = (Ok chain, s0)
      ∧ ancestorChain s (v_id r) chain ∧ length chain = n.
Proof.
  intros Hok Hpar Hclosed.
  induction n as [|n IH]; intros fuel r s0 Hr Hn Hfuel Hnone;
    (destruct fuel as [|fuel]; [lia|]); simpl;
    destruct (parents !! v_id r) as [p|] eqn:Hp.
  - destruct (isParent_depth s p r Hok Hr (Hpar _ _ Hp)). lia.
  - exists []. split; [done|]. split; [|done]. apply chain_root. by apply Hnone.
  - pose proof (Hpar _ _ Hp) as Hisp.
    destruct (isParent_depth s p r Hok Hr Hisp) as [Hd Hnn].
    destruct (IH fuel p s0) as (chain & Hrun & Hchain & Hlen);
      [apply Hisp|lia|lia|by apply (Hclosed _ _ Hp)|].
    exists (p :: chain). rewrite (bind_ok _ _ _ _ _ Hrun).
    split; [done|]. split; [by apply chain_parent|]. simpl. by rewrite Hlen.
  - assert (Depth (v_attrs r) = 0); [|lia].
    apply (rt_root s Hok r Hr). apply no_parent_no_edge; [done|]. by apply Hnone.
Qed.

(** The second loop of [RoleParents]. *)
Lemma parentsChains_run fuel parents (Q : ID → list Role → Prop) ids acc s0 :
  (∀ id, id ∈ ids →
     ∃ chain, parentsChain fuel parents id s0 = (Ok chain, s0) ∧ Q id chain) →
  ∃ groups,
    parentsChains fuel parents ids acc s0 = (Ok groups, s0)
    ∧ (∀ id, id ∉ ids → groups !! id = acc !! id)
    ∧ (∀ id, id ∈ ids → ∃ chain, groups !! id = Some chain ∧ Q id chain).
Proof.
  revert acc. induction ids as [|id ids IH]; intros acc Hchains.
  - exists acc. split; [done|]. split; [done|]. intros id Hid. by apply elem_of_nil in Hid.
  - simpl. destruct (Hchains id) as (chain & Hrun & Hq); [by left|].
    rewrite (bind_ok _ _ _ _ _ Hrun).
    destruct (IH (<[id := chain]> acc)) as (groups & Hruns & Hout & Hin).
    { intros id' Hid'. apply Hchains. by right. }
    exists groups. split; [done|]. split.
    + intros id' Hid'. apply not_elem_of_cons in Hid' as [Hne Hid'].
      rewrite Hout by done. by rewrite lookup_insert_ne.
    + intros id' Hid'. destruct (decide (id' ∈ ids)) as [Hi|Hi]; [by apply Hin|].
      apply elem_of_cons in Hid' as [->|Hid']; [|done].
      exists chain. split; [|done]. rewrite Hout by done. by rewrite lookup_insert_eq.
Qed.

Lemma edges_le_roles s :
  RoleTreeOk s → (length (openEdges s) ≤ length (openRoles s))%nat.
Proof.
  intros Hok.
  rewrite <- (length_fmap e_y (openEdges s)), <- (length_fmap v_id (openRoles s)).
  apply submseteq_length, NoDup_submseteq; [apply Hok|].
  intros k Hk. apply list_elem_of_fmap in Hk as (e & -> & He).
  destruct (rt_edges s Hok e He) as [_ (rc & Hrc & Hid)].
  apply list_elem_of_fmap. by exists rc.
Qed.

Lemma isParent_child_open s p id :
  RoleTreeOk s → isParent s p id → id ∈ v_id <$> openRoles s.
Proof.
  intros Hok [_ (e & He & _ & <-)].
  destruct (rt_edges s Hok e He) as [_ (rc & Hrc & Hid)].
  apply list_elem_of_fmap. by exists rc.
Qed.

(** X20: [RoleParents] on a role tree, at the current timeline and
    with fuel for more loop rounds than there are roles: it returns,
    having written nothing, a map with exactly the requested ids; the
    entry of an id is the chain of the ancestors of the role, from its
    parent up to the root role, as many as the depth of the role (none
    for the root role and for an id that is not a role). *)
Theorem RoleParents_ancestors fuel tl rolesIDs s :
  0 < tl → curTl s = tl → RoleTreeOk s → (length (openRoles s) < fuel)%nat →
  ∃ groups s',
    RoleParents fuel tl rolesIDs s = (Ok groups, s') ∧ tx s' = tx s
    ∧ (∀ id, id ∉ rolesIDs → groups !! id = None)
    ∧ (∀ id, id ∈ rolesIDs →
         ∃ chain, groups !! id = Some chain ∧ ancestorChain s id chain
                  ∧ ∀ r, r ∈ openRoles s → v_id r = id →
                         Z.of_nat (length chain) = Depth (v_attrs r)).
Proof.
  intros Htl Hcur Hok Hfuel. unfold RoleParents.
  destruct (RoleParentInternal_lookup tl rolesIDs s) as (g0 & Hrun0 & Hlook0); [done..|].
  rewrite (bind_ok _ _ _ _ _ Hrun0).
  pose proof (edges_le_roles s Hok) as Hedges.
  destruct (collectParents_run fuel tl g0 (tick s))
    as (parents & s' & Hrun & Htx & Hsub & Hpar & Hclosed);
    [done|done|by apply RoleTreeOk_tick| | |].
  { intros k p Hp. by apply Hlook0 in Hp as [_ Hp]. }
  { change (openEdges (tick s)) with (openEdges s). lia. }
  rewrite (bind_ok _ _ _ _ _ Hrun).
  destruct (parentsChains_run fuel parents
              (λ id chain, ancestorChain s id chain
                           ∧ ∀ r, r ∈ openRoles s → v_id r = id →
                                  Z.of_nat (length chain) = Depth (v_attrs r))
              rolesIDs ∅ s') as (groups & Hruns & Hout & Hin).
  { intros id Hid.
    destruct (decide (id ∈ v_id <$> openRoles s)) as [Hrole|Hnorole].
    - apply list_elem_of_fmap in Hrole as (r & -> & Hr).
      destruct (parentsChain_run s parents Hok Hpar Hclosed
                  (Z.to_nat (Depth (v_attrs r))) fuel r s')
        as (chain & Hchain & Hanc & Hlen); [done|done| | |].
      + pose proof (depth_lt_roles s r Hok Hr). lia.
      + intros Hnone p' Hp'.
        assert (Hg0 : g0 !! v_id r = Some p') by (by apply Hlook0).
        apply (lookup_weaken _ _ _ _ Hg0) in Hsub. congruence.
      + exists chain. split; [done|]. split; [done|]. intros r' Hr' Hid'.
        assert (r' = r) as ->.
        { by apply (NoDup_fmap_eq v_id (openRoles s)); [apply Hok|..]. }
        pose proof (rt_nonneg s Hok r Hr). lia.
    - assert (Hno : ∀ p, ¬ isParent s p id).
      { intros p Hp. apply Hnorole. by apply (isParent_child_open s p). }
      destruct fuel as [|fuel]; [lia|]. simpl.
      destruct (parents !! id) as [p|] eqn:Hp; [by destruct (Hno p (Hpar _ _ Hp))|].
      exists []. split; [done|]. split; [by apply chain_root|].
      intros r Hr Hid'. exfalso. apply Hnorole. apply list_elem_of_fmap. by exists r. }
  exists groups, s'. split; [done|]. split; [done|]. split; [|done].
  intros id Hid. by rewrite Hout.
Qed.

Lemma RoleParents_ancestors_witness :
  ∃ groups s',
    RoleParents 5 2 [4%N; 1%N] treeStore = (Ok groups, s') ∧ tx s' = tx treeStore
    ∧ (∀ id, id ∉ [4%N; 1%N] → groups !! id = None)
    ∧ (∀ id, id ∈ [4%N; 1%N] →
         ∃ chain, groups !! id = Some chain ∧ ancestorChain treeStore id chain
                  ∧ ∀ r, r ∈ openRoles treeStore → v_id r = id →
                         Z.of_nat (length chain) = Depth (v_attrs r)).
Proof.
  apply (RoleParents_ancestors 5 2 [4%N; 1%N] treeStore).
  - lia.
  - reflexivity.
  - exact treeStore_RoleTreeOk.
  - simpl. lia.
Defined.

(** The ancestors of the role 4 of the example tree: the circle 2,
    then the root circle 1. *)
Lemma RoleParents_example :
  match (RoleParents 5 2 [4%N] treeStore).1 with
  | Ok groups => (fmap (M:=list) v_id) <$> groups !! 4%N
  | _ => None
  end = Some [2%N; 1%N].
Proof. vm_compute. reflexivity. Qed.

(** ** Writes of the table of timelines *)

Lemma keeps_ret {A} (a : A) : keepsTimeline (ret a).
Proof. by intros s. Qed.

Lemma keeps_raise {A} msg : keepsTimeline (raise (A:=A) msg).
Proof. by intros s. Qed.

Lemma keeps_panic {A} msg : keepsTimeline (panic (A:=A) msg).
Proof. by intros s. Qed.

Lemma keeps_fuel {A} : keepsTimeline (λ s, (OutOfFuel (A:=A), s)).
Proof. by intros s. Qed.

Lemma keeps_query {A} (q : DBService → A) : keepsTimeline (query q).
Proof. by intros s. Qed.

Lemma keeps_exec (u : DBService → DB) :
  (∀ s, tb_timeline (u s) = tb_timeline (tx s)) → keepsTimeline (exec u).
Proof. intros Hu s. simpl. by rewrite Hu. Qed.

Lemma keeps_bind {A B} (m : M A) (k : A → M B) :
  keepsTimeline m → (∀ a, keepsTimeline (k a)) → keepsTimeline (bind m k).
Proof.
  intros Hm Hk s. unfold bind. specialize (Hm s).
  destruct (m s) as [[a|e|q|] s']; simpl in *; [|done..].
  destruct (Hk a s') as [H1 H2]. destruct Hm as [H3 H4]. split; congruence.
Qed.

Lemma setTable_timeline vc set rows d :
  setTable vc = Some set → tb_timeline (set rows d) = tb_timeline d.
Proof. destruct vc; simpl; intros [= <-]; done. Qed.

Lemma setETable_timeline ec rows d : tb_timeline (setETable ec rows d) = tb_timeline d.
Proof. by destruct ec. Qed.

Create HintDb keeps.

Ltac keeps :=
  repeat first
    [ apply keeps_ret | apply keeps_raise | apply keeps_panic | apply keeps_query
    | apply keeps_fuel
    | solve [auto with keeps]
    | apply keeps_bind; [|intros ?]
    | match goal with
      | |- keepsTimeline (match ?x with _ => _ end) => destruct x eqn:?
      | |- keepsTimeline (if ?x then _ else _) => destruct x
      end ].

Lemma keeps_vertices tl vc limit condition orderBys :
  keepsTimeline (vertices tl vc limit condition orderBys).
Proof. unfold vertices. keeps. Qed.

Lemma keeps_connectedVertices tl ids ec direction out condition orderBys :
  keepsTimeline (connectedVertices tl ids ec direction out condition orderBys).
Proof. unfold connectedVertices. keeps. Qed.

Lemma keeps_insertVertex tl vc id vertex : keepsTimeline (insertVertex tl vc id vertex).
Proof.
  unfold insertVertex. destruct (tableOf vc), (setTable vc) eqn:Hset; keeps.
  apply keeps_exec. intros s. by apply (setTable_timeline vc).
Qed.

Lemma keeps_closeVertex endtl vc id : keepsTimeline (closeVertex endtl vc id).
Proof.
  unfold closeVertex. destruct (tableOf vc), (setTable vc) eqn:Hset; keeps.
  apply keeps_exec. intros s. by apply (setTable_timeline vc).
Qed.

Lemma keeps_closeEdge endtl ec x y : keepsTimeline (closeEdge endtl ec x y).
Proof. apply keeps_exec. intros s. apply setETable_timeline. Qed.

Lemma keeps_addEdge tl ec x y values : keepsTimeline (addEdge tl ec x y values).
Proof. apply keeps_exec. intros s. apply setETable_timeline. Qed.

#[local] Hint Resolve keeps_vertices keeps_connectedVertices keeps_insertVertex
  keeps_closeVertex keeps_closeEdge keeps_addEdge : keeps.

Lemma keeps_updateVertex tl vc id vertex : keepsTimeline (updateVertex tl vc id vertex).
Proof. unfold updateVertex. keeps. Qed.

Lemma keeps_RoleInternal tl id : keepsTimeline (RoleInternal tl id).
Proof. unfold RoleInternal. keeps. Qed.

Lemma keeps_RoleParentInternal tl ids : keepsTimeline (RoleParentInternal tl ids).
Proof. unfold RoleParentInternal. keeps. Qed.

Lemma keeps_ChildRoles tl ids : keepsTimeline (ChildRoles tl ids).
Proof. unfold ChildRoles, ChildRolesInternal. keeps. Qed.

Lemma keeps_insertRoleEvent roleEvent : keepsTimeline (insertRoleEvent roleEvent).
Proof. unfold insertRoleEvent. keeps; by apply keeps_exec. Qed.

Lemma keeps_getCircleChangesAppliedRoleEvent tl id :
  keepsTimeline (getCircleChangesAppliedRoleEvent tl id).
Proof. unfold getCircleChangesAppliedRoleEvent, RoleEventsByTypeInternal. keeps. Qed.

#[local] Hint Resolve keeps_updateVertex keeps_RoleInternal keeps_RoleParentInternal
  keeps_ChildRoles keeps_insertRoleEvent keeps_getCircleChangesAppliedRoleEvent : keeps.

Lemma keeps_forEach {A} (l : list A) (body : A → M unit) :
  (∀ a, keepsTimeline (body a)) → keepsTimeline (forEach l body).
Proof. intros Hbody. induction l as [|a l IH]; simpl; keeps. Qed.

Lemma keeps_updateChildsDepth fuel tl pdepth roleID :
  keepsTimeline (updateChildsDepth fuel tl pdepth roleID).
Proof.
  revert tl pdepth roleID. induction fuel as [|fuel IH]; intros tl pdepth roleID; simpl.
  - keeps.
  - keeps. apply keeps_forEach. intros child. keeps.
Qed.

#[local] Hint Resolve keeps_updateChildsDepth : keeps.

Lemma keeps_changeRoleParent fuel tl roleID newParentID :
  keepsTimeline (changeRoleParent fuel tl roleID newParentID).
Proof. unfold changeRoleParent, deleteEdge. keeps. Qed.

Lemma keeps_applyMutation fuel tl data : keepsTimeline (applyMutation fuel tl data).
Proof.
  pose proof keeps_changeRoleParent.
  unfold applyMutation, newVertex, deleteVertex, deleteEdge. destruct data; keeps.
Qed.

Lemma keeps_digestMove tl circle RoleID other moved moves append :
  keepsTimeline (digestMove tl circle RoleID other moved moves append).
Proof. unfold digestMove. keeps. Qed.

Lemma keeps_applyDigest tl event : keepsTimeline (applyDigest tl event).
Proof.
  pose proof keeps_digestMove.
  unfold applyDigest, digestRoleCreated, digestRoleDeleted, digestRoleUpdated,
    digestRoleChangedParent.
  destruct (ev_Data event); keeps.
Qed.

Lemma curTimeLineFromDB_run s :
  curTimeLineFromDB s
  = (Ok (foldr Z.max 0 (tlr_timestamp <$> tb_timeline (tx s))), tick s).
Proof. done. Qed.

(** [ApplyEvent] after the timeline of the group is known. *)
Lemma ApplyEvent_tail fuel event tl s :
  let m := (let* cur := curTimeLineFromDB in
            let* _ := setCurTl cur in
            let* _ := applyMutation fuel tl (ev_Data event) in
            applyDigest tl event) in
  tb_timeline (tx (m s).2) = tb_timeline (tx s)
  ∧ curTl (m s).2 = foldr Z.max 0 (tlr_timestamp <$> tb_timeline (tx s)).
Proof.
  intros m. subst m. unfold bind at 1. unfold curTimeLineFromDB. rewrite query_run.
  unfold bind at 1. unfold setCurTl.
  set (s2 := mkDBService (tx (tick s)) (forcedAdminMemberUserName (tick s))
               (foldr Z.max 0 (tlr_timestamp <$> tb_timeline (tx s))) (stmts (tick s))).
  assert (Hkeeps : keepsTimeline (let* _ := applyMutation fuel tl (ev_Data event) in
                                  applyDigest tl event)).
  { apply keeps_bind; [apply keeps_applyMutation|intros _; apply keeps_applyDigest]. }
  destruct (Hkeeps s2) as [H1 H2]. done.
Qed.

Lemma tb_timeline_setTimeline rows d s :
  tb_timeline (tx (tick (withTx (setTimeline rows d) s))) = rows.
Proof. done. Qed.

(** [ApplyEvent] until the timeline of the group is known. *)
Lemma ApplyEvent_head fuel event groupID s :
  ev_GroupID event = Some groupID →
  ∃ tl s1,
    ApplyEvent fuel event s
    = (let* cur := curTimeLineFromDB in
       let* _ := setCurTl cur in
       let* _ := applyMutation fuel tl (ev_Data event) in
       applyDigest tl event) s1
    ∧ tb_timeline (tx s1)
      = (if decide (groupID ∈ tlr_groupid <$> tb_timeline (tx s))
         then tb_timeline (tx s)
         else tb_timeline (tx s) ++ [timeLineRowOf event groupID]).
Proof.
  intros Hgroup. unfold ApplyEvent. rewrite Hgroup.
  unfold bind at 1. unfold TimeLineForGroupID at 1. rewrite query_run.
  destruct (filter (λ r, tlr_groupid r = groupID) (tb_timeline (tx s)))
    as [|row rows] eqn:Hfilter; simpl head; simpl fmap.
  - assert (Hnew : groupID ∉ tlr_groupid <$> tb_timeline (tx s)).
    { intros Hin. apply list_elem_of_fmap in Hin as (r & Hg & Hr).
      assert (Hrf : r ∈ filter (λ r, tlr_groupid r = groupID) (tb_timeline (tx s)))
        by (by apply list_elem_of_filter).
      rewrite Hfilter in Hrf. by apply elem_of_nil in Hrf. }
    rewrite decide_False by done.
    unfold bind at 1. unfold bind at 1. unfold exec at 1.
    unfold bind at 1. unfold TimeLineForGroupID at 1. rewrite query_run.
    rewrite tb_timeline_setTimeline.
    change (tb_timeline (tx (tick s))) with (tb_timeline (tx s)).
    rewrite filter_app, Hfilter, filter_cons, decide_True by done.
    simpl. eexists _, _. split; [reflexivity|done].
  - assert (Hold : groupID ∈ tlr_groupid <$> tb_timeline (tx s)).
    { assert (Hrf : row ∈ filter (λ r, tlr_groupid r = groupID) (tb_timeline (tx s)))
        by (rewrite Hfilter; by left).
      apply list_elem_of_filter in Hrf as [Hg Hr].
      apply list_elem_of_fmap. by exists row. }
    rewrite decide_True by done.
    unfold bind at 1. unfold ret at 1. eexists _, _. split; [reflexivity|done].
Qed.


(** ** The two views of the role tree *)

Lemma ChildRoles_lookup tl ids s :
  0 < tl →
  ∃ groups,
    ChildRoles tl ids s = (Ok groups, tick s)
    ∧ ∀ k, k ∈ ids → default [] (groups !! k) = childRolesAt s tl k.
Proof.
  intros Htl. unfold ChildRoles, ChildRolesInternal.
  destruct (connectedVertices_lookup tl ids edgeClassRoleRole edgeDirectionOut None
              ["role.name"%string] tb_role s) as (groups & Hrun & Hlook); [done..|].
  rewrite (bind_ok _ _ _ _ _ Hrun). eexists. split; [done|].
  intros k Hk. unfold neighbours, childRolesAt. rewrite lookup_fmap, Hlook.
  case_decide as Hd; [done|]. simpl.
  destruct (connectedAt s tl k edgeClassRoleRole edgeDirectionOut tb_role); [done|].
  exfalso. apply Hd. done.
Qed.

(** X22: on a role tree, at the current timeline, [RoleParentInternal]
    and [ChildRoles] are the two views of the same edges: the parent
    returned for a role [c] is [p] exactly when [c] is among the child
    roles returned for [p]. *)
Theorem parent_child_views_agree tl parentIDs childIDs s p c :
  0 < tl → curTl s = tl → RoleTreeOk s →
  p ∈ openRoles s → c ∈ openRoles s → v_id p ∈ parentIDs → v_id c ∈ childIDs →
  ∃ parents childs,
    RoleParentInternal tl childIDs s = (Ok parents, tick s)
    ∧ ChildRoles tl parentIDs s = (Ok childs, tick s)
    ∧ (parents !! v_id c = Some p ↔ c ∈ default [] (childs !! v_id p)).
Proof.
  intros Htl Hcur Hok Hp Hc Hpin Hcin.
  destruct (RoleParentInternal_lookup tl childIDs s) as (parents & Hrun & Hlook);
    [done..|].
  destruct (ChildRoles_lookup tl parentIDs s Htl) as (childs & Hrun' & Hlook').
  exists parents, childs. split; [done|]. split; [done|].
  rewrite Hlook, (Hlook' _ Hpin), childRolesAt_elem by done.
  unfold isParent, childOf. tauto.
Qed.

Lemma parent_child_views_agree_witness :
  ∃ parents childs,
    RoleParentInternal 2 [4%N; 3%N] treeStore = (Ok parents, tick treeStore)
    ∧ ChildRoles 2 [2%N] treeStore = (Ok childs, tick treeStore)
    ∧ (parents !! 4%N = Some (mkVertex 2%N 1 None (mkRole RoleTypeCircle 1 "Sales" ""))
       ↔ mkVertex 4%N 1 None (mkRole RoleTypeNormal 2 "Seller" "")
         ∈ default [] (childs !! 2%N)).
Proof.
  apply (parent_child_views_agree 2 [2%N] [4%N; 3%N] treeStore
           (mkVertex 2%N 1 None (mkRole RoleTypeCircle 1 "Sales" ""))
           (mkVertex 4%N 1 None (mkRole RoleTypeNormal 2 "Seller" ""))).
  - lia.
  - reflexivity.
  - exact treeStore_RoleTreeOk.
  - rewrite treeStore_roles. rewrite !elem_of_cons. tauto.
  - rewrite treeStore_roles. rewrite !elem_of_cons. tauto.
  - simpl. rewrite !elem_of_cons. tauto.
  - simpl. rewrite !elem_of_cons. tauto.
Defined.

(** ** The forced administrator *)

(** X23: a calling member whose user name is the forced administrator
    name of the service has every permission on every circle, whatever
    its [IsAdmin] column and the lead links are, and the two
    permissions on the root circle when the circle has no parent.  The
    names are compared as they are: in a service without forced
    administrator (the empty name) a member with an empty user name is
    an administrator. *)
Theorem forced_admin_has_all_permissions tl userid roleID m role s :
  0 < tl →
  memberAt s tl userid = Some m →
  UserName (v_attrs m) = forcedAdminMemberUserName s →
  roleAt s tl roleID = Some role →
  RoleType_ (v_attrs role) = RoleTypeCircle →
  CallingMemberInternal (ctxUserID userid) tl s = (Ok (setIsAdmin m), tick s)
  ∧ (MemberCirclePermissions (ctxUserID userid) tl roleID s).1
    = Ok (Some (permissionsOf true (isRootAt s tl roleID))).
Proof.
  intros Htl Hm Hname Hrole Hcircle.
  assert (Hcm : callingMemberAt s tl userid = Some (setIsAdmin m)).
  { unfold callingMemberAt. rewrite Hm. simpl. by rewrite decide_True. }
  split.
  - rewrite CallingMemberInternal_run by done. by rewrite Hcm.
  - rewrite (MemberCirclePermissions_run tl userid roleID (setIsAdmin m) role) by done.
    by rewrite decide_False by (intros Hne; by apply Hne).
Qed.

Lemma forced_admin_has_all_permissions_witness :
  CallingMemberInternal (ctxUserID 10%N) 1 namelessMemberStore
  = (Ok (setIsAdmin (mkVertex 10%N 1 None (mkMember false "" "Nobody" "nobody@example.org"))),
     tick namelessMemberStore)
  ∧ (MemberCirclePermissions (ctxUserID 10%N) 1 1%N namelessMemberStore).1
    = Ok (Some (permissionsOf true (isRootAt namelessMemberStore 1 1%N))).
Proof.
  apply (forced_admin_has_all_permissions 1 10%N 1%N
           (mkVertex 10%N 1 None (mkMember false "" "Nobody" "nobody@example.org"))
           (mkVertex 1%N 1 None (mkRole RoleTypeCircle 0 "General" ""))
           namelessMemberStore).
  - lia.
  - reflexivity.
  - reflexivity.
  - reflexivity.
  - reflexivity.
Defined.

(** ** The timeline at an instant *)

Lemma head_take_1 {A} (l : list A) : take 1 l = option_list (head l).
Proof. by destruct l. Qed.

(** X24: [TimeLineAtTimeStamp] returns the least timestamp of the
    table that is not before [ts], and nil exactly when every timeline
    is before [ts]; it is the timeline that the first page of size 1
    of [TimeLines], asked forward from just before [ts], holds. *)
Theorem TimeLineAtTimeStamp_least ts sn s :
  ∃ r more,
    TimeLineAtTimeStamp ts s = (Ok r, tick s)
    ∧ match r with
      | Some t =>
        t ∈ tlr_timestamp <$> tb_timeline (tx s) ∧ ts ≤ t
        ∧ ∀ t', t' ∈ tlr_timestamp <$> tb_timeline (tx s) → ts ≤ t' → t ≤ t'
      | None => ∀ t', t' ∈ tlr_timestamp <$> tb_timeline (tx s) → t' < ts
      end
    ∧ TimeLines (Some (ts - 1)) sn 1 true "" None s = (Ok (option_list r, more), tick s).
Proof.
  assert (Hsel : tlr_timestamp <$>
                   filter (λ r, holds (sqGtOrEq (Some (tlr_timestamp r)) ts))
                          (tb_timeline (tx s))
                 = filter (beyond true (ts - 1)) (timeLinesOf s "" None)).
  { unfold timeLinesOf. rewrite filter_fmap_list, list_filter_filter. f_equal.
    apply list_filter_iff. intros r. unfold sqGtOrEq, beyond, aggregateMatches. simpl.
    case_bool_decide; simpl; intuition lia. }
  set (sorted := merge_sort (timestampOrder true)
                   (filter (beyond true (ts - 1)) (timeLinesOf s "" None))).
  assert (Hperm : sorted ≡ₚ filter (beyond true (ts - 1)) (timeLinesOf s "" None))
    by apply merge_sort_Permutation.
  assert (Hss : StronglySorted (timestampOrder true) sorted)
    by (apply StronglySorted_merge_sort; apply _).
  assert (Hall : timeLinesOf s "" None = tlr_timestamp <$> tb_timeline (tx s)).
  { unfold timeLinesOf. f_equal. apply filter_all_elem. intros r _. split; [by left|done]. }
  assert (Hin : ∀ t, t ∈ sorted ↔ t ∈ tlr_timestamp <$> tb_timeline (tx s) ∧ ts ≤ t).
  { intros t. rewrite Hperm, list_elem_of_filter, Hall. unfold beyond. intuition lia. }
  eexists (head sorted), _. split; [|split].
  - unfold TimeLineAtTimeStamp. by rewrite query_run, Hsel.
  - destruct sorted as [|t l] eqn:Hsorted; simpl.
    + intros t' Ht'. destruct (decide (t' < ts)) as [|Hge]; [done|].
      assert (Hno : t' ∈ @nil Z) by (apply Hin; split; [done|lia]).
      by apply elem_of_nil in Hno.
    + destruct (proj1 (Hin t)) as [Ht Hle]; [by left|].
      split; [done|]. split; [done|]. intros t' Ht' Hle'.
      assert (Hl : t' ∈ t :: l) by (by apply Hin).
      apply elem_of_cons in Hl as [->|Hl]; [lia|].
      apply StronglySorted_inv in Hss as [_ Hfa].
      rewrite Forall_forall in Hfa. by apply Hfa.
  - rewrite TimeLines_run by (pow2; lia). simpl default.
    fold sorted. unfold timeLinesLimit. rewrite decide_False by lia.
    change (Z.to_nat 1) with 1%nat. by rewrite head_take_1.
Qed.

(** The timeline at the instant 25 of the example is the one of 30. *)
Lemma TimeLineAtTimeStamp_example :
  (TimeLineAtTimeStamp 25 fourTimeLinesStore).1 = Ok (Some 30).
Proof. reflexivity. Qed.
